(** * mailflow_checker: a shallow embedding of [mailflow_checker.py]

    The monitor sends a probe mail over SMTP, polls an IMAP mailbox for it,
    optionally deletes it, and reports one outcome per account.

    Python values are modelled by the type [pyval]; a Python [str] and a
    Python [bytes] are both a [string], one character per code point below
    256.  Exceptions are values of [exn]; a computation that can raise
    returns a [result].  Calls to the outside world (SMTP, IMAP, HTTP, the
    clock, the random source) go through an environment [Env] that answers
    each request as a function of everything that happened before, and
    every call is recorded in the history of the [World]. *)

From Stdlib Require Import ZArith List String Ascii Bool Lia Arith.
Import ListNotations.

Local Open Scope string_scope.
Local Open Scope Z_scope.
Local Set Warnings "-register-all".

(** ** Results and exceptions *)

(** The classes of exception the program tells apart.  [SMTPClass] stands
    for [smtplib.SMTPException] and its subclasses, [OSClass] for
    [socket.error] (that is [OSError]) and its subclasses; both carry the
    name of the concrete class.  [OtherClass] is any other subclass of
    [Exception]. *)
Inductive exn_class : Type :=
  | ValueError
  | TypeError
  | AttributeError
  | RuntimeError
  | SMTPClass (name : string)
  | OSClass (name : string)
  | OtherClass (name : string).

Record exn : Type := Exn { exn_cls : exn_class; exn_msg : string }.

(** [type(e).__name__] *)
Definition class_name (c : exn_class) : string :=
  match c with
  | ValueError => "ValueError"
  | TypeError => "TypeError"
  | AttributeError => "AttributeError"
  | RuntimeError => "RuntimeError"
  | SMTPClass n => n
  | OSClass n => n
  | OtherClass n => n
  end.

(** [isinstance(e, (smtplib.SMTPException, socket.error))] *)
Definition is_smtp_or_socket_error (e : exn) : bool :=
  match exn_cls e with
  | SMTPClass _ | OSClass _ => true
  | _ => false
  end.

(** [OutOfFuel] is not a Python outcome: it says that the fuel given to the
    poll loop ran out before the loop ended.  No handler catches it. *)
Inductive result (A : Type) : Type :=
  | Return (a : A)
  | Raise (e : exn)
  | OutOfFuel.
Arguments Return {A} a.
Arguments Raise {A} e.
Arguments OutOfFuel {A}.

Definition rbind {A B : Type} (r : result A) (k : A -> result B) : result B :=
  match r with
  | Return a => k a
  | Raise e => Raise e
  | OutOfFuel => OutOfFuel
  end.

Declare Scope result_scope.
Delimit Scope result_scope with result.
Notation "'let?' x ':=' c 'in' k" := (rbind c (fun x => k))
  (at level 10, x pattern, c at level 100, k at level 200) : result_scope.
Local Open Scope result_scope.

Definition is_raise {A : Type} (r : result A) : bool :=
  match r with Raise _ => true | _ => false end.

(** ** Strings *)

Definition dquote : string := String "034"%char "".
Definition squote : string := String "039"%char "".
Definition backslash : string := String "092"%char "".
Definition CR : string := String "013"%char "".
Definition LF : string := String "010"%char "".
Definition CRLF : string := CR ++ LF.

Definition code (c : ascii) : N := N_of_ascii c.

(** [str.lower] on one code point below 256: the upper-case ASCII letters
    and the upper-case Latin-1 letters (all of 192..222 but the
    multiplication sign 215) move up by 32. *)
Definition lower_char (c : ascii) : ascii :=
  let n := code c in
  if ((65 <=? n) && (n <=? 90))%N
     || ((192 <=? n) && (n <=? 222) && negb (n =? 215))%N
  then ascii_of_N (n + 32)
  else c.

Fixpoint lower (s : string) : string :=
  match s with
  | EmptyString => EmptyString
  | String c r => String (lower_char c) (lower r)
  end.

Fixpoint str_in (x : string) (l : list string) : bool :=
  match l with
  | [] => false
  | y :: r => String.eqb x y || str_in x r
  end.

(** [sep.join(parts)] *)
Fixpoint join (sep : string) (parts : list string) : string :=
  match parts with
  | [] => ""
  | [p] => p
  | p :: r => p ++ sep ++ join sep r
  end.

Fixpoint contains_char (c : ascii) (s : string) : bool :=
  match s with
  | EmptyString => false
  | String d r => Ascii.eqb c d || contains_char c r
  end.

Definition hex_digit (n : N) : ascii :=
  if (n <? 10)%N then ascii_of_N (48 + n) else ascii_of_N (87 + n).

(** The [w] lowest hexadecimal digits of [n], most significant first. *)
Fixpoint hex_fixed (w : nat) (n : N) : string :=
  match w with
  | O => ""
  | S w' => hex_fixed w' (n / 16) ++ String (hex_digit (n mod 16)) ""
  end.

Fixpoint dec_digits (fuel : nat) (n : N) (acc : string) : string :=
  match fuel with
  | O => acc
  | S f =>
      let acc' := String (ascii_of_N (48 + n mod 10)) acc in
      if (n <? 10)%N then acc' else dec_digits f (n / 10) acc'
  end.

(** [str(z)] for an integer *)
Definition dec_of_Z (z : Z) : string :=
  let n := Z.abs_N z in
  let d := dec_digits (S (N.to_nat (N.log2 n))) n "" in
  if z <? 0 then "-" ++ d else d.

(** [str.encode("utf-8")] on code points below 256. *)
Fixpoint encode_utf8 (s : string) : string :=
  match s with
  | EmptyString => EmptyString
  | String c r =>
      let n := code c in
      if (n <? 128)%N then String c (encode_utf8 r)
      else String (ascii_of_N (192 + n / 64))
             (String (ascii_of_N (128 + n mod 64)) (encode_utf8 r))
  end.

(** ASCII whitespace, as [bytes.split()] sees it. *)
Definition is_space_byte (c : ascii) : bool :=
  let n := code c in
  ((n =? 32) || ((9 <=? n) && (n <=? 13)))%N.

(** The whitespace that [int()] skips around a number, below 256: the
    ASCII whitespace, NEL and the no-break space (not the separators
    28..31, although [str.isspace] holds of them). *)
Definition is_int_space (c : ascii) : bool :=
  let n := code c in
  ((n =? 32) || ((9 <=? n) && (n <=? 13)) || (n =? 133) || (n =? 160))%N.

(** [bytes.split()]: the maximal runs of non-whitespace bytes.  [cur] is
    the run being read, in reverse. *)
Fixpoint split_ws_aux (s : string) (cur : list ascii) : list string :=
  let flush (rest : list string) :=
    match cur with
    | [] => rest
    | _ => string_of_list_ascii (rev cur) :: rest
    end in
  match s with
  | EmptyString => flush []
  | String c r =>
      if is_space_byte c then flush (split_ws_aux r [])
      else split_ws_aux r (c :: cur)
  end.

Definition split_ws (s : string) : list string := split_ws_aux s [].

(** ** Python values *)

(** What [yaml.safe_load] builds: [None], booleans, integers, strings,
    lists and dictionaries; floats and timestamps are left out.  A
    dictionary is the list of its items in insertion order; its keys are
    hashable scalars. *)
Inductive pykey : Type :=
  | KNone
  | KBool (b : bool)
  | KInt (z : Z)
  | KStr (s : string).

Inductive pyval : Type :=
  | PNone
  | PBool (b : bool)
  | PInt (z : Z)
  | PStr (s : string)
  | PList (l : list pyval)
  | PDict (d : list (pykey * pyval)).

Definition pydict : Type := list (pykey * pyval).

Definition key_to_val (k : pykey) : pyval :=
  match k with
  | KNone => PNone
  | KBool b => PBool b
  | KInt z => PInt z
  | KStr s => PStr s
  end.

Definition key_num (k : pykey) : option Z :=
  match k with
  | KBool b => Some (if b then 1 else 0)
  | KInt z => Some z
  | _ => None
  end.

(** Equality of keys as Python hashes them: [True == 1] and [False == 0]. *)
Definition key_eqb (a b : pykey) : bool :=
  match a, b with
  | KNone, KNone => true
  | KStr s, KStr t => String.eqb s t
  | _, _ =>
      match key_num a, key_num b with
      | Some x, Some y => x =? y
      | _, _ => false
      end
  end.

(** [d.get(k)], [None] when absent *)
Fixpoint dict_find (d : pydict) (k : pykey) : option pyval :=
  match d with
  | [] => None
  | (k', v) :: r => if key_eqb k' k then Some v else dict_find r k
  end.

(** [d[k] = v]: an existing key keeps its place, a new one goes last. *)
Fixpoint dict_set (d : pydict) (k : pykey) (v : pyval) : pydict :=
  match d with
  | [] => [(k, v)]
  | (k', v') :: r =>
      if key_eqb k' k then (k', v) :: r else (k', v') :: dict_set r k v
  end.

(** [bool(v)] *)
Definition truthy (v : pyval) : bool :=
  match v with
  | PNone => false
  | PBool b => b
  | PInt z => negb (z =? 0)
  | PStr s => negb (String.eqb s "")
  | PList l => match l with [] => false | _ => true end
  | PDict d => match d with [] => false | _ => true end
  end.

(** [a or b] *)
Definition py_or (a b : pyval) : pyval := if truthy a then a else b.

Definition type_name (v : pyval) : string :=
  match v with
  | PNone => "NoneType"
  | PBool _ => "bool"
  | PInt _ => "int"
  | PStr _ => "str"
  | PList _ => "list"
  | PDict _ => "dict"
  end.

Definition no_attribute (v : pyval) (attr : string) : exn :=
  Exn AttributeError
    (squote ++ type_name v ++ "' object has no attribute '" ++ attr ++ squote).

(** [o.get(k, default)] *)
Definition py_get (o : pyval) (k : string) (default : pyval) : result pyval :=
  match o with
  | PDict d =>
      Return (match dict_find d (KStr k) with Some v => v | None => default end)
  | _ => Raise (no_attribute o "get")
  end.

(** *** [repr] and [str] *)

Definition printable (c : ascii) : bool :=
  let n := code c in
  negb ((n <? 32) || (n =? 127) || ((128 <=? n) && (n <=? 160)) || (n =? 173))%N.

Definition repr_char (quote : ascii) (c : ascii) : string :=
  if Ascii.eqb c quote then backslash ++ String c ""
  else if Ascii.eqb c "092" then backslash ++ backslash
  else if Ascii.eqb c "009" then backslash ++ "t"
  else if Ascii.eqb c "010" then backslash ++ "n"
  else if Ascii.eqb c "013" then backslash ++ "r"
  else if printable c then String c ""
  else backslash ++ "x" ++ hex_fixed 2 (code c).

Fixpoint repr_chars (quote : ascii) (s : string) : string :=
  match s with
  | EmptyString => ""
  | String c r => repr_char quote c ++ repr_chars quote r
  end.

(** [repr(s)] for a string: single quotes, unless the string has a single
    quote and no double quote. *)
Definition repr_str (s : string) : string :=
  let q : ascii :=
    if contains_char "039" s && negb (contains_char "034" s)
    then "034"%char else "039"%char in
  String q (repr_chars q s) ++ String q "".

Definition repr_key (k : pykey) : string :=
  match k with
  | KNone => "None"
  | KBool b => if b then "True" else "False"
  | KInt z => dec_of_Z z
  | KStr s => repr_str s
  end.

Fixpoint repr (v : pyval) : string :=
  match v with
  | PNone => "None"
  | PBool b => if b then "True" else "False"
  | PInt z => dec_of_Z z
  | PStr s => repr_str s
  | PList l => "[" ++ join ", " (map repr l) ++ "]"
  | PDict d =>
      "{" ++ join ", " (map (fun kv => repr_key (fst kv) ++ ": " ++ repr (snd kv)) d)
          ++ "}"
  end.

(** [str(v)] *)
Definition py_str (v : pyval) : string :=
  match v with
  | PStr s => s
  | _ => repr v
  end.

(** *** [int] *)

Definition digit_val (c : ascii) : option Z :=
  let n := code c in
  if ((48 <=? n) && (n <=? 57))%N then Some (Z.of_N n - 48) else None.

(** Decimal digits, single underscores allowed between two digits. *)
Fixpoint parse_digits (s : string) (acc : Z) (after_digit : bool) : option Z :=
  match s with
  | EmptyString => if after_digit then Some acc else None
  | String c r =>
      match digit_val c with
      | Some d => parse_digits r (10 * acc + d) true
      | None =>
          if Ascii.eqb c "_" && after_digit then parse_digits r acc false
          else None
      end
  end.

Fixpoint lstrip (s : string) : string :=
  match s with
  | EmptyString => EmptyString
  | String c r => if is_int_space c then lstrip r else s
  end.

Fixpoint rstrip (s : string) : string :=
  match s with
  | EmptyString => EmptyString
  | String c r =>
      match rstrip r with
      | EmptyString => if is_int_space c then EmptyString else String c ""
      | r' => String c r'
      end
  end.

Definition strip (s : string) : string := rstrip (lstrip s).

Definition parse_int (s : string) : option Z :=
  match strip s with
  | String "-" r => option_map Z.opp (parse_digits r 0 false)
  | String "+" r => parse_digits r 0 false
  | t => parse_digits t 0 false
  end.

(** [int(v)] *)
Definition py_int (v : pyval) : result Z :=
  match v with
  | PInt z => Return z
  | PBool b => Return (if b then 1 else 0)
  | PStr s =>
      match parse_int s with
      | Some z => Return z
      | None =>
          Raise (Exn ValueError
                   ("invalid literal for int() with base 10: " ++ repr_str s))
      end
  | _ =>
      Raise (Exn TypeError
               ("int() argument must be a string, a bytes-like object or a real number, not '"
                  ++ type_name v ++ squote))
  end.

(** *** Iteration and the [dict] constructor *)

Fixpoint chars (s : string) : list pyval :=
  match s with
  | EmptyString => []
  | String c r => PStr (String c "") :: chars r
  end.

Definition not_iterable (v : pyval) : exn :=
  Exn TypeError (squote ++ type_name v ++ "' object is not iterable").

(** The values a [for] loop over [v] visits. *)
Definition py_iter (v : pyval) : result (list pyval) :=
  match v with
  | PList l => Return l
  | PDict d => Return (map (fun kv => key_to_val (fst kv)) d)
  | PStr s => Return (chars s)
  | _ => Raise (not_iterable v)
  end.

(** [hash(v)] exists for scalars only. *)
Definition py_key (v : pyval) : result pykey :=
  match v with
  | PNone => Return KNone
  | PBool b => Return (KBool b)
  | PInt z => Return (KInt z)
  | PStr s => Return (KStr s)
  | _ => Raise (Exn TypeError ("unhashable type: '" ++ type_name v ++ squote))
  end.

(** The loop of [dict(iterable)] over the elements, [i] being the index
    of the next one: each must be an iterable of a key and a value. *)
Fixpoint dict_of_pairs (elems : list pyval) (i : Z) (out : pydict) : result pydict :=
  match elems with
  | [] => Return out
  | e :: rest =>
      match py_iter e with
      | Return [k; v] =>
          let? k' := py_key k in dict_of_pairs rest (i + 1) (dict_set out k' v)
      | Return l =>
          Raise (Exn ValueError
                   ("dictionary update sequence element #" ++ dec_of_Z i
                      ++ " has length " ++ dec_of_Z (Z.of_nat (List.length l))
                      ++ "; 2 is required"))
      | Raise _ =>
          Raise (Exn TypeError
                   ("cannot convert dictionary update sequence element #"
                      ++ dec_of_Z i ++ " to a sequence"))
      | OutOfFuel => OutOfFuel
      end
  end.

(** [dict(a)]: a copy of a dictionary, or the dictionary built from an
    iterable of two-element iterables. *)
Definition py_dict (a : pyval) : result pydict :=
  match a with
  | PDict d => Return d
  | _ => let? elems := py_iter a in dict_of_pairs elems 0 []
  end.

(** ** The configuration *)

Definition REDACTED : string := "***REDACTED***".

Definition sensitive_keys : list string :=
  ["password"; "pass"; "secret"; "token"; "push_key"].

Fixpoint redact_config (obj : pyval) : result pyval :=
  match obj with
  | PDict d =>
      let? redacted :=
        (fix items (d : pydict) (redacted : pydict) : result pydict :=
           match d with
           | [] => Return redacted
           | (k, v) :: rest =>
               match k with
               | KStr s =>
                   if str_in (lower s) sensitive_keys
                   then items rest (dict_set redacted k (PStr REDACTED))
                   else (let? v' := redact_config v in
                         items rest (dict_set redacted k v'))
               | _ => Raise (no_attribute (key_to_val k) "lower")
               end
           end) d [] in
      Return (PDict redacted)
  | PList l =>
      let? l' :=
        (fix each (l : list pyval) : result (list pyval) :=
           match l with
           | [] => Return []
           | x :: r =>
               let? x' := redact_config x in
               let? r' := each r in
               Return (x' :: r')
           end) l in
      Return (PList l')
  | _ => Return obj
  end.

Record SMTPSettings : Type := {
  smtp_host : string;
  smtp_port : Z;
  smtp_security : string;
  smtp_username : pyval;
  smtp_password : pyval;
  from_addr : pyval;
  to_addr : pyval;
  smtp_timeout : Z
}.

Record IMAPSettings : Type := {
  imap_host : string;
  imap_port : Z;
  imap_security : string;
  imap_username : pyval;
  imap_password : pyval;
  mailbox : string;
  imap_timeout : Z
}.

Record PollSettings : Type := {
  timeout_seconds : Z;
  interval_seconds : Z
}.

Record KumaSettings : Type := { push_url : pyval }.

Record AccountConfig : Type := {
  name : string;
  smtp : SMTPSettings;
  imap : IMAPSettings;
  poll : PollSettings;
  delete_on_success : bool;
  kuma : KumaSettings
}.

Fixpoint deep_merge (a b : pyval) {struct b} : result pyval :=
  let? out := py_dict a in
  match b with
  | PDict items =>
      let? out' :=
        (fix loop (items : pydict) (out : pydict) : result pydict :=
           match items with
           | [] => Return out
           | (k, v) :: rest =>
               match v, dict_find out k with
               | PDict _, Some (PDict od) =>
                   let? m := deep_merge (PDict od) v in
                   loop rest (dict_set out k m)
               | _, _ => loop rest (dict_set out k v)
               end
           end) items out in
      Return (PDict out')
  | _ => Raise (no_attribute b "items")
  end.

(** The body of the loop of [parse_config] for one selected entry [raw]. *)
Definition parse_account (defaults raw : pyval) : result AccountConfig :=
  let? merged := deep_merge defaults raw in
  let? smtp_dict := (let? x := py_get merged "smtp" PNone in Return (py_or x (PDict []))) in
  let? imap_dict := (let? x := py_get merged "imap" PNone in Return (py_or x (PDict []))) in
  let? poll_dict := (let? x := py_get merged "poll" PNone in Return (py_or x (PDict []))) in
  let? kuma_dict :=
    (let? x := py_get merged "uptime_kuma" PNone in
     if truthy x then Return x
     else let? y := py_get merged "kuma" PNone in
          Return (py_or y (PDict []))) in
  let? s_host := py_get smtp_dict "host" PNone in
  let? s_port := (let? x := py_get smtp_dict "port" (PInt 465) in py_int x) in
  let? s_sec := py_get smtp_dict "security" (PStr "ssl") in
  let? s_user := py_get smtp_dict "username" PNone in
  let? s_pass := py_get smtp_dict "password" PNone in
  let? s_from :=
    (let? x := py_get smtp_dict "from" PNone in
     if truthy x then Return x else py_get smtp_dict "from_addr" PNone) in
  let? s_to :=
    (let? x := py_get smtp_dict "to" PNone in
     if truthy x then Return x else py_get smtp_dict "to_addr" PNone) in
  let? s_timeout := (let? x := py_get smtp_dict "timeout" (PInt 30) in py_int x) in
  let smtp :=
    {| smtp_host := py_str s_host; smtp_port := s_port;
       smtp_security := lower (py_str s_sec);
       smtp_username := s_user; smtp_password := s_pass;
       from_addr := s_from; to_addr := s_to; smtp_timeout := s_timeout |} in
  let? i_host := py_get imap_dict "host" PNone in
  let? i_port := (let? x := py_get imap_dict "port" (PInt 993) in py_int x) in
  let? i_sec := py_get imap_dict "security" (PStr "ssl") in
  let? i_user := py_get imap_dict "username" PNone in
  let? i_pass := py_get imap_dict "password" PNone in
  let? i_mailbox := py_get imap_dict "mailbox" (PStr "INBOX") in
  let? i_timeout := (let? x := py_get imap_dict "timeout" (PInt 30) in py_int x) in
  let imap :=
    {| imap_host := py_str i_host; imap_port := i_port;
       imap_security := lower (py_str i_sec);
       imap_username := i_user; imap_password := i_pass;
       mailbox := py_str i_mailbox; imap_timeout := i_timeout |} in
  let? p_timeout :=
    (let? d := py_get poll_dict "timeout" (PInt 120) in
     let? x := py_get poll_dict "timeout_seconds" d in py_int x) in
  let? p_interval :=
    (let? d := py_get poll_dict "interval" (PInt 5) in
     let? x := py_get poll_dict "interval_seconds" d in py_int x) in
  let poll := {| timeout_seconds := p_timeout; interval_seconds := p_interval |} in
  let? k_url :=
    (let? x := py_get kuma_dict "push_url" PNone in
     if truthy x then Return x else py_get kuma_dict "url" PNone) in
  let kuma := {| push_url := k_url |} in
  let? delete_flag :=
    (let? d := py_get merged "cleanup" (PBool true) in
     let? x := py_get merged "delete_on_success" d in Return (truthy x)) in
  let? name :=
    (let? x := py_get merged "name" PNone in
     if truthy x then Return (py_str x)
     else let? y := py_get raw "name" PNone in Return (py_str y)) in
  if String.eqb name "" then
    Raise (Exn ValueError "Each account must have a 'name'.")
  else if String.eqb (smtp_host smtp) "" then
    Raise (Exn ValueError
             ("Missing required config value: smtp.host for account " ++ name))
  else if String.eqb (imap_host imap) "" then
    Raise (Exn ValueError
             ("Missing required config value: imap.host for account " ++ name))
  else
    Return {| name := name; smtp := smtp; imap := imap; poll := poll;
              delete_on_success := delete_flag; kuma := kuma |}.

(** [selected_accounts and raw.get("name") not in selected_accounts] *)
Definition skipped (selected_accounts : option (list string)) (raw : pyval)
  : result bool :=
  match selected_accounts with
  | None | Some [] => Return false
  | Some sel =>
      let? n := py_get raw "name" PNone in
      Return (negb (match n with PStr s => str_in s sel | _ => false end))
  end.

(** The [for raw in accounts] loop of [parse_config]. *)
Fixpoint parse_accounts (defaults : pyval) (selected_accounts : option (list string))
    (accounts : list pyval) (acc : list AccountConfig)
  : result (list AccountConfig) :=
  match accounts with
  | [] => Return acc
  | raw :: rest =>
      let? skip := skipped selected_accounts raw in
      if skip then parse_accounts defaults selected_accounts rest acc
      else
        let? a := parse_account defaults raw in
        parse_accounts defaults selected_accounts rest (acc ++ [a])%list
  end.

(** [parse_config] from the loaded document to the list of accounts, that
    is without reading the file and without the final debug line. *)
Definition parse_document (loaded : pyval) (selected_accounts : option (list string))
  : result (list AccountConfig) :=
  let data := py_or loaded (PDict []) in
  let? defaults := py_get data "defaults" (PDict []) in
  let? accounts := py_get data "accounts" (PList []) in
  if negb (truthy accounts) then
    Raise (Exn ValueError "No accounts configured in YAML under 'accounts'.")
  else
    let? raws := py_iter accounts in
    let? result := parse_accounts defaults selected_accounts raws [] in
    match selected_accounts, result with
    | Some (_ :: _), [] =>
        Raise (Exn ValueError "No matching accounts after filtering by --account")
    | _, _ => Return result
    end.

(** ** The outside world *)

Inductive level : Type := DEBUG | INFO | WARNING | ERROR.

(** An argument of a logging call, before it is formatted. *)
Inductive logarg : Type :=
  | LStr (s : string)
  | LBytes (b : option string)
  | LNum (z : Z)
  | LVal (v : pyval)
  | LExn (e : exn).

(** Library calls whose return value the program ignores.  [SmtpQuit] is
    the exit of the [with smtplib.SMTP...] block. *)
Inductive io_call : Type :=
  | SslCreateDefaultContext
  | SmtpSSL (host : string) (port timeout : Z)
  | SmtpPlain (host : string) (port timeout : Z)
  | SmtpEhlo
  | SmtpStartTLS
  | SmtpLogin (user password : pyval)
  | SmtpSendmail (sender : pyval) (recipients : list pyval) (raw : string)
  | SmtpQuit
  | ImapSSL (host : string) (port : Z)
  | ImapPlain (host : string) (port : Z)
  | ImapStartTLS
  | ImapLogin (user password : pyval)
  | ImapStore (msgid : string) (command flags : string)
  | ImapExpunge
  | ImapLogout
  | HttpGet (url : pyval) (params : list (string * string)) (timeout : Z).

(** The two IMAP commands whose answer [(typ, data)] the program reads. *)
Inductive imap_query : Type :=
  | ImapSelect (mailbox : string) (readonly : bool)
  | ImapSearch (criterion : string).

Definition imap_resp : Type := (string * list (option string))%type.

Inductive event : Type :=
  | ECall (c : io_call) (r : option exn)
  | EQuery (q : imap_query) (r : exn + imap_resp)
  | ELoad (path : string) (r : exn + pyval)
  | EUuid (bits : N)
  | EDate (s : string)
  | ESleep (secs : Z)
  | ELog (lvl : level) (fmt : string) (args : list logarg)
  | ELogSetup (verbose : bool).

(** The environment answers a request from the events so far.  A call or
    a query also takes some time, in milliseconds; [env_oversleep] is the
    time a [time.sleep] lasts beyond the time asked for.  The exceptions it
    raises are subclasses of [Exception]. *)
Record Env : Type := {
  env_call : list event -> io_call -> option exn * N;
  env_query : list event -> imap_query -> (exn + imap_resp) * N;
  env_load : list event -> string -> exn + pyval;
  env_random : list event -> N;
  env_date : list event -> Z -> string;
  env_oversleep : list event -> N
}.

(** The clock, in milliseconds, and the events so far, oldest first.  The
    clock is a logical one: it only moves by the durations of the calls and
    of the sleeps, which are not negative. *)
Record World : Type := { now : Z; history : list event }.

Definition record (ev : event) (elapsed : Z) (w : World) : World :=
  {| now := now w + elapsed; history := (history w ++ [ev])%list |}.

(** ** The monad of the program: state and exceptions *)

Definition M (A : Type) : Type := World -> result A * World.

Definition ret {A : Type} (a : A) : M A := fun w => (Return a, w).

Definition bind {A B : Type} (m : M A) (k : A -> M B) : M B :=
  fun w =>
    match m w with
    | (Return a, w') => k a w'
    | (Raise e, w') => (Raise e, w')
    | (OutOfFuel, w') => (OutOfFuel, w')
    end.

Definition raise {A : Type} (e : exn) : M A := fun w => (Raise e, w).

Definition out_of_fuel {A : Type} : M A := fun w => (OutOfFuel, w).

Definition lift {A : Type} (r : result A) : M A := fun w => (r, w).

(** [try: m  except <classes> as e: h e], where [catches] says whether
    the exception is an instance of the classes. *)
Definition try_except {A : Type} (m : M A) (catches : exn -> bool) (h : exn -> M A)
  : M A :=
  fun w =>
    match m w with
    | (Raise e, w') => if catches e then h e w' else (Raise e, w')
    | r => r
    end.

(** [except Exception] *)
Definition any_exception (e : exn) : bool := true.

(** [try: m  finally: f]; an exception of [f] replaces the outcome of [m]. *)
Definition try_finally {A : Type} (m : M A) (f : M unit) : M A :=
  fun w =>
    match m w with
    | (OutOfFuel, w') => (OutOfFuel, w')
    | (r, w') =>
        match f w' with
        | (Return _, w'') => (r, w'')
        | (Raise e, w'') => (Raise e, w'')
        | (OutOfFuel, w'') => (OutOfFuel, w'')
        end
    end.

Declare Scope m_scope.
Delimit Scope m_scope with M.
Notation "x <- m ;; k" := (bind m (fun x => k))
  (at level 61, m at next level, right associativity) : m_scope.
Notation "' pat <- m ;; k" := (bind m (fun x => match x with pat => k end))
  (at level 61, pat pattern, m at next level, right associativity) : m_scope.
Notation "m ;; k" := (bind m (fun _ => k))
  (at level 61, right associativity) : m_scope.
Local Open Scope m_scope.

Section Program.

Variable env : Env.

(** *** Primitive operations *)

Definition call (c : io_call) : M unit :=
  fun w =>
    let '(r, d) := env_call env (history w) c in
    let w' := record (ECall c r) (Z.of_N d) w in
    match r with
    | None => (Return tt, w')
    | Some e => (Raise e, w')
    end.

Definition query (q : imap_query) : M imap_resp :=
  fun w =>
    let '(r, d) := env_query env (history w) q in
    let w' := record (EQuery q r) (Z.of_N d) w in
    match r with
    | inr resp => (Return resp, w')
    | inl e => (Raise e, w')
    end.

(** [open(path)] followed by [yaml.safe_load] *)
Definition load_yaml (path : string) : M pyval :=
  fun w =>
    let r := env_load env (history w) path in
    let w' := record (ELoad path r) 0 w in
    match r with
    | inr v => (Return v, w')
    | inl e => (Raise e, w')
    end.

(** [time.time()], in milliseconds *)
Definition time_time : M Z := fun w => (Return (now w), w).

(** [time.sleep(secs)] *)
Definition time_sleep (secs : Z) : M unit :=
  fun w =>
    if secs <? 0 then
      (Raise (Exn ValueError "sleep length must be non-negative"), w)
    else
      (Return tt,
       record (ESleep secs) (1000 * secs + Z.of_N (env_oversleep env (history w))) w).

Definition logging (lvl : level) (fmt : string) (args : list logarg) : M unit :=
  fun w => (Return tt, record (ELog lvl fmt args) 0 w).

Definition setup_logging (verbose : bool) : M unit :=
  fun w => (Return tt, record (ELogSetup verbose) 0 w).

(** The integer of [uuid.uuid4()]: 128 random bits with the variant and
    the version 4 written over them. *)
Definition uuid4_int (r : N) : N :=
  let i := (r mod 2 ^ 128)%N in
  let i := N.ldiff i (N.shiftl 49152 48) in
  let i := N.lor i (N.shiftl 32768 48) in
  let i := N.ldiff i (N.shiftl 61440 64) in
  N.lor i (N.shiftl 4 76).

(** [uuid.uuid4().hex] *)
Definition uuid4_hex : M string :=
  fun w =>
    let r := env_random env (history w) in
    (Return (hex_fixed 32 (uuid4_int r)), record (EUuid r) 0 w).

(** [email.utils.formatdate(localtime=True)] *)
Definition formatdate : M string :=
  fun w =>
    let s := env_date env (history w) (now w) in
    (Return s, record (EDate s) 0 w).

(** *** The program *)

Definition parse_config (path : string) (selected_accounts : option (list string))
  : M (list AccountConfig) :=
  loaded <- load_yaml path ;;
  let data := py_or loaded (PDict []) in
  result <- lift (parse_document loaded selected_accounts) ;;
  redacted <- lift (redact_config data) ;;
  logging DEBUG "Loaded config: %s" [LVal redacted] ;;
  ret result.

Definition message_headers (from_addr to_addr : pyval) (subject now msg_id : string)
  : list string :=
  [ "From: " ++ py_str from_addr;
    "To: " ++ py_str to_addr;
    "Subject: " ++ subject;
    "Date: " ++ now;
    "Message-ID: " ++ msg_id;
    "MIME-Version: 1.0";
    "Content-Type: text/plain; charset=utf-8";
    "Content-Transfer-Encoding: 8bit" ].

Definition message_body (token now : string) : string :=
  "This is an automated E2E monitoring email." ++ LF
  ++ "Token: " ++ token ++ LF
  ++ "Time: " ++ now ++ LF.

Definition build_message (from_addr to_addr : pyval) (subject_prefix : string)
  : M (string * string * string) :=
  token <- uuid4_hex ;;
  let msg_id := "<" ++ token ++ "@e2e-monitor>" in
  let subject := subject_prefix ++ " token=" ++ token in
  now <- formatdate ;;
  let headers := message_headers from_addr to_addr subject now msg_id in
  let body := message_body token now in
  let raw := encode_utf8 (join CRLF headers ++ CRLF ++ CRLF ++ body) in
  ret (token, raw, msg_id).

Definition smtp_session (cfg : SMTPSettings) (raw_message : string) (starttls : bool)
  : M unit :=
  try_finally
    (call SmtpEhlo ;;
     (if starttls then call SmtpStartTLS ;; call SmtpEhlo else ret tt) ;;
     (if truthy (smtp_username cfg) && truthy (smtp_password cfg)
      then call (SmtpLogin (smtp_username cfg) (smtp_password cfg))
      else ret tt) ;;
     call (SmtpSendmail (from_addr cfg) [to_addr cfg] raw_message))
    (call SmtpQuit).

(** The latency is the difference of two readings of the clock, in whole
    milliseconds; the source computes it in floating point from
    [time.time()]. *)
Definition smtp_send (cfg : SMTPSettings) (raw_message : string) : M Z :=
  start <- time_time ;;
  call SslCreateDefaultContext ;;
  logging DEBUG "Preparing SMTP connection to %s:%s security=%s"
    [LStr (smtp_host cfg); LNum (smtp_port cfg); LStr (smtp_security cfg)] ;;
  (if String.eqb (smtp_security cfg) "ssl" then
     call (SmtpSSL (smtp_host cfg) (smtp_port cfg) (smtp_timeout cfg)) ;;
     smtp_session cfg raw_message false
   else
     call (SmtpPlain (smtp_host cfg) (smtp_port cfg) (smtp_timeout cfg)) ;;
     smtp_session cfg raw_message (String.eqb (smtp_security cfg) "starttls")) ;;
  stop <- time_time ;;
  ret (stop - start).

Definition imap_connect (cfg : IMAPSettings) : M unit :=
  logging DEBUG "Connecting IMAP to %s:%s security=%s"
    [LStr (imap_host cfg); LNum (imap_port cfg); LStr (imap_security cfg)] ;;
  (if String.eqb (imap_security cfg) "ssl" then
     call (ImapSSL (imap_host cfg) (imap_port cfg))
   else
     call (ImapPlain (imap_host cfg) (imap_port cfg)) ;;
     if String.eqb (imap_security cfg) "starttls" then
       call SslCreateDefaultContext ;; call ImapStartTLS
     else ret tt) ;;
  if truthy (imap_username cfg) && truthy (imap_password cfg)
  then call (ImapLogin (imap_username cfg) (imap_password cfg))
  else ret tt.

Definition criteria_list (token msg_id : string) : list string :=
  [ "(HEADER Message-ID " ++ dquote ++ msg_id ++ dquote ++ ")";
    "(SUBJECT " ++ dquote ++ token ++ dquote ++ ")";
    "(TEXT " ++ dquote ++ token ++ dquote ++ ")" ].

(** The [for crit in criteria_list] loop of [imap_search_for_token]. *)
Fixpoint search_criteria (crits : list string) : M (option string) :=
  match crits with
  | [] => ret None
  | crit :: rest =>
      '(typ, data) <- query (ImapSearch crit) ;;
      if String.eqb typ "OK" then
        match data with
        | [] => search_criteria rest
        | None :: _ => raise (no_attribute PNone "split")
        | Some d0 :: _ =>
            match rev (split_ws d0) with
            | [] => search_criteria rest
            | latest :: _ => ret (Some latest)
            end
        end
      else search_criteria rest
  end.

Definition imap_search_for_token (mailbox token msg_id : string) : M (option string) :=
  '(typ, _) <- query (ImapSelect mailbox false) ;;
  if negb (String.eqb typ "OK") then
    raise (Exn RuntimeError ("Failed to select mailbox " ++ mailbox ++ ": " ++ typ))
  else search_criteria (criteria_list token msg_id).

Definition imap_delete (mailbox msgid : string) : M unit :=
  call (ImapStore msgid "+FLAGS" ("(" ++ backslash ++ "Deleted)")) ;;
  call ImapExpunge.

Definition push_kuma (url : pyval) (status : string) (msg : option string)
    (ping_ms : option Z) : M unit :=
  let msg_param :=
    match msg with
    | Some m => if String.eqb m "" then [] else [("msg", substring 0 200 m)]
    | None => []
    end in
  let ping_param :=
    match ping_ms with
    | Some p => [("ping", dec_of_Z p)]
    | None => []
    end in
  let params := (("status", status) :: msg_param ++ ping_param)%list in
  try_except
    (call (HttpGet url params 10) ;;
     logging INFO "Reported to Uptime Kuma: %s status=%s" [LVal url; LStr status])
    any_exception
    (fun e => logging ERROR "Failed to push status to Uptime Kuma: %s" [LExn e]).

(** Truth value of an [Optional[bytes]] *)
Definition bytes_truthy (b : option string) : bool :=
  match b with
  | Some s => negb (String.eqb s "")
  | None => false
  end.

Definition outcome : Type := (bool * string * option Z)%type.

(** The [while time.time() < deadline] loop of [run_for_account].  Each
    turn of the loop uses one unit of fuel; [found_id] is the variable of
    that name. *)
Fixpoint poll_loop (fuel : nat) (acct : AccountConfig) (token msg_id : string)
    (deadline : Z) (found_id : option string) : M (option string) :=
  t <- time_time ;;
  if t <? deadline then
    match fuel with
    | O => out_of_fuel
    | S fuel' =>
        '(found_id', stop) <-
          try_except
            (f <- imap_search_for_token (mailbox (imap acct)) token msg_id ;;
             ret (f, bytes_truthy f))
            any_exception
            (fun e =>
               logging DEBUG "%s: search transient error: %s"
                 [LStr (name acct); LExn e] ;;
               ret (found_id, false)) ;;
        if (stop : bool) then ret found_id'
        else
          time_sleep (interval_seconds (poll acct)) ;;
          poll_loop fuel' acct token msg_id deadline found_id'
    end
  else ret found_id.

Definition missing_field (acct : AccountConfig) (field_name : string) : exn :=
  Exn ValueError
    ("Account " ++ name acct ++ ": missing required field " ++ field_name).

Definition check_fields (acct : AccountConfig) : M unit :=
  if negb (truthy (from_addr (smtp acct))) then raise (missing_field acct "smtp.from")
  else if negb (truthy (to_addr (smtp acct))) then raise (missing_field acct "smtp.to")
  else if String.eqb (smtp_host (smtp acct)) "" then raise (missing_field acct "smtp.host")
  else if String.eqb (imap_host (imap acct)) "" then raise (missing_field acct "imap.host")
  else ret tt.

(** What [run_for_account] does once the mailbox session is open, up to
    the [finally] clause. *)
Definition poll_and_clean (fuel : nat) (acct : AccountConfig) (token msg_id : string)
    (deadline : Z) (smtp_ms : Z) : M outcome :=
  found_id <- poll_loop fuel acct token msg_id deadline None ;;
  match found_id with
  | Some id =>
      if String.eqb id "" then
        logging ERROR "%s: Message not found within timeout (token=%s)"
          [LStr (name acct); LStr token] ;;
        ret (false, "IMAP timeout: message not found", Some smtp_ms)
      else
        (if delete_on_success acct then
           try_except
             (imap_delete (mailbox (imap acct)) id)
             any_exception
             (fun e =>
                logging WARNING "%s: Could not delete message id %s: %s"
                  [LStr (name acct); LBytes found_id; LExn e])
         else ret tt) ;;
        logging INFO "%s: End-to-end success (token=%s)"
          [LStr (name acct); LStr token] ;;
        ret (true, "OK", Some smtp_ms)
  | None =>
      logging ERROR "%s: Message not found within timeout (token=%s)"
        [LStr (name acct); LStr token] ;;
      ret (false, "IMAP timeout: message not found", Some smtp_ms)
  end.

Definition run_for_account (fuel : nat) (acct : AccountConfig) : M outcome :=
  check_fields acct ;;
  '(token, raw, msg_id) <-
    build_message (from_addr (smtp acct)) (to_addr (smtp acct)) "Stalwart E2E Monitor" ;;
  sent <-
    try_except
      (smtp_ms <- smtp_send (smtp acct) raw ;;
       logging INFO "%s: SMTP sent ok (%.0f ms) token=%s"
         [LStr (name acct); LNum smtp_ms; LStr token] ;;
       ret (inr smtp_ms))
      is_smtp_or_socket_error
      (fun e =>
         logging ERROR "%s: SMTP send failed: %s" [LStr (name acct); LExn e] ;;
         ret (inl (false,
                   "SMTP failed: " ++ class_name (exn_cls e) ++ ": " ++ exn_msg e,
                   @None Z))) ;;
  match sent with
  | inl failed => ret failed
  | inr smtp_ms =>
      t <- time_time ;;
      let deadline := t + 1000 * timeout_seconds (poll acct) in
      connected <-
        try_except
          (imap_connect (imap acct) ;; ret None)
          any_exception
          (fun e =>
             logging ERROR "%s: IMAP connect/login failed: %s"
               [LStr (name acct); LExn e] ;;
             ret (Some (false,
                        "IMAP connect failed: " ++ class_name (exn_cls e) ++ ": "
                          ++ exn_msg e,
                        Some smtp_ms))) ;;
      match connected with
      | Some failed => ret failed
      | None =>
          try_finally
            (poll_and_clean fuel acct token msg_id deadline smtp_ms)
            (try_except (call ImapLogout) any_exception (fun _ => ret tt))
      end
  end.

(** The [for acct in accounts] loop of [main]. *)
Fixpoint run_accounts (fuel : nat) (accounts : list AccountConfig) (overall_ok : bool)
  : M bool :=
  match accounts with
  | [] => ret overall_ok
  | acct :: rest =>
      logging INFO "Running monitor for account: %s" [LStr (name acct)] ;;
      '(ok, msg, ping_ms) <- run_for_account fuel acct ;;
      let overall_ok := overall_ok && ok in
      (if truthy (push_url (kuma acct)) then
         try_except
           (push_kuma (push_url (kuma acct)) (if ok then "up" else "down")
              (Some msg) ping_ms)
           any_exception
           (fun _ => ret tt)
       else ret tt) ;;
      (if negb ok then
         logging WARNING "Account %s failed: %s" [LStr (name acct); LStr msg]
       else ret tt) ;;
      run_accounts fuel rest overall_ok
  end.

(** [main] after the command line is parsed: [config] is [args.config],
    [account] is [args.account], [verbose] is [args.verbose]. *)
Definition main (fuel : nat) (config : string) (account : option (list string))
    (verbose : bool) : M Z :=
  setup_logging verbose ;;
  parsed <-
    try_except
      (accounts <- parse_config config account ;; ret (Some accounts))
      any_exception
      (fun e => logging ERROR "Config error: %s" [LExn e] ;; ret None) ;;
  match parsed with
  | None => ret 2
  | Some accounts =>
      overall_ok <- run_accounts fuel accounts true ;;
      ret (if (overall_ok : bool) then 0 else 1)
  end.

End Program.

(** [sys.exit(main())]: the status of the process.  An exception that
    leaves [main] ends the interpreter with status 1. *)
Definition exit_status (r : result Z) : option Z :=
  match r with
  | Return n => Some n
  | Raise _ => Some 1
  | OutOfFuel => None
  end.

(** ** Vocabulary of the properties *)

(** [k.lower() in {"password", "pass", "secret", "token", "push_key"}] for
    a string key *)
Definition sensitive (k : pykey) : bool :=
  match k with
  | KStr s => str_in (lower s) sensitive_keys
  | _ => false
  end.

Definition is_str_key (k : pykey) : bool :=
  match k with KStr _ => true | _ => false end.

(** Every key of every dictionary inside [v] is a string. *)
Fixpoint string_keys (v : pyval) : bool :=
  match v with
  | PList l => forallb string_keys l
  | PDict d => forallb (fun kv => is_str_key (fst kv) && string_keys (snd kv)) d
  | _ => true
  end.

Fixpoint fresh_key (k : pykey) (d : pydict) : bool :=
  match d with
  | [] => true
  | (k', _) :: r => negb (key_eqb k' k) && fresh_key k r
  end.

Fixpoint distinct_keys (d : pydict) : bool :=
  match d with
  | [] => true
  | (k, _) :: r => fresh_key k r && distinct_keys r
  end.

(** The invariant of the representation of dictionaries: no dictionary
    inside [v] lists a key twice. *)
Fixpoint well_formed (v : pyval) : bool :=
  match v with
  | PList l => forallb well_formed l
  | PDict d =>
      distinct_keys d && forallb (fun kv => well_formed (snd kv)) d
  | _ => true
  end.

(** A place inside a value: a chain of dictionary keys and list indices. *)
Inductive step : Type :=
  | Key (k : pykey)
  | Index (i : nat).

Fixpoint lookup_path (p : list step) (v : pyval) : option pyval :=
  match p with
  | [] => Some v
  | Key k :: q =>
      match v with
      | PDict d =>
          match dict_find d k with
          | Some x => lookup_path q x
          | None => None
          end
      | _ => None
      end
  | Index i :: q =>
      match v with
      | PList l =>
          match nth_error l i with
          | Some x => lookup_path q x
          | None => None
          end
      | _ => None
      end
  end.

(** No step of the path is a sensitive key. *)
Definition clear_step (s : step) : bool :=
  match s with
  | Key k => negb (sensitive k)
  | Index _ => true
  end.

Definition clear_path (p : list step) : bool := forallb clear_step p.

Definition key_same (a b : pykey) : bool :=
  match a, b with
  | KNone, KNone => true
  | KBool x, KBool y => Bool.eqb x y
  | KInt x, KInt y => x =? y
  | KStr x, KStr y => String.eqb x y
  | _, _ => false
  end.

(** The two values have the same shape, keys and scalars, except under
    sensitive keys, where they may hold anything. *)
Fixpoint same_up_to_secrets (a b : pyval) {struct a} : bool :=
  match a, b with
  | PNone, PNone => true
  | PBool x, PBool y => Bool.eqb x y
  | PInt x, PInt y => x =? y
  | PStr x, PStr y => String.eqb x y
  | PList la, PList lb =>
      (fix all2 (la lb : list pyval) : bool :=
         match la, lb with
         | [], [] => true
         | x :: ra, y :: rb => same_up_to_secrets x y && all2 ra rb
         | _, _ => false
         end) la lb
  | PDict da, PDict db =>
      (fix all2 (da db : pydict) : bool :=
         match da, db with
         | [], [] => true
         | (k, x) :: ra, (k', y) :: rb =>
             key_same k k' && (sensitive k || same_up_to_secrets x y) && all2 ra rb
         | _, _ => false
         end) da db
  | _, _ => false
  end.

(** The two inner loops of [redact_config], by name. *)
Definition redact_items : pydict -> pydict -> result pydict :=
  fix items (d : pydict) (redacted : pydict) : result pydict :=
    match d with
    | [] => Return redacted
    | (k, v) :: rest =>
        match k with
        | KStr s =>
            if str_in (lower s) sensitive_keys
            then items rest (dict_set redacted k (PStr REDACTED))
            else (let? v' := redact_config v in
                  items rest (dict_set redacted k v'))
        | _ => Raise (no_attribute (key_to_val k) "lower")
        end
    end.

Definition redact_each : list pyval -> result (list pyval) :=
  fix each (l : list pyval) : result (list pyval) :=
    match l with
    | [] => Return []
    | x :: r =>
        let? x' := redact_config x in
        let? r' := each r in
        Return (x' :: r')
    end.

(** What redaction does to one item of a dictionary. *)
Definition redacted_entry (kv kv' : pykey * pyval) : Prop :=
  fst kv' = fst kv
  /\ (if sensitive (fst kv) then snd kv' = PStr REDACTED
      else redact_config (snd kv) = Return (snd kv')).

(** A small configuration with a secret at depth three. *)
Definition sample_config : pyval :=
  PDict [(KStr "accounts",
          PList [PDict [(KStr "name", PStr "A");
                        (KStr "imap", PDict [(KStr "host", PStr "mx.example");
                                             (KStr "Password", PStr "hunter2")])]])].

(** [needle in hay] *)
Definition occurs_in (needle hay : string) : Prop :=
  exists pre post, hay = pre ++ needle ++ post.

Definition is_hex_char (c : ascii) : bool :=
  let n := code c in
  (((48 <=? n) && (n <=? 57)) || ((97 <=? n) && (n <=? 102)))%N.

Fixpoint hex_string (s : string) : bool :=
  match s with
  | EmptyString => true
  | String c r => is_hex_char c && hex_string r
  end.

(** The bytes are plain ASCII. *)
Fixpoint ascii_only (s : string) : bool :=
  match s with
  | EmptyString => true
  | String c r => (code c <? 128)%N && ascii_only r
  end.



(** *** Sample environments and accounts *)

Definition start : World := {| now := 0; history := [] |}.

(** A mailbox that answers every SEARCH by [reply], instantly, in a world
    where every other call succeeds instantly. *)
Definition mailbox_env (reply : list event -> string -> exn + imap_resp) : Env :=
  {| env_call := fun _ _ => (None, 0%N);
     env_query := fun h q =>
       match q with
       | ImapSelect _ _ => (inr ("OK", [Some "1"]), 0%N)
       | ImapSearch crit => (reply h crit, 0%N)
       end;
     env_load := fun _ _ => inr PNone;
     env_random := fun _ => 0%N;
     env_date := fun _ _ => "Wed, 04 Nov 2026 08:35:00 +0100";
     env_oversleep := fun _ => 0%N |}.

(** Every strategy finds something: the header search messages 4 and 9,
    the others older messages. *)
Definition all_match_env : Env :=
  mailbox_env (fun _ crit =>
    inr ("OK", [Some (if prefix "(HEADER" crit then "4 9"
                      else if prefix "(SUBJECT" crit then "1 2"
                      else "7")])).

(** *** Traces *)

(** Whatever the world, running [m] only appends events that satisfy [P]
    to the history, and the clock does not go back. *)
Definition emits {A : Type} (P : event -> Prop) (m : M A) : Prop :=
  forall w,
  exists evs,
    history (snd (m w)) = (history w ++ evs)%list
    /\ Forall P evs
    /\ now w <= now (snd (m w)).



(** The events of an account's pipeline: everything but logging and
    reading the configuration. *)
Definition is_pipeline_event (ev : event) : bool :=
  match ev with
  | ELog _ _ _ | ELogSetup _ | ELoad _ _ => false
  | _ => true
  end.

Definition is_search (ev : event) : bool :=
  match ev with
  | EQuery (ImapSearch _) _ => true
  | _ => false
  end.

(** A poll attempt starts with a SELECT. *)
Definition is_attempt (ev : event) : bool :=
  match ev with
  | EQuery (ImapSelect _ _) _ => true
  | _ => false
  end.

Definition attempts (evs : list event) : nat :=
  List.length (filter is_attempt evs).

(** [run_for_account] up to the opening of the mailbox session: either
    the outcome of an early exit, or the token, the Message-ID, the poll
    deadline and the send latency. *)
Definition open_session (env : Env) (acct : AccountConfig)
  : M (outcome + (string * string * Z * Z)) :=
  check_fields acct ;;
  '(token, raw, msg_id) <-
    build_message env (from_addr (smtp acct)) (to_addr (smtp acct))
      "Stalwart E2E Monitor" ;;
  sent <-
    try_except
      (smtp_ms <- smtp_send env (smtp acct) raw ;;
       logging INFO "%s: SMTP sent ok (%.0f ms) token=%s"
         [LStr (name acct); LNum smtp_ms; LStr token] ;;
       ret (inr smtp_ms))
      is_smtp_or_socket_error
      (fun e =>
         logging ERROR "%s: SMTP send failed: %s" [LStr (name acct); LExn e] ;;
         ret (inl (false,
                   "SMTP failed: " ++ class_name (exn_cls e) ++ ": " ++ exn_msg e,
                   @None Z))) ;;
  match sent with
  | inl failed => ret (inl failed)
  | inr smtp_ms =>
      t <- time_time ;;
      let deadline := t + 1000 * timeout_seconds (poll acct) in
      connected <-
        try_except
          (imap_connect env (imap acct) ;; ret None)
          any_exception
          (fun e =>
             logging ERROR "%s: IMAP connect/login failed: %s"
               [LStr (name acct); LExn e] ;;
             ret (Some (false,
                        "IMAP connect failed: " ++ class_name (exn_cls e) ++ ": "
                          ++ exn_msg e,
                        Some smtp_ms))) ;;
      match connected with
      | Some failed => ret (inl failed)
      | None => ret (inr (token, msg_id, deadline, smtp_ms))
      end
  end.

(** The [finally] clause of [run_for_account]. *)
Definition logout (env : Env) : M unit :=
  try_except (call env ImapLogout) any_exception (fun _ => ret tt).

Definition sample_smtp : SMTPSettings :=
  {| smtp_host := "mx.example.org"; smtp_port := 465; smtp_security := "ssl";
     smtp_username := PStr "probe"; smtp_password := PStr "hunter2";
     from_addr := PStr "probe@example.org"; to_addr := PStr "probe@example.org";
     smtp_timeout := 30 |}.

Definition sample_imap : IMAPSettings :=
  {| imap_host := "mx.example.org"; imap_port := 993; imap_security := "ssl";
     imap_username := PStr "probe"; imap_password := PStr "hunter2";
     mailbox := "INBOX"; imap_timeout := 30 |}.

(** An account polled for 10 seconds every 5 seconds. *)
Definition sample_account (account_name : string) : AccountConfig :=
  {| name := account_name; smtp := sample_smtp; imap := sample_imap;
     poll := {| timeout_seconds := 10; interval_seconds := 5 |};
     delete_on_success := true; kuma := {| push_url := PNone |} |}.

Definition auth_error : exn :=
  Exn (SMTPClass "SMTPAuthenticationError") "(535, b'5.7.8 Authentication failed')".

(** The submission server rejects the login; everything else works. *)
Definition auth_reject_env : Env :=
  {| env_call := fun _ c =>
       match c with
       | SmtpLogin _ _ => (Some auth_error, 0%N)
       | _ => (None, 0%N)
       end;
     env_query := fun _ _ => (inr ("OK", [Some ""]), 0%N);
     env_load := fun _ _ => inr PNone;
     env_random := fun _ => 0%N;
     env_date := fun _ _ => "Wed, 04 Nov 2026 08:35:00 +0100";
     env_oversleep := fun _ => 0%N |}.

Definition any_event (ev : event) : Prop := True.

Definition store_error : exn :=
  Exn (OtherClass "error") "STORE command error: BAD [b'mailbox is read-only']".

(** The probe is found by the first search, as message 7, and the mailbox
    refuses STORE. *)
Definition store_fails_env : Env :=
  {| env_call := fun _ c =>
       match c with
       | ImapStore _ _ _ => (Some store_error, 0%N)
       | _ => (None, 0%N)
       end;
     env_query := fun _ q =>
       match q with
       | ImapSelect _ _ => (inr ("OK", [Some "7"]), 0%N)
       | ImapSearch _ => (inr ("OK", [Some "3 7"]), 0%N)
       end;
     env_load := fun _ _ => inr PNone;
     env_random := fun _ => 0%N;
     env_date := fun _ _ => "Wed, 04 Nov 2026 08:35:00 +0100";
     env_oversleep := fun _ => 0%N |}.

Definition timeout_error : exn := Exn (OSClass "timeout") "timed out".

(** The first SELECT times out, the second attempt finds the probe as
    message 7. *)
Definition flaky_env : Env :=
  {| env_call := fun _ _ => (None, 0%N);
     env_query := fun h q =>
       match q with
       | ImapSelect _ _ =>
           if existsb is_attempt h then (inr ("OK", [Some "7"]), 0%N)
           else (inl timeout_error, 0%N)
       | ImapSearch _ => (inr ("OK", [Some "3 7"]), 0%N)
       end;
     env_load := fun _ _ => inr PNone;
     env_random := fun _ => 0%N;
     env_date := fun _ _ => "Wed, 04 Nov 2026 08:35:00 +0100";
     env_oversleep := fun _ => 0%N |}.



(** The mailbox never has the probe and answers at once. *)
Definition empty_mailbox_env : Env :=
  mailbox_env (fun _ _ => inr ("OK", [Some ""])).


(** *** The run over all accounts *)

Definition success (o : outcome) : bool := fst (fst o).

(** What [main] does with the outcome of one account: the push to Uptime
    Kuma, when a URL is configured, and the warning for a failure. *)
Definition report (env : Env) (acct : AccountConfig) (o : outcome) : M unit :=
  let '(ok, msg, ping_ms) := o in
  (if truthy (push_url (kuma acct)) then
     try_except
       (push_kuma env (push_url (kuma acct)) (if ok then "up" else "down")
          (Some msg) ping_ms)
       any_exception
       (fun _ => ret tt)
   else ret tt) ;;
  (if negb ok then
     logging WARNING "Account %s failed: %s" [LStr (name acct); LStr msg]
   else ret tt).

(** The accounts probed one after the other, as [main] does, keeping the
    outcome of each: the list that the exit code summarises. *)
Fixpoint probe_all (env : Env) (fuel : nat) (accounts : list AccountConfig)
  : M (list outcome) :=
  match accounts with
  | [] => ret []
  | acct :: rest =>
      logging INFO "Running monitor for account: %s" [LStr (name acct)] ;;
      o <- run_for_account env fuel acct ;;
      report env acct o ;;
      os <- probe_all env fuel rest ;;
      ret (o :: os)
  end.

(** *** Sample configurations *)

(** The environment [env] where the configuration file holds [cfg]. *)
Definition with_config (cfg : pyval) (env : Env) : Env :=
  {| env_call := env_call env;
     env_query := env_query env;
     env_load := fun _ _ => inr cfg;
     env_random := env_random env;
     env_date := env_date env;
     env_oversleep := env_oversleep env |}.

(** One entry of [accounts]; [smtp_items] are the items of its [smtp]
    mapping. *)
Definition account_entry (account_name : string) (smtp_items : pydict) : pyval :=
  PDict [(KStr "name", PStr account_name);
         (KStr "smtp", PDict smtp_items);
         (KStr "imap", PDict [(KStr "host", PStr "mx.example.org")])].

Definition complete_smtp : pydict :=
  [(KStr "host", PStr "mx.example.org");
   (KStr "from", PStr "probe@example.org");
   (KStr "to", PStr "probe@example.org")].

(** The same without the sender address. *)
Definition smtp_without_from : pydict :=
  [(KStr "host", PStr "mx.example.org");
   (KStr "to", PStr "probe@example.org")].

(** The same without the host. *)
Definition smtp_without_host : pydict :=
  [(KStr "from", PStr "probe@example.org");
   (KStr "to", PStr "probe@example.org")].

(** Account A is complete, account B has no sender address. *)
Definition sender_missing_config : pyval :=
  PDict [(KStr "accounts",
          PList [account_entry "A" complete_smtp;
                 account_entry "B" smtp_without_from])].

(** Account B, without sender address, comes first. *)
Definition sender_missing_first_config : pyval :=
  PDict [(KStr "accounts",
          PList [account_entry "B" smtp_without_from;
                 account_entry "A" complete_smtp])].

(** A complete account, and a top-level mapping key that is not a
    string: the YAML line [25: smtp]. *)
Definition int_key_config : pyval :=
  PDict [(KStr "accounts", PList [account_entry "A" complete_smtp]);
         (KInt 25, PStr "smtp")].

(** The only account has no smtp host. *)
Definition host_missing_config : pyval :=
  PDict [(KStr "accounts", PList [account_entry "A" smtp_without_host])].

(** The host of the only account is the empty string. *)
Definition host_empty_config : pyval :=
  PDict [(KStr "accounts",
          PList [account_entry "A" ((KStr "host", PStr "") :: smtp_without_host)])].

Definition unknown_host_error : exn :=
  Exn (OSClass "gaierror") "[Errno -2] Name or service not known".

(** A working mail server found under every name but ["None"]; the probe
    is found by the first search. *)
Definition working_env : Env :=
  {| env_call := fun _ c =>
       match c with
       | SmtpSSL host _ _ =>
           if String.eqb host "None" then (Some unknown_host_error, 0%N)
           else (None, 0%N)
       | _ => (None, 0%N)
       end;
     env_query := fun _ q =>
       match q with
       | ImapSelect _ _ => (inr ("OK", [Some "7"]), 0%N)
       | ImapSearch _ => (inr ("OK", [Some "3 7"]), 0%N)
       end;
     env_load := fun _ _ => inr PNone;
     env_random := fun _ => 0%N;
     env_date := fun _ _ => "Wed, 04 Nov 2026 08:35:00 +0100";
     env_oversleep := fun _ => 0%N |}.

(** The hosts of the account are not empty. *)
Definition has_hosts (acct : AccountConfig) : Prop :=
  smtp_host (smtp acct) <> "" /\ imap_host (imap acct) <> "".

Definition is_sendmail (ev : event) : bool :=
  match ev with
  | ECall (SmtpSendmail _ _ _) _ => true
  | _ => false
  end.

Definition not_pipeline (ev : event) : Prop := is_pipeline_event ev = false.

(** [main] announces the account of that name. *)
Definition starts_account (account_name : string) (ev : event) : bool :=
  match ev with
  | ELog INFO "Running monitor for account: %s" [LStr n] => String.eqb n account_name
  | _ => false
  end.

(** The value configured under [section.host] in the merged entry of an
    account, [None] when there is none. *)
Definition configured_host (section : string) (merged : pyval) : result pyval :=
  let? d := py_get merged section PNone in
  py_get (py_or d (PDict [])) "host" PNone.

(** The document has a selected account whose smtp host or imap host,
    after the defaults are merged in, is the empty string. *)
Definition has_empty_host (loaded : pyval) (selected_accounts : option (list string))
  : Prop :=
  exists defaults accounts raws raw merged,
    py_get (py_or loaded (PDict [])) "defaults" (PDict []) = Return defaults
    /\ py_get (py_or loaded (PDict [])) "accounts" (PList []) = Return accounts
    /\ py_iter accounts = Return raws
    /\ In raw raws
    /\ skipped selected_accounts raw = Return false
    /\ deep_merge defaults raw = Return merged
    /\ (configured_host "smtp" merged = Return (PStr "")
        \/ configured_host "imap" merged = Return (PStr "")).

(** *** Exceptions that can leave a computation *)

(** Every exception that [m] can raise satisfies [P]. *)
Definition raises_only {A : Type} (P : exn -> Prop) (m : M A) : Prop :=
  forall w e, fst (m w) = Raise e -> P e.





(** ** Further vocabulary *)

(** The loop of [deep_merge] over the items of [b], by name. *)
Definition merge_items : pydict -> pydict -> result pydict :=
  fix loop (items : pydict) (out : pydict) : result pydict :=
    match items with
    | [] => Return out
    | (k, v) :: rest =>
        match v, dict_find out k with
        | PDict _, Some (PDict od) =>
            let? m := deep_merge (PDict od) v in
            loop rest (dict_set out k m)
        | _, _ => loop rest (dict_set out k v)
        end
    end.

(** An account entry that overrides the port of the defaults and adds a
    sender, and the defaults it is merged into. *)
Definition sample_defaults : pydict :=
  [(KStr "smtp", PDict [(KStr "host", PStr "mx.example.org");
                        (KStr "port", PInt 465)]);
   (KStr "delete_on_success", PBool false)].

Definition sample_override : pydict :=
  [(KStr "name", PStr "A");
   (KStr "smtp", PDict [(KStr "port", PInt 587);
                        (KStr "from", PStr "probe@example.org")])].

(** The calls that remove a message from the mailbox: STORE and EXPUNGE. *)
Definition is_delete_event (ev : event) : bool :=
  match ev with
  | ECall (ImapStore _ _ _) _ | ECall ImapExpunge _ => true
  | _ => false
  end.

Definition keeps_mail (ev : event) : Prop := is_delete_event ev = false.

Definition is_logout (ev : event) : bool :=
  match ev with
  | ECall ImapLogout _ => true
  | _ => false
  end.

Definition not_logout (ev : event) : Prop := is_logout ev = false.

(** Neither a SELECT, nor a SEARCH, nor a LOGOUT. *)
Definition no_session (ev : event) : Prop :=
  is_attempt ev || is_search ev || is_logout ev = false.

Definition ran_out {A : Type} (r : result A) : bool :=
  match r with
  | OutOfFuel => true
  | _ => false
  end.

Definition connect_error : exn :=
  Exn (OSClass "ConnectionRefusedError") "[Errno 111] Connection refused".

(** The mailbox server refuses the connection; everything else works. *)
Definition imap_down_env : Env :=
  {| env_call := fun _ c =>
       match c with
       | ImapSSL _ _ => (Some connect_error, 0%N)
       | _ => (None, 0%N)
       end;
     env_query := fun _ _ => (inr ("OK", [Some "7"]), 0%N);
     env_load := fun _ _ => inr PNone;
     env_random := fun _ => 0%N;
     env_date := fun _ _ => "Wed, 04 Nov 2026 08:35:00 +0100";
     env_oversleep := fun _ => 0%N |}.

(** The sample account, with the probes left in the mailbox. *)
Definition keeping_account : AccountConfig :=
  {| name := "A"; smtp := sample_smtp; imap := sample_imap;
     poll := {| timeout_seconds := 10; interval_seconds := 5 |};
     delete_on_success := false; kuma := {| push_url := PNone |} |}.

(** The sample account, with no time to poll. *)
Definition impatient_account : AccountConfig :=
  {| name := "A"; smtp := sample_smtp; imap := sample_imap;
     poll := {| timeout_seconds := 0; interval_seconds := 5 |};
     delete_on_success := true; kuma := {| push_url := PNone |} |}.


(** The value of the parameter [key] of a request. *)
Fixpoint param (key : string) (params : list (string * string)) : option string :=
  match params with
  | [] => None
  | (k, v) :: rest => if String.eqb k key then Some v else param key rest
  end.

Definition is_push_call (c : io_call) : bool :=
  match c with
  | HttpGet _ _ _ => true
  | _ => false
  end.

(** The pushes to Uptime Kuma among the events, oldest first: the URL and
    the [status] parameter of each. *)
Definition pushes (evs : list event) : list (pyval * option string) :=
  flat_map (fun ev =>
              match ev with
              | ECall (HttpGet url params _) _ => [(url, param "status" params)]
              | _ => []
              end) evs.

Definition no_push (ev : event) : Prop := pushes [ev] = [].

(** One push for each account that has a push URL: ["up"] for a success,
    ["down"] for a failure. *)
Definition expected_pushes (accounts : list AccountConfig) (outs : list outcome)
  : list (pyval * option string) :=
  flat_map (fun ao =>
              if truthy (push_url (kuma (fst ao))) then
                [(push_url (kuma (fst ao)),
                  Some (if success (snd ao) then "up" else "down"))]
              else [])
    (combine accounts outs).

(** The sample account, reporting to Uptime Kuma. *)
Definition reporting_account (account_name : string) : AccountConfig :=
  {| name := account_name; smtp := sample_smtp; imap := sample_imap;
     poll := {| timeout_seconds := 10; interval_seconds := 5 |};
     delete_on_success := true;
     kuma := {| push_url := PStr "https://kuma.example.org/api/push/k3y" |} |}.

(** Over a trace: every event that [needs_tls] comes after an event that
    says [tls_up]; [secured] says whether one was seen already. *)
Fixpoint guarded_by (tls_up needs_tls : event -> bool) (secured : bool)
    (evs : list event) : bool :=
  match evs with
  | [] => true
  | ev :: rest =>
      if tls_up ev then guarded_by tls_up needs_tls true rest
      else if needs_tls ev then secured && guarded_by tls_up needs_tls secured rest
      else guarded_by tls_up needs_tls secured rest
  end.

(** STARTTLS succeeded on the submission connection. *)
Definition smtp_tls_up (ev : event) : bool :=
  match ev with
  | ECall SmtpStartTLS None => true
  | _ => false
  end.

(** The credentials or the mail go over the submission connection. *)
Definition smtp_payload (ev : event) : bool :=
  match ev with
  | ECall (SmtpLogin _ _) _ | ECall (SmtpSendmail _ _ _) _ => true
  | _ => false
  end.

(** STARTTLS succeeded on the mailbox connection. *)
Definition imap_tls_up (ev : event) : bool :=
  match ev with
  | ECall ImapStartTLS None => true
  | _ => false
  end.

Definition imap_login (ev : event) : bool :=
  match ev with
  | ECall (ImapLogin _ _) _ => true
  | _ => false
  end.

(** The submission server accepted the connection. *)
Definition smtp_connected (ev : event) : bool :=
  match ev with
  | ECall (SmtpSSL _ _ _) None | ECall (SmtpPlain _ _ _) None => true
  | _ => false
  end.

Definition ends_with_quit (evs : list event) : bool :=
  match rev evs with
  | ECall SmtpQuit _ :: _ => true
  | _ => false
  end.

(** The sample settings, with STARTTLS on the submission port. *)
Definition starttls_smtp : SMTPSettings :=
  {| smtp_host := "mx.example.org"; smtp_port := 587; smtp_security := "starttls";
     smtp_username := PStr "probe"; smtp_password := PStr "hunter2";
     from_addr := PStr "probe@example.org"; to_addr := PStr "probe@example.org";
     smtp_timeout := 30 |}.

Definition starttls_imap : IMAPSettings :=
  {| imap_host := "mx.example.org"; imap_port := 143; imap_security := "starttls";
     imap_username := PStr "probe"; imap_password := PStr "hunter2";
     mailbox := "INBOX"; imap_timeout := 30 |}.

(** The account is one that [--account] names; every account is, when no
    name was given. *)
Definition selected (selected_accounts : option (list string)) (a : AccountConfig)
  : bool :=
  match selected_accounts with
  | None | Some [] => true
  | Some sel => str_in (name a) sel
  end.

(** The outcomes that [run_for_account] can return: without a latency
    only for a failed send; with a latency for a success with the message
    ["OK"], a failed connection to the mailbox and a probe that was not
    found. *)
Definition well_shaped (o : outcome) : bool :=
  let '(ok, msg, ping_ms) := o in
  match ping_ms with
  | None => negb ok && prefix "SMTP failed: " msg
  | Some _ =>
      if ok then String.eqb msg "OK"
      else prefix "IMAP connect failed: " msg
           || String.eqb msg "IMAP timeout: message not found"
  end.

(** Running [m] ends: it returns or raises, whatever the world. *)
Definition completes {A : Type} (m : M A) : Prop :=
  forall w, ran_out (fst (m w)) = false.

(** The number of mails handed to the submission server. *)
Definition mails_sent (evs : list event) : nat :=
  List.length (filter is_sendmail evs).

(** Running [m] hands over at most [n] mails. *)
Definition sends_at_most {A : Type} (n : nat) (m : M A) : Prop :=
  forall w,
  exists evs,
    history (snd (m w)) = (history w ++ evs)%list
    /\ (mails_sent evs <= n)%nat.

Definition no_mail (ev : event) : Prop := is_sendmail ev = false.

(** *** Configurations and servers that the guards let through *)






(** *** The scan of the search strategies *)



(** *** The lines of a payload *)

Definition is_cr (c : ascii) : bool := (code c =? 13)%N.
Definition is_lf (c : ascii) : bool := (code c =? 10)%N.

(** Neither a carriage return nor a line feed. *)
Fixpoint one_line (s : string) : bool :=
  match s with
  | EmptyString => true
  | String c r => negb (is_cr c || is_lf c) && one_line r
  end.

Fixpoint no_cr (s : string) : bool :=
  match s with
  | EmptyString => true
  | String c r => negb (is_cr c) && no_cr r
  end.

(** The pieces of [s] between its CR LF pairs, as a mail server reads
    them; [cur] is the piece being read, in reverse. *)
Fixpoint lines_aux (s : string) (cur : list ascii) : list string :=
  match s with
  | EmptyString => [string_of_list_ascii (rev cur)]
  | String c r =>
      match r with
      | String d r' =>
          if is_cr c && is_lf d then
            string_of_list_ascii (rev cur) :: lines_aux r' []
          else lines_aux r (c :: cur)
      | EmptyString => [string_of_list_ascii (rev (c :: cur))]
      end
  end.

(** The lines before the first empty line. *)
Fixpoint header_block (ls : list string) : list string :=
  match ls with
  | [] => []
  | l :: rest => if String.eqb l "" then [] else l :: header_block rest
  end.

(** The lines after the first empty line. *)
Fixpoint after_blank (ls : list string) : list string :=
  match ls with
  | [] => []
  | l :: rest => if String.eqb l "" then rest else after_blank rest
  end.

(** The header block of a payload, line by line, and what follows its
    blank-line separator. *)
Definition header_lines (raw : string) : list string :=
  header_block (lines_aux raw []).

Definition body_lines (raw : string) : list string :=
  after_blank (lines_aux raw []).

(** [formatdate] writes the date on one line. *)
Definition dates_one_line (env : Env) : Prop :=
  forall h t, one_line (env_date env h t) = true.

(** A sender address that holds an empty line. *)
Definition two_line_sender : pyval :=
  PStr ("probe@example.org" ++ CRLF ++ CRLF ++ "Subject: hello").

(** The Message-ID and the subject searches find nothing, the full-text
    search finds the messages 3 and 7. *)
Definition text_only_env : Env :=
  mailbox_env (fun _ crit =>
    inr ("OK", [Some (if prefix "(TEXT" crit then "3 7" else "")])).

(** * Properties *)

(** ** Induction on Python values *)

Section PyvalInd.
Variable P : pyval -> Prop.
Hypothesis HNone : P PNone.
Hypothesis HBool : forall b, P (PBool b).
Hypothesis HInt : forall z, P (PInt z).
Hypothesis HStr : forall s, P (PStr s).
Hypothesis HList : forall l, Forall P l -> P (PList l).
Hypothesis HDict : forall d, Forall (fun kv => P (snd kv)) d -> P (PDict d).

Lemma pyval_nested_ind : forall v, P v.
Proof.
  fix IH 1. intros [ | b | z | s | l | d].
  - exact HNone.
  - apply HBool.
  - apply HInt.
  - apply HStr.
  - apply HList. induction l as [ | x l IHl]; constructor.
    + apply IH.
    + exact IHl.
  - apply HDict. induction d as [ | [k x] d IHd]; constructor.
    + apply IH.
    + exact IHd.
Qed.
End PyvalInd.

(** ** [redact_config] *)

Lemma redact_config_dict d :
  redact_config (PDict d) = (let? r := redact_items d [] in Return (PDict r)).
Proof. reflexivity. Qed.

Lemma redact_config_list l :
  redact_config (PList l) = (let? r := redact_each l in Return (PList r)).
Proof. reflexivity. Qed.

Lemma redact_items_cons k v rest acc :
  redact_items ((k, v) :: rest) acc =
  match k with
  | KStr s =>
      if str_in (lower s) sensitive_keys
      then redact_items rest (dict_set acc k (PStr REDACTED))
      else (let? v' := redact_config v in redact_items rest (dict_set acc k v'))
  | _ => Raise (no_attribute (key_to_val k) "lower")
  end.
Proof. reflexivity. Qed.

Lemma redact_each_cons x r :
  redact_each (x :: r) =
  (let? x' := redact_config x in let? r' := redact_each r in Return (x' :: r')).
Proof. reflexivity. Qed.

Lemma key_same_eq a b : key_same a b = true -> a = b.
Proof.
  destruct a, b; simpl; try discriminate; intros H; try reflexivity; f_equal.
  - now apply Bool.eqb_prop.
  - now apply Z.eqb_eq.
  - now apply String.eqb_eq.
Qed.

Lemma key_eqb_str s k : key_eqb (KStr s) k = true -> k = KStr s.
Proof.
  destruct k; simpl; try discriminate.
  intros H. apply String.eqb_eq in H. now subst.
Qed.

Lemma key_eqb_sym a b : key_eqb a b = key_eqb b a.
Proof.
  destruct a, b; simpl; try reflexivity;
    try apply Z.eqb_sym; try apply String.eqb_sym.
Qed.

(** Secrets do not flow into the result: two values that agree outside
    the sensitive entries have the same redaction, exception included. *)
Lemma redact_config_hides a :
  forall b, same_up_to_secrets a b = true -> redact_config a = redact_config b.
Proof.
  induction a as [ | x | x | x | la IH | da IH] using pyval_nested_ind;
    intros [ | y | y | y | lb | db]; simpl; try discriminate; intros H.
  - reflexivity.
  - apply Bool.eqb_prop in H. now subst.
  - apply Z.eqb_eq in H. now subst.
  - apply String.eqb_eq in H. now subst.
  - change (redact_config (PList la) = redact_config (PList lb)).
    rewrite !redact_config_list.
    assert (E : redact_each la = redact_each lb); [ | now rewrite E].
    revert lb H. induction IH as [ | x la Hx _ IHla]; intros [ | y lb] H;
      try discriminate; [reflexivity | ].
    apply andb_prop in H as [H1 H2].
    rewrite !redact_each_cons, (Hx _ H1), (IHla _ H2). reflexivity.
  - change (redact_config (PDict da) = redact_config (PDict db)).
    rewrite !redact_config_dict.
    assert (E : forall acc, redact_items da acc = redact_items db acc);
      [ | now rewrite E].
    revert db H. induction IH as [ | [k x] da Hx _ IHda]; intros [ | [k' y] db] H acc;
      try discriminate; [reflexivity | ].
    apply andb_prop in H as [H H3]. apply andb_prop in H as [H1 H2].
    apply key_same_eq in H1. subst k'.
    rewrite !redact_items_cons. destruct k as [ | ? | ? | s]; try reflexivity.
    unfold sensitive in H2. destruct (str_in (lower s) sensitive_keys).
    + apply IHda, H3.
    + rewrite orb_false_l in H2. simpl in Hx. rewrite (Hx _ H2).
      destruct (redact_config y); simpl; auto.
Qed.

Lemma dict_set_fresh acc k v :
  fresh_key k acc = true -> dict_set acc k v = (acc ++ [(k, v)])%list.
Proof.
  induction acc as [ | [k' v'] acc IH]; simpl; [reflexivity | ].
  intros H. apply andb_prop in H as [H1 H2].
  apply negb_true_iff in H1. rewrite H1, (IH H2). reflexivity.
Qed.

Lemma fresh_key_app k a b :
  fresh_key k (a ++ b)%list = fresh_key k a && fresh_key k b.
Proof.
  induction a as [ | [k' v'] a IH]; simpl; [reflexivity | ].
  rewrite IH, andb_assoc. reflexivity.
Qed.

(** On a dictionary with distinct string keys the loop of [redact_config]
    rewrites the items one by one, in place. *)
Lemma redact_items_entries d :
  forall acc,
    forallb (fun kv => is_str_key (fst kv)) d = true ->
    distinct_keys d = true ->
    Forall (fun kv => fresh_key (fst kv) acc = true) d ->
    Forall (fun kv => exists v', redact_config (snd kv) = Return v') d ->
    exists d', redact_items d acc = Return (acc ++ d')%list
               /\ Forall2 redacted_entry d d'.
Proof.
  induction d as [ | [k v] d IH]; intros acc Hs Hd Hf Hr.
  - exists []. rewrite app_nil_r. split; [reflexivity | constructor].
  - simpl in Hs, Hd. apply andb_prop in Hs as [Hk Hs].
    apply andb_prop in Hd as [Hkd Hd].
    inversion Hf as [ | ? ? Hfk Hf']; subst.
    inversion Hr as [ | ? ? [v' Hv] Hr']; subst. simpl in Hfk, Hv.
    destruct k as [ | ? | ? | s]; try discriminate.
    assert (Hnext : forall x, Forall (fun kv => fresh_key (fst kv) (acc ++ [(KStr s, x)])%list = true) d).
    { intros x. clear - Hf' Hkd. induction d as [ | [k' y] d IHd]; constructor.
      - inversion Hf' as [ | ? ? Hh Ht]; subst. cbn [fst] in *.
        rewrite fresh_key_app, Hh. cbn [fresh_key] in Hkd |- *.
        apply andb_prop in Hkd as [Hk1 _].
        rewrite key_eqb_sym, Hk1. reflexivity.
      - inversion Hf' as [ | ? ? Hh Ht]; subst. cbn [fresh_key] in Hkd.
        apply andb_prop in Hkd as [_ Hk2]. now apply IHd. }
    rewrite redact_items_cons.
    destruct (str_in (lower s) sensitive_keys) eqn:Hsens.
    + rewrite (dict_set_fresh _ _ _ Hfk).
      destruct (IH _ Hs Hd (Hnext (PStr REDACTED)) Hr') as [d' [E F]].
      exists ((KStr s, PStr REDACTED) :: d'). split.
      * rewrite E, <- app_assoc. reflexivity.
      * constructor; [ | exact F]. split; [reflexivity | ].
        cbn [fst snd sensitive]. rewrite Hsens. reflexivity.
    + rewrite Hv. simpl. rewrite (dict_set_fresh _ _ _ Hfk).
      destruct (IH _ Hs Hd (Hnext v') Hr') as [d' [E F]].
      exists ((KStr s, v') :: d'). split.
      * rewrite E, <- app_assoc. reflexivity.
      * constructor; [ | exact F]. split; [reflexivity | ].
        cbn [fst snd sensitive]. rewrite Hsens. exact Hv.
Qed.

Lemma redact_each_entries l :
  Forall (fun x => exists x', redact_config x = Return x') l ->
  exists l', redact_each l = Return l'
             /\ Forall2 (fun x x' => redact_config x = Return x') l l'.
Proof.
  induction 1 as [ | x l [x' Hx] _ [l' [E F]]].
  - exists []. split; [reflexivity | constructor].
  - exists (x' :: l'). rewrite redact_each_cons, Hx, E. split; [reflexivity | ].
    constructor; assumption.
Qed.

Lemma all_fresh_nil (d : pydict) :
  Forall (fun kv => fresh_key (fst kv) [] = true) d.
Proof. induction d; constructor; auto. Qed.

(** [redact_config] returns on every value whose keys are strings. *)
Lemma redact_config_total v :
  string_keys v = true -> well_formed v = true ->
  exists r, redact_config v = Return r.
Proof.
  induction v as [ | x | x | x | l IH | d IH] using pyval_nested_ind;
    intros Hs Hw; try (eexists; reflexivity).
  - simpl in Hs, Hw. rewrite redact_config_list.
    destruct (redact_each_entries l) as [l' [E _]].
    + rewrite forallb_forall in Hs, Hw. rewrite Forall_forall in IH |- *.
      intros x Hx. apply IH; auto.
    + rewrite E. eexists; reflexivity.
  - simpl in Hs, Hw. apply andb_prop in Hw as [Hd Hw].
    rewrite redact_config_dict.
    destruct (redact_items_entries d []) as [d' [E _]]; auto.
    + rewrite forallb_forall in Hs |- *. intros kv Hkv.
      apply Hs in Hkv. now apply andb_prop in Hkv as [? _].
    + apply all_fresh_nil.
    + rewrite forallb_forall in Hs, Hw. rewrite Forall_forall in IH |- *.
      intros kv Hkv. apply IH; auto.
      specialize (Hs _ Hkv). now apply andb_prop in Hs as [_ ?].
    + rewrite E. eexists; reflexivity.
Qed.

Lemma string_keys_item d k v :
  string_keys (PDict d) = true -> In (k, v) d ->
  is_str_key k = true /\ string_keys v = true.
Proof.
  simpl. rewrite forallb_forall. intros H Hin.
  apply H in Hin. now apply andb_prop in Hin.
Qed.

Lemma well_formed_item d k v :
  well_formed (PDict d) = true -> In (k, v) d -> well_formed v = true.
Proof.
  simpl. intros H Hin. apply andb_prop in H as [_ H].
  rewrite forallb_forall in H. now apply H in Hin.
Qed.

Lemma redact_config_dict_inv d r :
  string_keys (PDict d) = true -> well_formed (PDict d) = true ->
  redact_config (PDict d) = Return r ->
  exists d', r = PDict d' /\ Forall2 redacted_entry d d'.
Proof.
  intros Hs Hw E. rewrite redact_config_dict in E.
  destruct (redact_items_entries d []) as [d' [E' F]].
  - simpl in Hs. rewrite forallb_forall in Hs |- *. intros kv Hkv.
    apply Hs in Hkv. now apply andb_prop in Hkv as [? _].
  - simpl in Hw. now apply andb_prop in Hw as [? _].
  - apply all_fresh_nil.
  - rewrite Forall_forall. intros [k v] Hin. apply redact_config_total.
    + eapply string_keys_item; eauto.
    + eapply well_formed_item; eauto.
  - rewrite E' in E. simpl in E. injection E as <-. now exists d'.
Qed.

Lemma redact_config_list_inv l r :
  redact_config (PList l) = Return r ->
  exists l', r = PList l'
             /\ Forall2 (fun x x' => redact_config x = Return x') l l'.
Proof.
  rewrite redact_config_list. intros E.
  assert (H : exists l', redact_each l = Return l'
                         /\ Forall2 (fun x x' => redact_config x = Return x') l l').
  { destruct (redact_each l) as [l' | | ] eqn:El; try discriminate.
    exists l'. split; [reflexivity | ]. clear E.
    revert l' El. induction l as [ | x l IH]; intros l' El.
    - injection El as <-. constructor.
    - rewrite redact_each_cons in El.
      destruct (redact_config x) as [x' | | ] eqn:Ex; try discriminate.
      simpl in El. destruct (redact_each l) as [l0 | | ]; try discriminate.
      injection El as <-. constructor; auto. }
  destruct H as [l' [El F]]. rewrite El in E. injection E as <-. now exists l'.
Qed.

(** Looking a key up before and after the items were redacted. *)
Lemma dict_find_redacted d d' k :
  Forall2 redacted_entry d d' ->
  match dict_find d k with
  | None => dict_find d' k = None
  | Some v =>
      exists k0 v', In (k0, v) d /\ key_eqb k0 k = true
                    /\ dict_find d' k = Some v'
                    /\ (if sensitive k0 then v' = PStr REDACTED
                        else redact_config v = Return v')
  end.
Proof.
  induction 1 as [ | [k0 v] [k1 v1] d d' [Hk Hv] _ IH]; [reflexivity | ].
  simpl in Hk, Hv. subst k1. simpl.
  destruct (key_eqb k0 k) eqn:E.
  - exists k0, v1. auto.
  - destruct (dict_find d k) as [v0 | ]; [ | exact IH].
    destruct IH as [k2 [v2 [Hin H]]]. exists k2, v2. auto.
Qed.

Lemma nth_error_redacted l l' i :
  Forall2 (fun x x' => redact_config x = Return x') l l' ->
  match nth_error l i with
  | None => nth_error l' i = None
  | Some v => In v l /\ exists v', nth_error l' i = Some v'
                                   /\ redact_config v = Return v'
  end.
Proof.
  intros F. revert i. induction F as [ | x x' l l' Hx _ IH]; intros [ | i]; simpl; auto.
  - split; eauto.
  - specialize (IH i). destruct (nth_error l i); [ | exact IH].
    destruct IH as [Hin H]. auto.
Qed.

Lemma sensitive_eqb k0 k :
  is_str_key k0 = true -> key_eqb k0 k = true -> sensitive k0 = sensitive k.
Proof.
  destruct k0; try discriminate. intros _ H.
  apply key_eqb_str in H. now subst.
Qed.

(** Along a path without sensitive keys the redacted value has exactly
    the places of the original, each holding the redaction of what the
    original holds there. *)
Lemma redact_lookup p :
  forall obj r,
    string_keys obj = true -> well_formed obj = true ->
    redact_config obj = Return r -> clear_path p = true ->
    match lookup_path p obj with
    | Some v =>
        string_keys v = true /\ well_formed v = true
        /\ exists v', lookup_path p r = Some v' /\ redact_config v = Return v'
    | None => lookup_path p r = None
    end.
Proof.
  induction p as [ | [k | i] q IH]; intros obj r Hs Hw E Hc.
  - simpl. eauto.
  - simpl in Hc. apply andb_prop in Hc as [Hk Hq]. apply negb_true_iff in Hk.
    destruct obj as [ | b | z | s | l | d];
      try (simpl in E; injection E as <-; reflexivity).
    + apply redact_config_list_inv in E as [l' [-> _]]. reflexivity.
    + destruct (redact_config_dict_inv _ _ Hs Hw E) as [d' [-> F]].
      pose proof (dict_find_redacted d d' k F) as H. cbn [lookup_path].
      destruct (dict_find d k) as [v | ]; [ | now rewrite H].
      destruct H as [k0 [v' [Hin [Ek [Ef Hv]]]]]. rewrite Ef.
      destruct (string_keys_item _ _ _ Hs Hin) as [Hk0 Hsv].
      rewrite (sensitive_eqb _ _ Hk0 Ek), Hk in Hv.
      apply IH; auto. eapply well_formed_item; eauto.
  - simpl in Hc.
    destruct obj as [ | b | z | s | l | d];
      try (simpl in E; injection E as <-; reflexivity).
    + destruct (redact_config_list_inv _ _ E) as [l' [-> F]].
      pose proof (nth_error_redacted l l' i F) as H. cbn [lookup_path].
      destruct (nth_error l i) as [v | ]; [ | now rewrite H].
      destruct H as [Hin [v' [En Hv]]]. rewrite En.
      simpl in Hs, Hw. rewrite forallb_forall in Hs, Hw. apply IH; auto.
    + destruct (redact_config_dict_inv _ _ Hs Hw E) as [d' [-> _]]. reflexivity.
Qed.

Lemma lookup_path_app p q v :
  lookup_path (p ++ q)%list v =
  match lookup_path p v with
  | Some x => lookup_path q x
  | None => None
  end.
Proof.
  revert v. induction p as [ | [k | i] p IH]; intros v; simpl; [reflexivity | | ].
  - destruct v; try reflexivity. destruct (dict_find d k); auto.
  - destruct v; try reflexivity. destruct (nth_error l i); auto.
Qed.

Lemma Forall2_redacted_keys d d' :
  Forall2 redacted_entry d d' -> map fst d' = map fst d.
Proof.
  induction 1 as [ | kv kv' d d' [Hk _] _ IH]; simpl; [reflexivity | ].
  now rewrite Hk, IH.
Qed.

(** C10 fails as stated: [redact_config] calls [k.lower()] on every key it
    visits, so on a configuration with a mapping key that is not a string
    it raises [AttributeError] and returns no redacted copy at all. *)
Lemma redact_config_int_key :
  redact_config int_key_config
  = Raise (Exn AttributeError "'int' object has no attribute 'lower'")
  /\ forall r, redact_config int_key_config <> Return r.
Proof. split; [reflexivity | intros r H; discriminate H]. Qed.

(** C10 (amended): for every configuration object whose mapping keys are
    all strings, [redact_config] returns a value [r] in which every entry
    under a sensitive key (password, pass, secret, token, push_key, in any
    letter case), at any depth inside dictionaries and lists, holds
    ["***REDACTED***"], and every place reached without crossing a sensitive
    key is unchanged: a scalar is the same scalar, a list has the same
    length, a dictionary has the same keys in the same order, and no place
    is added.  Moreover every configuration that differs from [obj] only in
    the values under sensitive keys has the same redaction [r], which is
    what [parse_config] hands to the debug log. *)
Theorem redact_config_redacts obj :
  string_keys obj = true -> well_formed obj = true ->
  exists r,
    redact_config obj = Return r
    /\ (forall p k v,
          clear_path p = true -> sensitive k = true ->
          lookup_path (p ++ [Key k])%list obj = Some v ->
          lookup_path (p ++ [Key k])%list r = Some (PStr REDACTED))
    /\ (forall p v,
          clear_path p = true -> lookup_path p obj = Some v ->
          match v with
          | PList l =>
              exists l', lookup_path p r = Some (PList l') /\ List.length l' = List.length l
          | PDict d =>
              exists d', lookup_path p r = Some (PDict d') /\ map fst d' = map fst d
          | _ => lookup_path p r = Some v
          end)
    /\ (forall p, clear_path p = true -> lookup_path p obj = None ->
                  lookup_path p r = None)
    /\ (forall obj', same_up_to_secrets obj obj' = true ->
                     redact_config obj' = Return r).
Proof.
  intros Hs Hw. destruct (redact_config_total obj Hs Hw) as [r E].
  exists r. split; [exact E | ]. repeat split.
  - intros p k v Hc Hk Hl. rewrite lookup_path_app in Hl |- *.
    pose proof (redact_lookup p obj r Hs Hw E Hc) as H.
    destruct (lookup_path p obj) as [x | ]; [ | discriminate].
    destruct H as [Hsx [Hwx [x' [-> Ex]]]].
    destruct x as [ | | | | | d]; try discriminate.
    destruct (redact_config_dict_inv _ _ Hsx Hwx Ex) as [d' [-> F]].
    pose proof (dict_find_redacted d d' k F) as H. cbn [lookup_path] in Hl |- *.
    destruct (dict_find d k) as [y | ]; [ | discriminate].
    destruct H as [k0 [y' [Hin [Ek [-> Hy]]]]].
    destruct (string_keys_item _ _ _ Hsx Hin) as [Hk0 _].
    rewrite (sensitive_eqb _ _ Hk0 Ek), Hk in Hy. now subst.
  - intros p v Hc Hl.
    pose proof (redact_lookup p obj r Hs Hw E Hc) as H. rewrite Hl in H.
    destruct H as [Hsv [Hwv [v' [-> Ev]]]].
    destruct v as [ | b | z | s | l | d];
      try (simpl in Ev; injection Ev as <-; reflexivity).
    + destruct (redact_config_list_inv _ _ Ev) as [l' [-> F]].
      exists l'. split; [reflexivity | ]. symmetry. eapply Forall2_length; eauto.
    + destruct (redact_config_dict_inv _ _ Hsv Hwv Ev) as [d' [-> F]].
      exists d'. split; [reflexivity | ]. now apply Forall2_redacted_keys.
  - intros p Hc Hl.
    pose proof (redact_lookup p obj r Hs Hw E Hc) as H. now rewrite Hl in H.
  - intros obj' H. rewrite <- (redact_config_hides _ _ H). exact E.
Qed.

Lemma redact_config_redacts_witness :
  exists r,
    redact_config sample_config = Return r
    /\ (forall p k v,
          clear_path p = true -> sensitive k = true ->
          lookup_path (p ++ [Key k])%list sample_config = Some v ->
          lookup_path (p ++ [Key k])%list r = Some (PStr REDACTED))
    /\ (forall p v,
          clear_path p = true -> lookup_path p sample_config = Some v ->
          match v with
          | PList l =>
              exists l', lookup_path p r = Some (PList l') /\ List.length l' = List.length l
          | PDict d =>
              exists d', lookup_path p r = Some (PDict d') /\ map fst d' = map fst d
          | _ => lookup_path p r = Some v
          end)
    /\ (forall p, clear_path p = true -> lookup_path p sample_config = None ->
                  lookup_path p r = None)
    /\ (forall obj', same_up_to_secrets sample_config obj' = true ->
                     redact_config obj' = Return r).
Proof. apply (redact_config_redacts sample_config); reflexivity. Defined.

(** The redacted sample: the password at depth three is gone, the rest
    stands. *)
Example redact_sample :
  redact_config sample_config
  = Return
      (PDict [(KStr "accounts",
               PList [PDict [(KStr "name", PStr "A");
                             (KStr "imap",
                              PDict [(KStr "host", PStr "mx.example");
                                     (KStr "Password", PStr REDACTED)])]])]).
Proof. reflexivity. Qed.

(** ** [build_message] *)

Lemma append_assoc (a b c : string) : (a ++ b) ++ c = a ++ b ++ c.
Proof. induction a as [ | x a IH]; simpl; [reflexivity | now rewrite IH]. Qed.

Lemma append_nil_r (a : string) : a ++ "" = a.
Proof. induction a as [ | x a IH]; simpl; [reflexivity | now rewrite IH]. Qed.

Lemma length_append (a b : string) :
  String.length (a ++ b) = (String.length a + String.length b)%nat.
Proof. induction a as [ | x a IH]; simpl; [reflexivity | now rewrite IH]. Qed.

Lemma hex_string_append a b :
  hex_string (a ++ b) = hex_string a && hex_string b.
Proof.
  induction a as [ | x a IH]; simpl; [reflexivity | ].
  now rewrite IH, andb_assoc.
Qed.

Lemma hex_digit_is_hex n : (n < 16)%N -> is_hex_char (hex_digit n) = true.
Proof.
  intros H. destruct n as [ | p]; [reflexivity | ].
  do 4 (destruct p as [p | p | ]; try reflexivity); exfalso; lia.
Qed.

Lemma hex_fixed_length w : forall n, String.length (hex_fixed w n) = w.
Proof.
  induction w as [ | w IH]; intros n; simpl; [reflexivity | ].
  rewrite length_append, IH. simpl. lia.
Qed.

Lemma hex_fixed_hex w : forall n, hex_string (hex_fixed w n) = true.
Proof.
  induction w as [ | w IH]; intros n; simpl; [reflexivity | ].
  rewrite hex_string_append, IH. simpl.
  rewrite hex_digit_is_hex; [reflexivity | ]. apply N.mod_lt. discriminate.
Qed.

Lemma hex_string_ascii s : hex_string s = true -> ascii_only s = true.
Proof.
  induction s as [ | c s IH]; simpl; [reflexivity | ].
  intros H. apply andb_prop in H as [Hc Hs]. rewrite (IH Hs), andb_true_r.
  unfold is_hex_char in Hc. apply N.ltb_lt.
  apply orb_prop in Hc as [Hc | Hc]; apply andb_prop in Hc as [_ Hc];
    apply N.leb_le in Hc; lia.
Qed.

Lemma encode_utf8_append a b :
  encode_utf8 (a ++ b) = encode_utf8 a ++ encode_utf8 b.
Proof.
  induction a as [ | x a IH]; simpl; [reflexivity | ].
  rewrite IH. destruct (code x <? 128)%N; reflexivity.
Qed.

Lemma encode_utf8_ascii s : ascii_only s = true -> encode_utf8 s = s.
Proof.
  induction s as [ | c s IH]; simpl; [reflexivity | ].
  intros H. apply andb_prop in H as [Hc Hs]. now rewrite Hc, (IH Hs).
Qed.

Lemma occurs_in_encoded needle hay :
  occurs_in needle hay -> occurs_in (encode_utf8 needle) (encode_utf8 hay).
Proof.
  intros [pre [post ->]]. exists (encode_utf8 pre), (encode_utf8 post).
  now rewrite !encode_utf8_append.
Qed.

Lemma build_message_eq env sender recipient prefix w :
  let r := env_random env (history w) in
  let token := hex_fixed 32 (uuid4_int r) in
  let w1 := record (EUuid r) 0 w in
  let date := env_date env (history w1) (now w1) in
  let msg_id := "<" ++ token ++ "@e2e-monitor>" in
  let subject := prefix ++ " token=" ++ token in
  build_message env sender recipient prefix w
  = (Return (token,
             encode_utf8 (join CRLF (message_headers sender recipient subject date msg_id)
                          ++ CRLF ++ CRLF ++ message_body token date),
             msg_id),
     record (EDate date) 0 w1).
Proof. reflexivity. Qed.

(** *** The header block *)

Lemma string_of_list_ascii_app a b :
  string_of_list_ascii (a ++ b) = string_of_list_ascii a ++ string_of_list_ascii b.
Proof. induction a as [ | x a IH]; simpl; [reflexivity | now rewrite IH]. Qed.

Lemma lines_aux_step c r cur :
  is_cr c = false -> r <> "" -> lines_aux (String c r) cur = lines_aux r (c :: cur).
Proof.
  intros Hc Hr. destruct r as [ | d r']; [now elim Hr | ].
  cbn [lines_aux]. now rewrite Hc.
Qed.

(** A piece without line break, followed by CR LF, is one line. *)
Lemma lines_aux_line l rest :
  one_line l = true ->
  forall cur,
    lines_aux (l ++ CRLF ++ rest) cur
    = (string_of_list_ascii (rev cur) ++ l) :: lines_aux rest [].
Proof.
  induction l as [ | c l IH]; intros Hl cur.
  - simpl. now rewrite append_nil_r.
  - cbn [one_line] in Hl. apply andb_prop in Hl as [Hc Hl].
    apply negb_true_iff, orb_false_iff in Hc as [Hc _].
    change (String c l ++ CRLF ++ rest) with (String c (l ++ CRLF ++ rest)).
    rewrite lines_aux_step; [ | exact Hc | now destruct l].
    rewrite IH by exact Hl. cbn [rev].
    rewrite string_of_list_ascii_app, append_assoc. reflexivity.
Qed.

(** Text without carriage return is a single line. *)
Lemma lines_aux_last s :
  no_cr s = true ->
  forall cur, lines_aux s cur = [string_of_list_ascii (rev cur) ++ s].
Proof.
  induction s as [ | c s IH]; intros Hs cur.
  - simpl. now rewrite append_nil_r.
  - cbn [no_cr] in Hs. apply andb_prop in Hs as [Hc Hs].
    apply negb_true_iff in Hc.
    destruct s as [ | d s'].
    + cbn [lines_aux rev]. now rewrite string_of_list_ascii_app.
    + rewrite lines_aux_step; [ | exact Hc | discriminate].
      rewrite IH by exact Hs. cbn [rev].
      rewrite string_of_list_ascii_app, append_assoc. reflexivity.
Qed.

Lemma one_line_append a b : one_line (a ++ b) = one_line a && one_line b.
Proof.
  induction a as [ | x a IH]; simpl; [reflexivity | ].
  now rewrite IH, andb_assoc.
Qed.

Lemma no_cr_append a b : no_cr (a ++ b) = no_cr a && no_cr b.
Proof.
  induction a as [ | x a IH]; simpl; [reflexivity | ].
  now rewrite IH, andb_assoc.
Qed.

Lemma one_line_no_cr s : one_line s = true -> no_cr s = true.
Proof.
  induction s as [ | c s IH]; simpl; [reflexivity | ].
  intros H. apply andb_prop in H as [Hc Hs]. rewrite (IH Hs), andb_true_r.
  apply negb_true_iff, orb_false_iff in Hc as [Hc _]. now rewrite Hc.
Qed.

Lemma code_of_N n : (n < 256)%N -> code (ascii_of_N n) = n.
Proof. apply N_ascii_embedding. Qed.

(** The encoding adds no line break: the bytes of a code point from 128
    on are 128 or more. *)
Lemma encode_utf8_one_line s : one_line s = true -> one_line (encode_utf8 s) = true.
Proof.
  induction s as [ | c s IH]; cbn [one_line encode_utf8]; [reflexivity | ].
  intros H. apply andb_prop in H as [Hc Hs]. specialize (IH Hs).
  destruct (code c <? 128)%N eqn:E; cbn [one_line]; [now rewrite Hc, IH | ].
  rewrite IH, andb_true_r. apply N.ltb_ge in E.
  pose proof (N_ascii_bounded c) as Hb. fold (code c) in Hb.
  assert (H1 : (code c / 64 < 4)%N) by (apply N.Div0.div_lt_upper_bound; lia).
  assert (H2 : (code c mod 64 < 64)%N) by (apply N.mod_lt; discriminate).
  unfold is_cr, is_lf. rewrite !code_of_N by lia.
  set (x := (code c / 64)%N) in *. set (y := (code c mod 64)%N) in *.
  clearbody x y.
  repeat match goal with
         | |- context [(?a =? ?b)%N] =>
             let F := fresh in
             destruct (N.eqb_spec a b) as [F | F]; [exfalso; lia | ]
         end.
  reflexivity.
Qed.

Lemma hex_string_one_line s : hex_string s = true -> one_line s = true.
Proof.
  induction s as [ | c s IH]; simpl; [reflexivity | ].
  intros H. apply andb_prop in H as [Hc Hs]. rewrite (IH Hs), andb_true_r.
  unfold is_hex_char in Hc. unfold is_cr, is_lf.
  apply orb_prop in Hc as [Hc | Hc]; apply andb_prop in Hc as [Hc _];
    apply N.leb_le in Hc;
    repeat match goal with
           | |- context [(?a =? ?b)%N] =>
               let F := fresh in
               destruct (N.eqb_spec a b) as [F | F]; [exfalso; lia | ]
           end; reflexivity.
Qed.

(** The lines of header lines joined by CR LF are these lines. *)
Lemma lines_aux_join h hs rest :
  forallb one_line (h :: hs) = true ->
  lines_aux (encode_utf8 (join CRLF (h :: hs)) ++ CRLF ++ rest) []
  = (map encode_utf8 (h :: hs) ++ lines_aux rest [])%list.
Proof.
  revert h. induction hs as [ | q hs IH]; intros h Hall;
    cbn [forallb] in Hall; apply andb_prop in Hall as [Hh Hall].
  - cbn [join map app].
    now rewrite lines_aux_line by now apply encode_utf8_one_line.
  - change (join CRLF (h :: q :: hs)) with (h ++ CRLF ++ join CRLF (q :: hs)).
    rewrite !encode_utf8_append, !append_assoc.
    change (encode_utf8 CRLF) with CRLF.
    rewrite lines_aux_line by now apply encode_utf8_one_line.
    rewrite IH by exact Hall. reflexivity.
Qed.

Lemma header_block_app ls rest :
  forallb (fun l => negb (String.eqb l "")) ls = true ->
  header_block (ls ++ "" :: rest) = ls /\ after_blank (ls ++ "" :: rest) = rest.
Proof.
  induction ls as [ | l ls IH]; intros H; [now split | ].
  cbn [forallb] in H. apply andb_prop in H as [Hl H].
  apply negb_true_iff in Hl. cbn [app header_block after_blank]. rewrite Hl.
  destruct (IH H) as [-> ->]. now split.
Qed.

(** The payload of [build_message], read line by line: the header block
    is the eight header lines, and one blank line separates it from the
    body. *)
Lemma payload_lines sender recipient subject date msg_id body :
  one_line (py_str sender) = true -> one_line (py_str recipient) = true ->
  one_line subject = true -> one_line date = true -> one_line msg_id = true ->
  no_cr body = true ->
  let raw :=
    encode_utf8 (join CRLF (message_headers sender recipient subject date msg_id)
                 ++ CRLF ++ CRLF ++ body) in
  header_lines raw
  = map encode_utf8 (message_headers sender recipient subject date msg_id)
  /\ body_lines raw = [encode_utf8 body].
Proof.
  intros Hs Hr Hsub Hd Hm Hb raw. unfold header_lines, body_lines. subst raw.
  rewrite encode_utf8_append.
  change (encode_utf8 (CRLF ++ CRLF ++ body))
    with (CRLF ++ "" ++ CRLF ++ encode_utf8 body).
  unfold message_headers at 1 3.
  rewrite lines_aux_join.
  - rewrite (lines_aux_line "" _ eq_refl [] : lines_aux ("" ++ CRLF ++ _) [] = _).
    cbn [rev string_of_list_ascii append].
    assert (Hlast : lines_aux (encode_utf8 body) [] = [encode_utf8 body]).
    { rewrite lines_aux_last; [reflexivity | ].
      clear - Hb. induction body as [ | c s IH]; [reflexivity | ].
      cbn [no_cr] in Hb. apply andb_prop in Hb as [Hc Hs]. specialize (IH Hs).
      cbn [encode_utf8]. destruct (code c <? 128)%N eqn:E; cbn [no_cr];
        [now rewrite Hc, IH | ].
      rewrite IH, andb_true_r. apply N.ltb_ge in E.
      pose proof (N_ascii_bounded c) as Hbd. fold (code c) in Hbd.
      assert (H1 : (code c / 64 < 4)%N) by (apply N.Div0.div_lt_upper_bound; lia).
      assert (H2 : (code c mod 64 < 64)%N) by (apply N.mod_lt; discriminate).
      unfold is_cr. rewrite !code_of_N by lia.
      set (x := (code c / 64)%N) in *. set (y := (code c mod 64)%N) in *.
      clearbody x y.
      repeat match goal with
             | |- context [(?a =? ?b)%N] =>
                 let F := fresh in
                 destruct (N.eqb_spec a b) as [F | F]; [exfalso; lia | ]
             end.
      reflexivity. }
    rewrite Hlast. apply header_block_app. reflexivity.
  - cbn [forallb]. rewrite !one_line_append, Hs, Hr, Hsub, Hd, Hm. reflexivity.
Qed.

(** C9 fails as stated for a sender that holds an empty line, which the
    guard of [run_for_account] lets through (it only asks for a non-empty
    value).  The header block of the payload, the lines before the first
    empty line, then ends inside the From line: the Subject line with the
    token and the Message-ID line are not in it, they come after the
    separator, where a mail server reads body text. *)
Lemma sender_breaks_header_block :
  truthy two_line_sender = true
  /\ exists token raw msg_id w',
       build_message working_env two_line_sender (PStr "probe@example.org")
         "Stalwart E2E Monitor" start
       = (Return (token, raw, msg_id), w')
       /\ header_lines raw = ["From: probe@example.org"]
       /\ ~ In ("Message-ID: " ++ msg_id) (header_lines raw)
       /\ ~ In ("Subject: Stalwart E2E Monitor token=" ++ token) (header_lines raw)
       /\ In ("Message-ID: " ++ msg_id) (body_lines raw)
       /\ In ("Subject: Stalwart E2E Monitor token=" ++ token) (body_lines raw).
Proof.
  split; [reflexivity | ].
  do 4 eexists. split; [lazy; reflexivity | ].
  repeat match goal with |- _ /\ _ => split end.
  - vm_compute. reflexivity.
  - intros Hin. vm_compute in Hin. destruct Hin as [E | []]. discriminate E.
  - intros Hin. vm_compute in Hin. destruct Hin as [E | []]. discriminate E.
  - vm_compute. repeat first [left; reflexivity | right].
  - vm_compute. repeat first [left; reflexivity | right].
Qed.

(** C9 (amended): for a sender, a recipient and a subject prefix without
    line break, and a date that [formatdate] writes on one line,
    [build_message] returns a token of 32 hexadecimal digits (the 128-bit
    identifier drawn by [uuid4]), a Message-ID that is the token between
    ["<"] and ["@e2e-monitor>"], and a payload made of a header block, one
    empty line and a UTF-8 body.  The header block, that is the lines of
    the payload before its first empty line, is exactly the eight lines
    From, To, Subject, Date, Message-ID, MIME-Version, Content-Type and
    Content-Transfer-Encoding; its Message-ID line holds the Message-ID and
    its Subject line ends in the token, both verbatim.  What follows the
    empty line is the body, which holds the token and the formatted
    date. *)
Theorem build_message_embeds_token env sender recipient prefix w :
  one_line (py_str sender) = true ->
  one_line (py_str recipient) = true ->
  one_line prefix = true ->
  dates_one_line env ->
  exists token date msg_id raw headers body w',
    build_message env sender recipient prefix w = (Return (token, raw, msg_id), w')
    /\ token = hex_fixed 32 (uuid4_int (env_random env (history w)))
    /\ String.length token = 32%nat /\ hex_string token = true
    /\ In (EDate date) (history w')
    /\ msg_id = "<" ++ token ++ "@e2e-monitor>"
    /\ headers
       = [ "From: " ++ py_str sender;
           "To: " ++ py_str recipient;
           "Subject: " ++ prefix ++ " token=" ++ token;
           "Date: " ++ date;
           "Message-ID: " ++ msg_id;
           "MIME-Version: 1.0";
           "Content-Type: text/plain; charset=utf-8";
           "Content-Transfer-Encoding: 8bit" ]
    /\ raw = encode_utf8 (join CRLF headers) ++ CRLF ++ CRLF ++ encode_utf8 body
    /\ header_lines raw = map encode_utf8 headers
    /\ In ("Message-ID: " ++ msg_id) (header_lines raw)
    /\ In ("Subject: " ++ encode_utf8 prefix ++ " token=" ++ token) (header_lines raw)
    /\ body_lines raw = [encode_utf8 body]
    /\ body = "This is an automated E2E monitoring email." ++ LF
              ++ "Token: " ++ token ++ LF
              ++ "Time: " ++ date ++ LF
    /\ occurs_in token msg_id
    /\ occurs_in token (encode_utf8 body)
    /\ occurs_in (encode_utf8 date) (encode_utf8 body).
Proof.
  intros Hs Hr Hp Hdate.
  pose proof (build_message_eq env sender recipient prefix w) as E. cbv zeta in E.
  set (token := hex_fixed 32 (uuid4_int (env_random env (history w)))) in *.
  set (date := env_date env _ _) in *.
  set (msg_id := "<" ++ token ++ "@e2e-monitor>") in *.
  set (subject := prefix ++ " token=" ++ token) in *.
  assert (Hhex : hex_string token = true) by apply hex_fixed_hex.
  assert (Htok : one_line token = true) by now apply hex_string_one_line.
  assert (Hd : one_line date = true) by apply Hdate.
  assert (Hsub : one_line subject = true).
  { unfold subject. rewrite !one_line_append, Hp, Htok. reflexivity. }
  assert (Hid : one_line msg_id = true).
  { unfold msg_id. rewrite !one_line_append, Htok. reflexivity. }
  assert (Hbody : no_cr (message_body token date) = true).
  { unfold message_body. rewrite !no_cr_append.
    rewrite (one_line_no_cr _ Htok), (one_line_no_cr _ Hd). reflexivity. }
  destruct (payload_lines sender recipient subject date msg_id
              (message_body token date) Hs Hr Hsub Hd Hid Hbody) as [Hhead Hrest].
  cbv zeta in Hhead, Hrest.
  assert (Hascii : encode_utf8 token = token)
    by (apply encode_utf8_ascii, hex_string_ascii, Hhex).
  exists token, date, msg_id. eexists.
  exists (message_headers sender recipient subject date msg_id),
    (message_body token date).
  eexists. split; [exact E | ].
  repeat match goal with |- _ /\ _ => split end.
  - reflexivity.
  - apply hex_fixed_length.
  - exact Hhex.
  - simpl. apply in_or_app. right. left. reflexivity.
  - reflexivity.
  - reflexivity.
  - rewrite !encode_utf8_append. reflexivity.
  - exact Hhead.
  - rewrite Hhead. apply in_map_iff. exists ("Message-ID: " ++ msg_id). split.
    + unfold msg_id. rewrite !encode_utf8_append, Hascii. reflexivity.
    + unfold message_headers. simpl. auto 10.
  - rewrite Hhead. apply in_map_iff. exists ("Subject: " ++ subject). split.
    + unfold subject. rewrite !encode_utf8_append, Hascii. reflexivity.
    + unfold message_headers. simpl. auto 10.
  - exact Hrest.
  - reflexivity.
  - exists "<", "@e2e-monitor>". reflexivity.
  - rewrite <- Hascii at 1.
    apply occurs_in_encoded. unfold message_body.
    exists ("This is an automated E2E monitoring email." ++ LF ++ "Token: "),
      (LF ++ "Time: " ++ date ++ LF).
    rewrite !append_assoc. reflexivity.
  - apply occurs_in_encoded. unfold message_body.
    exists ("This is an automated E2E monitoring email." ++ LF ++ "Token: "
            ++ token ++ LF ++ "Time: "), LF.
    rewrite !append_assoc. reflexivity.
Qed.

Lemma build_message_embeds_token_witness :
  exists token date msg_id raw headers body w',
    build_message working_env (PStr "probe@example.org") (PStr "probe@example.org")
      "Stalwart E2E Monitor" start
    = (Return (token, raw, msg_id), w')
    /\ token = hex_fixed 32 (uuid4_int (env_random working_env (history start)))
    /\ String.length token = 32%nat /\ hex_string token = true
    /\ In (EDate date) (history w')
    /\ msg_id = "<" ++ token ++ "@e2e-monitor>"
    /\ headers
       = [ "From: " ++ py_str (PStr "probe@example.org");
           "To: " ++ py_str (PStr "probe@example.org");
           "Subject: " ++ "Stalwart E2E Monitor" ++ " token=" ++ token;
           "Date: " ++ date;
           "Message-ID: " ++ msg_id;
           "MIME-Version: 1.0";
           "Content-Type: text/plain; charset=utf-8";
           "Content-Transfer-Encoding: 8bit" ]
    /\ raw = encode_utf8 (join CRLF headers) ++ CRLF ++ CRLF ++ encode_utf8 body
    /\ header_lines raw = map encode_utf8 headers
    /\ In ("Message-ID: " ++ msg_id) (header_lines raw)
    /\ In ("Subject: " ++ encode_utf8 "Stalwart E2E Monitor" ++ " token=" ++ token)
         (header_lines raw)
    /\ body_lines raw = [encode_utf8 body]
    /\ body = "This is an automated E2E monitoring email." ++ LF
              ++ "Token: " ++ token ++ LF
              ++ "Time: " ++ date ++ LF
    /\ occurs_in token msg_id
    /\ occurs_in token (encode_utf8 body)
    /\ occurs_in (encode_utf8 date) (encode_utf8 body).
Proof.
  apply (build_message_embeds_token working_env (PStr "probe@example.org")
           (PStr "probe@example.org") "Stalwart E2E Monitor" start);
    try reflexivity.
  intros h t. reflexivity.
Defined.

(** ** [imap_search_for_token] *)

Lemma history_record ev d w :
  history (record ev d w) = (history w ++ [ev])%list.
Proof. reflexivity. Qed.
















(** When all three strategies would find something, the Message-ID
    strategy alone is consulted and its newest message, 9, is selected. *)
Example message_id_preferred :
  let out := imap_search_for_token all_match_env "INBOX" "tok" "<tok@e2e-monitor>" start in
  fst out = Return (Some "9")
  /\ history (snd out)
     = [ EQuery (ImapSelect "INBOX" false) (inr ("OK", [Some "1"]));
         EQuery (ImapSearch ("(HEADER Message-ID " ++ dquote ++ "<tok@e2e-monitor>"
                             ++ dquote ++ ")"))
           (inr ("OK", [Some "4 9"])) ].
Proof. split; reflexivity. Qed.

(** When neither the Message-ID search nor the subject search lists
    anything, the full-text search is consulted, and its newest message,
    7, is selected. *)
Example falls_through_to_text :
  let out := imap_search_for_token text_only_env "INBOX" "tok" "<tok@e2e-monitor>" start in
  fst out = Return (Some "7")
  /\ history (snd out)
     = [ EQuery (ImapSelect "INBOX" false) (inr ("OK", [Some "1"]));
         EQuery (ImapSearch ("(HEADER Message-ID " ++ dquote ++ "<tok@e2e-monitor>"
                             ++ dquote ++ ")"))
           (inr ("OK", [Some ""]));
         EQuery (ImapSearch ("(SUBJECT " ++ dquote ++ "tok" ++ dquote ++ ")"))
           (inr ("OK", [Some ""]));
         EQuery (ImapSearch ("(TEXT " ++ dquote ++ "tok" ++ dquote ++ ")"))
           (inr ("OK", [Some "3 7"])) ].
Proof. split; reflexivity. Qed.

(** ** The monad *)

Lemma bind_assoc_at {A B C} (m : M A) (f : A -> M B) (g : B -> M C) w :
  bind (bind m f) g w = bind m (fun a => bind (f a) g) w.
Proof. unfold bind. destruct (m w) as [[a | e | ] w']; reflexivity. Qed.

Lemma bind_ext_at {A B} (m : M A) (f g : A -> M B) w :
  (forall a w', f a w' = g a w') -> bind m f w = bind m g w.
Proof. intros H. unfold bind. destruct (m w) as [[a | e | ] w']; auto. Qed.

Lemma bind_return {A B} (m : M A) (k : A -> M B) w a w' :
  m w = (Return a, w') -> bind m k w = k a w'.
Proof. intros H. unfold bind. now rewrite H. Qed.

Lemma bind_raise {A B} (m : M A) (k : A -> M B) w e w' :
  m w = (Raise e, w') -> bind m k w = (Raise e, w').
Proof. intros H. unfold bind. now rewrite H. Qed.

Lemma run_for_account_eq env fuel acct w :
  run_for_account env fuel acct w =
  bind (open_session env acct)
    (fun r =>
       match r with
       | inl failed => ret failed
       | inr (token, msg_id, deadline, smtp_ms) =>
           try_finally (poll_and_clean env fuel acct token msg_id deadline smtp_ms)
             (logout env)
       end) w.
Proof.
  unfold run_for_account, open_session.
  rewrite bind_assoc_at. apply bind_ext_at. intros _ w1.
  rewrite bind_assoc_at. apply bind_ext_at. intros [[token raw] msg_id] w2.
  rewrite bind_assoc_at. apply bind_ext_at. intros [failed | smtp_ms] w3;
    [reflexivity | ].
  rewrite bind_assoc_at. apply bind_ext_at. intros t w4.
  rewrite bind_assoc_at. apply bind_ext_at. intros [failed | ] w5; reflexivity.
Qed.

(** *** Traces *)

Lemma emits_weaken {A} (P Q : event -> Prop) (m : M A) :
  (forall ev, P ev -> Q ev) -> emits P m -> emits Q m.
Proof.
  intros H Hm w. destruct (Hm w) as [evs [Hh [Hp Ht]]].
  exists evs. repeat split; auto. eapply Forall_impl; eauto.
Qed.

Lemma emits_ret {A} P (a : A) : emits P (ret a).
Proof. intros w. exists []. simpl. rewrite app_nil_r. repeat split; auto; lia. Qed.

Lemma emits_raise {A} P e : emits P (@raise A e).
Proof. intros w. exists []. simpl. rewrite app_nil_r. repeat split; auto; lia. Qed.

Lemma emits_lift {A} P (r : result A) : emits P (lift r).
Proof. intros w. exists []. simpl. rewrite app_nil_r. repeat split; auto; lia. Qed.

Lemma emits_out_of_fuel {A} P : emits P (@out_of_fuel A).
Proof. intros w. exists []. simpl. rewrite app_nil_r. repeat split; auto; lia. Qed.

Lemma emits_time_time P : emits P time_time.
Proof. intros w. exists []. simpl. rewrite app_nil_r. repeat split; auto; lia. Qed.

Lemma emits_bind {A B} P (m : M A) (k : A -> M B) :
  emits P m -> (forall a, emits P (k a)) -> emits P (bind m k).
Proof.
  intros Hm Hk w. unfold bind. destruct (Hm w) as [evs [Hh [Hp Ht]]].
  destruct (m w) as [[a | e | ] w1]; simpl in *; try (exists evs; now auto).
  destruct (Hk a w1) as [evs' [Hh' [Hp' Ht']]].
  exists (evs ++ evs')%list. rewrite Hh', Hh, app_assoc.
  repeat split; [now apply Forall_app | lia].
Qed.

Lemma emits_try_except {A} P (m : M A) c h :
  emits P m -> (forall e, emits P (h e)) -> emits P (try_except m c h).
Proof.
  intros Hm Hh w. unfold try_except. destruct (Hm w) as [evs [Hh1 [Hp Ht]]].
  destruct (m w) as [[a | e | ] w1]; simpl in *; try (exists evs; now auto).
  destruct (c e); [ | exists evs; now auto].
  destruct (Hh e w1) as [evs' [Hh' [Hp' Ht']]].
  exists (evs ++ evs')%list. rewrite Hh', Hh1, app_assoc.
  repeat split; [now apply Forall_app | lia].
Qed.

Lemma emits_try_finally {A} P (m : M A) f :
  emits P m -> emits P f -> emits P (try_finally m f).
Proof.
  intros Hm Hf w. unfold try_finally. destruct (Hm w) as [evs [Hh1 [Hp Ht]]].
  assert (Hrun : forall (r : result A) w1,
             history w1 = (history w ++ evs)%list -> now w <= now w1 ->
             exists evs0,
               history (snd (match f w1 with
                             | (Return _, w2) => (r, w2)
                             | (Raise e, w2) => (Raise e, w2)
                             | (OutOfFuel, w2) => (OutOfFuel, w2)
                             end))
               = (history w ++ evs0)%list
               /\ Forall P evs0
               /\ now w <= now (snd (match f w1 with
                                     | (Return _, w2) => (r, w2)
                                     | (Raise e, w2) => (Raise e, w2)
                                     | (OutOfFuel, w2) => (OutOfFuel, w2)
                                     end))).
  { intros r w1 Hw1 Hn. destruct (Hf w1) as [evs' [Hh' [Hp' Ht']]].
    exists (evs ++ evs')%list.
    destruct (f w1) as [[u | e' | ] w2]; simpl in *;
      rewrite Hh', Hw1, app_assoc;
      (split; [reflexivity | split; [now apply Forall_app | lia]]). }
  destruct (m w) as [[a | e | ] w1]; simpl in *.
  - now apply Hrun.
  - now apply Hrun.
  - exists evs. auto.
Qed.

Lemma emits_event {A} (P : event -> Prop) (r : result A) ev d w :
  P ev -> 0 <= d ->
  exists evs,
    history (snd (r, record ev d w)) = (history w ++ evs)%list
    /\ Forall P evs /\ now w <= now (snd (r, record ev d w)).
Proof.
  intros Hp Hd. exists [ev]. simpl. repeat split; auto. lia.
Qed.

Lemma emits_call env P c :
  (forall r, P (ECall c r)) -> emits P (call env c).
Proof.
  intros Hp w. unfold call. destruct (env_call env (history w) c) as [[e | ] d];
    apply emits_event; auto; lia.
Qed.

Lemma emits_query env P q :
  (forall r, P (EQuery q r)) -> emits P (query env q).
Proof.
  intros Hp w. unfold query. destruct (env_query env (history w) q) as [[e | r] d];
    apply emits_event; auto; lia.
Qed.

Lemma emits_load_yaml env P path :
  (forall r, P (ELoad path r)) -> emits P (load_yaml env path).
Proof.
  intros Hp w. unfold load_yaml. destruct (env_load env (history w) path) as [e | v];
    apply emits_event; auto; lia.
Qed.

Lemma emits_logging (P : event -> Prop) lvl fmt args :
  P (ELog lvl fmt args) -> emits P (logging lvl fmt args).
Proof. intros Hp w. unfold logging. apply emits_event; auto; lia. Qed.

Lemma emits_setup_logging (P : event -> Prop) v :
  P (ELogSetup v) -> emits P (setup_logging v).
Proof. intros Hp w. unfold setup_logging. apply emits_event; auto; lia. Qed.

Lemma emits_uuid4_hex env (P : event -> Prop) :
  (forall r, P (EUuid r)) -> emits P (uuid4_hex env).
Proof. intros Hp w. unfold uuid4_hex. apply emits_event; auto; lia. Qed.

Lemma emits_formatdate env (P : event -> Prop) :
  (forall s, P (EDate s)) -> emits P (formatdate env).
Proof. intros Hp w. unfold formatdate. apply emits_event; auto; lia. Qed.

Lemma emits_time_sleep env (P : event -> Prop) secs :
  P (ESleep secs) -> emits P (time_sleep env secs).
Proof.
  intros Hp w. unfold time_sleep. destruct (secs <? 0) eqn:E.
  - exists []. simpl. rewrite app_nil_r. repeat split; auto; lia.
  - apply Z.ltb_ge in E. apply emits_event; auto; lia.
Qed.

Ltac emits_step :=
  lazymatch goal with
  | |- emits _ (bind _ _) => apply emits_bind; [ | intros ? ]
  | |- emits _ (try_except _ _ _) => apply emits_try_except; [ | intros ? ]
  | |- emits _ (try_finally _ _) => apply emits_try_finally
  | |- emits _ (ret _) => apply emits_ret
  | |- emits _ (raise _) => apply emits_raise
  | |- emits _ (lift _) => apply emits_lift
  | |- emits _ out_of_fuel => apply emits_out_of_fuel
  | |- emits _ time_time => apply emits_time_time
  | |- emits _ (call _ _) => apply emits_call; intros ?
  | |- emits _ (query _ _) => apply emits_query; intros ?
  | |- emits _ (load_yaml _ _) => apply emits_load_yaml; intros ?
  | |- emits _ (logging _ _ _) => apply emits_logging
  | |- emits _ (setup_logging _) => apply emits_setup_logging
  | |- emits _ (uuid4_hex _) => apply emits_uuid4_hex; intros ?
  | |- emits _ (formatdate _) => apply emits_formatdate; intros ?
  | |- emits _ (time_sleep _ _) => apply emits_time_sleep
  | |- emits _ (if ?b then _ else _) => destruct b
  | |- emits _ (match ?x with _ => _ end) => destruct x
  end.

Ltac emits_all := repeat emits_step; try reflexivity; try exact I.

Lemma emits_check_fields P acct : emits P (check_fields acct).
Proof. unfold check_fields. emits_all. Qed.



(** ** Send failure *)



(** The rejected login, run: the outcome and the whole history. *)
Example send_failure_run :
  run_for_account auth_reject_env 3 (sample_account "A") start
  = (Return (false,
             "SMTP failed: SMTPAuthenticationError: (535, b'5.7.8 Authentication failed')",
             None),
     {| now := 0;
        history :=
          [ EUuid 0; EDate "Wed, 04 Nov 2026 08:35:00 +0100";
            ECall SslCreateDefaultContext None;
            ELog DEBUG "Preparing SMTP connection to %s:%s security=%s"
              [LStr "mx.example.org"; LNum 465; LStr "ssl"];
            ECall (SmtpSSL "mx.example.org" 465 30) None;
            ECall SmtpEhlo None;
            ECall (SmtpLogin (PStr "probe") (PStr "hunter2")) (Some auth_error);
            ECall SmtpQuit None;
            ELog ERROR "%s: SMTP send failed: %s" [LStr "A"; LExn auth_error] ] |}).
Proof. reflexivity. Qed.


(** ** The poll loop and the cleanup *)

Lemma emits_search_criteria env crits : emits any_event (search_criteria env crits).
Proof.
  induction crits as [ | crit rest IH]; cbn [search_criteria]; [apply emits_ret | ].
  emits_all; try exact IH.
Qed.

Lemma emits_imap_search_for_token env mbox token msg_id :
  emits any_event (imap_search_for_token env mbox token msg_id).
Proof.
  unfold imap_search_for_token. emits_all. apply emits_search_criteria.
Qed.

Lemma emits_imap_delete env mbox id : emits any_event (imap_delete env mbox id).
Proof. unfold imap_delete. emits_all. Qed.

Lemma emits_logout env : emits any_event (logout env).
Proof. unfold logout. emits_all. Qed.


(** The [finally] clause never raises. *)
Lemma logout_returns env w : fst (logout env w) = Return tt.
Proof.
  unfold logout, try_except, call.
  destruct (env_call env (history w) ImapLogout) as [[e | ] d]; reflexivity.
Qed.

Lemma try_finally_logout {A} env (m : M A) w (a : A) w1 :
  m w = (Return a, w1) ->
  try_finally m (logout env) w = (Return a, snd (logout env w1)).
Proof.
  intros H. unfold try_finally. rewrite H.
  pose proof (logout_returns env w1) as E.
  destruct (logout env w1) as [[[] | e | ] w2]; try discriminate. reflexivity.
Qed.

Lemma history_grows {A} (m : M A) w :
  emits any_event m ->
  exists evs, history (snd (m w)) = (history w ++ evs)%list.
Proof. intros H. destruct (H w) as [evs [Hh _]]. eauto. Qed.

(** C5: when the probe was found and [delete_on_success] is set, a failure
    of the cleanup ([imap_delete], that is STORE [\Deleted] followed by
    EXPUNGE, raises) is logged as a warning and the account still ends
    with [success = True] and the message ["OK"]. *)
Theorem cleanup_failure_keeps_success
    env fuel acct w token msg_id deadline smtp_ms w1 id w2 e w3 :
  open_session env acct w = (Return (inr (token, msg_id, deadline, smtp_ms)), w1) ->
  poll_loop env fuel acct token msg_id deadline None w1 = (Return (Some id), w2) ->
  bytes_truthy (Some id) = true ->
  delete_on_success acct = true ->
  imap_delete env (mailbox (imap acct)) id w2 = (Raise e, w3) ->
  exists w' evs,
    run_for_account env fuel acct w = (Return (true, "OK", Some smtp_ms), w')
    /\ history w'
       = (history w3
          ++ ELog WARNING "%s: Could not delete message id %s: %s"
               [LStr (name acct); LBytes (Some id); LExn e]
          :: evs)%list.
Proof.
  intros Hopen Hpoll Hid Hflag Hdel.
  set (warn := ELog WARNING "%s: Could not delete message id %s: %s"
                 [LStr (name acct); LBytes (Some id); LExn e]).
  set (done := ELog INFO "%s: End-to-end success (token=%s)"
                 [LStr (name acct); LStr token]).
  set (w5 := record done 0 (record warn 0 w3)).
  assert (Hclean : poll_and_clean env fuel acct token msg_id deadline smtp_ms w1
                   = (Return (true, "OK", Some smtp_ms), w5)).
  { unfold poll_and_clean. rewrite (bind_return _ _ _ _ _ Hpoll).
    simpl in Hid. apply negb_true_iff in Hid. rewrite Hid, Hflag.
    unfold bind at 1. unfold try_except. rewrite Hdel. reflexivity. }
  destruct (history_grows (logout env) w5 (emits_logout env)) as [evs Hevs].
  exists (snd (logout env w5)), (done :: evs).
  split.
  - rewrite run_for_account_eq, (bind_return _ _ _ _ _ Hopen).
    apply try_finally_logout, Hclean.
  - rewrite Hevs. unfold w5. rewrite !history_record, <- !app_assoc. reflexivity.
Qed.

Lemma cleanup_failure_keeps_success_witness :
  exists w' evs,
    run_for_account store_fails_env 3 (sample_account "A") start
    = (Return (true, "OK", Some 0), w')
    /\ history w'
       = (history
            (snd (imap_delete store_fails_env "INBOX" "7"
                    (snd (poll_loop store_fails_env 3 (sample_account "A")
                            "00000000000040008000000000000000"
                            "<00000000000040008000000000000000@e2e-monitor>"
                            10000 None
                            (snd (open_session store_fails_env (sample_account "A")
                                    start))))))
          ++ ELog WARNING "%s: Could not delete message id %s: %s"
               [LStr (name (sample_account "A")); LBytes (Some "7"); LExn store_error]
          :: evs)%list.
Proof.
  eapply (cleanup_failure_keeps_success store_fails_env 3 (sample_account "A") start);
    [lazy; reflexivity | lazy; reflexivity | reflexivity | reflexivity
     | lazy; reflexivity].
Defined.

(** ** Transient search errors *)




Lemma poll_loop_unfold env fuel acct token msg_id deadline found_id w :
  now w < deadline ->
  poll_loop env (S fuel) acct token msg_id deadline found_id w =
  bind
    (try_except
       (f <- imap_search_for_token env (mailbox (imap acct)) token msg_id ;;
        ret (f, bytes_truthy f))
       any_exception
       (fun e =>
          logging DEBUG "%s: search transient error: %s" [LStr (name acct); LExn e] ;;
          ret (found_id, false)))
    (fun r =>
       if (snd r : bool) then ret (fst r)
       else
         time_sleep env (interval_seconds (poll acct)) ;;
         poll_loop env fuel acct token msg_id deadline (fst r)) w.
Proof.
  intros H. apply Z.ltb_lt in H. cbn [poll_loop]. unfold bind at 1. simpl.
  rewrite H. apply bind_ext_at. intros [f stop] w'. reflexivity.
Qed.

Lemma poll_loop_done env fuel acct token msg_id deadline found_id w :
  deadline <= now w ->
  poll_loop env fuel acct token msg_id deadline found_id w = (Return found_id, w).
Proof.
  intros H. apply Z.ltb_ge in H.
  destruct fuel; cbn [poll_loop]; unfold bind, time_time; rewrite H; reflexivity.
Qed.




(** A timed-out SELECT on the first attempt, the probe on the second: the
    account succeeds. *)
Example error_then_found :
  fst (run_for_account flaky_env 3 (sample_account "A") start)
  = Return (true, "OK", Some 0)
  /\ attempts (history (snd (run_for_account flaky_env 3 (sample_account "A") start)))
     = 2%nat.
Proof. split; reflexivity. Qed.


(** ** The deadline *)







Lemma bind_inv {A B} (m : M A) (k : A -> M B) w b w' :
  bind m k w = (Return b, w') ->
  exists a w1, m w = (Return a, w1) /\ k a w1 = (Return b, w').
Proof.
  unfold bind. destruct (m w) as [[a | e | ] w1]; try discriminate. eauto.
Qed.

Lemma emits_imap_connect env cfg : emits any_event (imap_connect env cfg).
Proof. unfold imap_connect. emits_all. Qed.

(** When [open_session] hands over a deadline, the deadline is the poll
    timeout after a clock reading that is not later than the end of
    [open_session]. *)
Lemma open_session_deadline env acct w token msg_id deadline smtp_ms w1 :
  open_session env acct w = (Return (inr (token, msg_id, deadline, smtp_ms)), w1) ->
  deadline - 1000 * timeout_seconds (poll acct) <= now w1.
Proof.
  unfold open_session. intros H.
  remember (1000 * timeout_seconds (poll acct)) as TT eqn:HTT. clear HTT.
  apply bind_inv in H as [[] [wa [_ H]]].
  apply bind_inv in H as [[[token0 raw] msg_id0] [wb [_ H]]].
  apply bind_inv in H as [[failed | ms] [wc [_ H]]]; [discriminate | ].
  apply bind_inv in H as [t [wd [Ht H]]].
  injection Ht as <- <-.
  apply bind_inv in H as [[failed | ] [we [Hc H]]]; [discriminate | ].
  injection H as _ _ <- _ <-.
  match type of Hc with ?m wc = _ =>
    assert (Hm : emits any_event m) by (emits_all; apply emits_imap_connect);
    destruct (Hm wc) as [evs [_ [_ Hnow]]]; rewrite Hc in Hnow
  end.
  simpl in Hnow. lia.
Qed.





(** The same account in the mailbox that answers at once: two attempts,
    at 0 and 5 seconds, and the timeout at 10 seconds. *)
Example empty_mailbox_run :
  let out := run_for_account empty_mailbox_env 2 (sample_account "A") start in
  fst out = Return (false, "IMAP timeout: message not found", Some 0)
  /\ now (snd out) = 10000
  /\ attempts (history (snd out)) = 2%nat.
Proof. repeat split; reflexivity. Qed.

(** ** Reading the configuration uses no fuel *)

Lemma rbind_fuel {A B} (m : result A) (k : A -> result B) :
  m <> OutOfFuel -> (forall a, k a <> OutOfFuel) -> rbind m k <> OutOfFuel.
Proof.
  intros Hm Hk. destruct m; simpl; [apply Hk | discriminate | now elim Hm].
Qed.

Lemma py_get_fuel o k d : py_get o k d <> OutOfFuel.
Proof. destruct o; simpl; discriminate. Qed.

Lemma py_int_fuel v : py_int v <> OutOfFuel.
Proof. destruct v; simpl; try discriminate. destruct (parse_int s); discriminate. Qed.

Lemma py_iter_fuel v : py_iter v <> OutOfFuel.
Proof. destruct v; simpl; discriminate. Qed.

Lemma py_key_fuel v : py_key v <> OutOfFuel.
Proof. destruct v; simpl; discriminate. Qed.

Lemma dict_of_pairs_fuel elems :
  forall i out, dict_of_pairs elems i out <> OutOfFuel.
Proof.
  induction elems as [ | e rest IH]; intros i out; [discriminate | ].
  cbn [dict_of_pairs]. pose proof (py_iter_fuel e) as He.
  destruct (py_iter e) as [[ | k [ | v [ | x l]]] | | ]; try discriminate;
    [ | now elim He].
  apply rbind_fuel; [apply py_key_fuel | intros k'; apply IH].
Qed.

Lemma py_dict_fuel a : py_dict a <> OutOfFuel.
Proof.
  destruct a; cbn [py_dict]; try discriminate;
    (apply rbind_fuel; [apply py_iter_fuel | intros elems; apply dict_of_pairs_fuel]).
Qed.

Lemma deep_merge_fuel b : forall a, deep_merge a b <> OutOfFuel.
Proof.
  induction b as [ | x | x | x | l _ | items IH] using pyval_nested_ind; intros a;
    cbn [deep_merge]; (apply rbind_fuel; [apply py_dict_fuel | intros out]);
    try discriminate.
  apply rbind_fuel; [ | discriminate].
  revert out. induction IH as [ | [k v] rest Hv _ IHrest]; intros out;
    [discriminate | ].
  cbn [snd] in Hv.
  destruct v as [ | ? | ? | ? | ? | vd]; try apply IHrest.
  destruct (dict_find out k) as [[ | ? | ? | ? | ? | od] | ]; try apply IHrest.
  apply rbind_fuel; [apply Hv | intros m; apply IHrest].
Qed.

Lemma redact_config_fuel v : redact_config v <> OutOfFuel.
Proof.
  induction v as [ | x | x | x | l IH | d IH] using pyval_nested_ind;
    try discriminate.
  - rewrite redact_config_list. apply rbind_fuel; [ | discriminate].
    induction IH as [ | x l Hx _ IHl]; [discriminate | ].
    rewrite redact_each_cons. apply rbind_fuel; [exact Hx | intros x'].
    apply rbind_fuel; [exact IHl | discriminate].
  - rewrite redact_config_dict. apply rbind_fuel; [ | discriminate].
    generalize (@nil (pykey * pyval)).
    induction IH as [ | [k x] d Hx _ IHd]; intros acc; [discriminate | ].
    rewrite redact_items_cons. destruct k; try discriminate.
    destruct (str_in (lower s) sensitive_keys); [apply IHd | ].
    apply rbind_fuel; [exact Hx | intros x'; apply IHd].
Qed.

Ltac fuel_free :=
  repeat first
    [ apply rbind_fuel; [ | intros ? ]
    | apply py_get_fuel | apply py_int_fuel | apply py_iter_fuel
    | apply deep_merge_fuel | apply redact_config_fuel
    | discriminate
    | match goal with
      | |- (if ?b then _ else _) <> OutOfFuel => destruct b
      end ].

Lemma parse_account_fuel defaults raw : parse_account defaults raw <> OutOfFuel.
Proof. unfold parse_account. fuel_free. Qed.

Lemma skipped_fuel sel raw : skipped sel raw <> OutOfFuel.
Proof. unfold skipped. destruct sel as [[ | s l] | ]; fuel_free. Qed.

Lemma parse_accounts_fuel defaults sel accounts :
  forall acc, parse_accounts defaults sel accounts acc <> OutOfFuel.
Proof.
  induction accounts as [ | raw rest IH]; intros acc; [discriminate | ].
  cbn [parse_accounts]. apply rbind_fuel; [apply skipped_fuel | intros skip].
  destruct skip; [apply IH | ].
  apply rbind_fuel; [apply parse_account_fuel | intros a; apply IH].
Qed.

Lemma parse_document_fuel loaded sel : parse_document loaded sel <> OutOfFuel.
Proof.
  unfold parse_document. fuel_free. apply parse_accounts_fuel.
  destruct sel as [[ | s l] | ]; try discriminate. destruct a2; discriminate.
Qed.

Lemma parse_config_fuel env path sel w :
  fst (parse_config env path sel w) <> OutOfFuel.
Proof.
  unfold parse_config, bind, load_yaml.
  destruct (env_load env (history w) path) as [e | loaded]; [discriminate | ].
  unfold lift.
  pose proof (parse_document_fuel loaded sel) as H1.
  destruct (parse_document loaded sel) as [accounts | e | ];
    [ | discriminate | now elim H1].
  pose proof (redact_config_fuel (py_or loaded (PDict []))) as H2.
  destruct (redact_config (py_or loaded (PDict []))) as [r | e | ];
    [discriminate | discriminate | now elim H2].
Qed.

(** ** The exit code *)

Lemma run_accounts_cons env fuel acct rest overall_ok w :
  run_accounts env fuel (acct :: rest) overall_ok w =
  bind (logging INFO "Running monitor for account: %s" [LStr (name acct)])
    (fun _ =>
       bind (run_for_account env fuel acct)
         (fun o =>
            bind (report env acct o)
              (fun _ => run_accounts env fuel rest (overall_ok && success o)))) w.
Proof.
  cbn [run_accounts]. apply bind_ext_at. intros _ w1.
  apply bind_ext_at. intros [[ok msg] ping] w2.
  unfold report. rewrite bind_assoc_at. reflexivity.
Qed.

Lemma run_accounts_probe_all env fuel accounts :
  forall overall_ok w,
    run_accounts env fuel accounts overall_ok w
    = (match fst (probe_all env fuel accounts w) with
       | Return outs => Return (overall_ok && forallb success outs)
       | Raise e => Raise e
       | OutOfFuel => OutOfFuel
       end,
       snd (probe_all env fuel accounts w)).
Proof.
  induction accounts as [ | acct rest IH]; intros overall_ok w.
  - simpl. now rewrite andb_true_r.
  - rewrite run_accounts_cons. cbn [probe_all]. unfold bind. cbn [logging].
    set (w1 := record _ 0 w).
    destruct (run_for_account env fuel acct w1) as [[o | e | ] w2]; try reflexivity.
    destruct (report env acct o w2) as [[[] | e | ] w3]; try reflexivity.
    rewrite IH.
    destruct (probe_all env fuel rest w3) as [[outs | e | ] w4]; cbn [fst snd];
      try reflexivity.
    cbn [ret fst snd forallb]. now rewrite andb_assoc.
Qed.

Lemma main_eq env fuel config account verbose w :
  main env fuel config account verbose w =
  let w0 := record (ELogSetup verbose) 0 w in
  match parse_config env config account w0 with
  | (Return accounts, w1) =>
      bind (run_accounts env fuel accounts true)
        (fun overall_ok => ret (if (overall_ok : bool) then 0 else 1)) w1
  | (Raise e, w1) => (Return 2, record (ELog ERROR "Config error: %s" [LExn e]) 0 w1)
  | (OutOfFuel, w1) => (OutOfFuel, w1)
  end.
Proof.
  unfold main. unfold bind at 1. cbn [setup_logging]. cbv zeta.
  set (w0 := record (ELogSetup verbose) 0 w).
  unfold bind at 1. unfold try_except. unfold bind at 1.
  destruct (parse_config env config account w0) as [[accounts | e | ] w1];
    reflexivity.
Qed.


(** [probe_all] keeps one outcome per account. *)
Lemma probe_all_length env fuel accounts :
  forall w outs w',
    probe_all env fuel accounts w = (Return outs, w') ->
    List.length outs = List.length accounts.
Proof.
  induction accounts as [ | acct rest IH]; intros w outs w' H.
  - injection H as <- _. reflexivity.
  - cbn [probe_all] in H.
    apply bind_inv in H as [_ [w1 [_ H]]].
    apply bind_inv in H as [o [w2 [_ H]]].
    apply bind_inv in H as [_ [w3 [_ H]]].
    apply bind_inv in H as [os [w4 [Hos H]]].
    injection H as <- _. simpl. f_equal. eapply IH; eauto.
Qed.


(** ** Validation of the configuration *)

Ltac invert_rbind H :=
  repeat match type of H with
         | rbind ?m _ = Return _ =>
             let E := fresh "E" in
             destruct m eqn:E; cbn [rbind] in H;
             [ | discriminate H | discriminate H]
         | (if ?b then _ else _) = Return _ =>
             let E := fresh "E" in
             destruct b eqn:E; try discriminate H
         end.

(** An account that [parse_config] lets through has non-empty hosts. *)
Lemma parse_account_hosts defaults raw a :
  parse_account defaults raw = Return a -> has_hosts a.
Proof.
  unfold parse_account. intros H. cbv zeta in H. invert_rbind H.
  injection H as <-. split; cbn [smtp imap smtp_host imap_host];
    apply String.eqb_neq; assumption.
Qed.

Lemma parse_accounts_hosts defaults sel raws :
  forall acc accounts,
    Forall has_hosts acc ->
    parse_accounts defaults sel raws acc = Return accounts ->
    Forall has_hosts accounts.
Proof.
  induction raws as [ | raw rest IH]; intros acc accounts Hacc H.
  - injection H as <-. exact Hacc.
  - cbn [parse_accounts] in H.
    destruct (skipped sel raw) as [[ | ] | | ]; cbn [rbind] in H; try discriminate.
    + eapply IH; eauto.
    + destruct (parse_account defaults raw) as [a | | ] eqn:Ea; cbn [rbind] in H;
        try discriminate.
      eapply IH; [ | exact H]. apply Forall_app. split; [exact Hacc | ].
      constructor; [ | constructor]. eapply parse_account_hosts; eauto.
Qed.

Lemma parse_document_hosts loaded sel accounts :
  parse_document loaded sel = Return accounts -> Forall has_hosts accounts.
Proof.
  unfold parse_document. intros H. invert_rbind H.
  assert (Ha : Forall has_hosts a2)
    by (eapply parse_accounts_hosts; [constructor | eassumption]).
  destruct sel as [[ | s l] | ]; [ | destruct a2; [discriminate | ] | ];
    injection H as <-; exact Ha.
Qed.

Lemma parse_config_hosts env path sel w accounts w1 :
  parse_config env path sel w = (Return accounts, w1) -> Forall has_hosts accounts.
Proof.
  unfold parse_config. intros H.
  apply bind_inv in H as [loaded [wa [_ H]]].
  apply bind_inv in H as [result [wb [Hdoc H]]].
  apply bind_inv in H as [redacted [wc [_ H]]].
  apply bind_inv in H as [[] [wd [_ H]]].
  injection H as <- _. unfold lift in Hdoc. injection Hdoc as Hdoc _.
  eapply parse_document_hosts; eauto.
Qed.

Lemma emits_parse_config env path sel :
  emits not_pipeline (parse_config env path sel).
Proof. unfold parse_config. emits_all. Qed.

Lemma check_fields_missing acct w :
  truthy (from_addr (smtp acct)) = false \/ truthy (to_addr (smtp acct)) = false ->
  exists field, check_fields acct w = (Raise (missing_field acct field), w).
Proof.
  unfold check_fields. intros [H | H].
  - rewrite H. eexists. reflexivity.
  - rewrite H. destruct (truthy (from_addr (smtp acct))); eexists; reflexivity.
Qed.

(** C6 fails as stated.  With account A complete and account B without a
    sender address, [parse_config] accepts the configuration, the pipeline
    of A runs (its mail is sent), and only then [run_for_account] raises
    [ValueError] for B: the exception leaves [main], so the exit status is
    1 and not 2.  With an account whose [smtp] mapping has no [host],
    [str(None)] makes the host ["None"], which passes the check, and the
    pipeline runs against that name. *)
Lemma missing_fields_not_rejected :
  let out := main (with_config sender_missing_config working_env) 3 "config.yml"
               None false start in
  let out' := main (with_config host_missing_config working_env) 3 "config.yml"
                None false start in
  fst out = Raise (Exn ValueError "Account B: missing required field smtp.from")
  /\ exit_status (fst out) = Some 1
  /\ existsb is_sendmail (history (snd out)) = true
  /\ fst out' = Return 1
  /\ In (ECall (SmtpSSL "None" 465 30) (Some unknown_host_error)) (history (snd out')).
Proof.
  repeat split; try reflexivity.
  vm_compute. repeat first [left; reflexivity | right].
Qed.

(** [parse_config] either raises, and then [main] returns 2 having caused
    nothing but logging and the reading of the file, or it returns accounts
    that all have non-empty hosts, which [main] then probes. *)
Lemma parse_config_validates_hosts env fuel config account verbose w :
  let w0 := record (ELogSetup verbose) 0 w in
  (exists e w1 evs,
      parse_config env config account w0 = (Raise e, w1)
      /\ main env fuel config account verbose w
         = (Return 2, record (ELog ERROR "Config error: %s" [LExn e]) 0 w1)
      /\ history (record (ELog ERROR "Config error: %s" [LExn e]) 0 w1)
         = (history w ++ evs)%list
      /\ forallb (fun ev => negb (is_pipeline_event ev)) evs = true)
  \/ (exists accounts w1,
        parse_config env config account w0 = (Return accounts, w1)
        /\ Forall has_hosts accounts
        /\ main env fuel config account verbose w
           = bind (run_accounts env fuel accounts true)
               (fun overall_ok => ret (if (overall_ok : bool) then 0 else 1)) w1).
Proof.
  intros w0.
  pose proof (main_eq env fuel config account verbose w) as Hmain.
  cbv zeta in Hmain. fold w0 in Hmain.
  pose proof (parse_config_fuel env config account w0) as Hfuel.
  destruct (emits_parse_config env config account w0) as [evs [Hh [Hp _]]].
  destruct (parse_config env config account w0) as [[accounts | e | ] w1] eqn:E;
    [ | | now elim Hfuel].
  - right. exists accounts, w1. repeat split; auto.
    eapply parse_config_hosts; eauto.
  - left. exists e, w1.
    exists (ELogSetup verbose :: evs ++ [ELog ERROR "Config error: %s" [LExn e]])%list.
    repeat split; auto.
    + cbn [snd] in Hh. rewrite history_record, Hh. unfold w0.
      rewrite history_record, <- !app_assoc. reflexivity.
    + cbn [forallb is_pipeline_event negb andb]. rewrite forallb_app.
      cbn [forallb is_pipeline_event negb andb]. rewrite andb_true_r.
      rewrite forallb_forall. rewrite Forall_forall in Hp.
      intros ev Hev. apply Hp in Hev. unfold not_pipeline in Hev. now rewrite Hev.
Qed.

(** The hosts of a parsed account are the configured ones, as strings. *)
Lemma parse_account_configured defaults raw a merged :
  parse_account defaults raw = Return a ->
  deep_merge defaults raw = Return merged ->
  (forall h, configured_host "smtp" merged = Return h -> smtp_host (smtp a) = py_str h)
  /\ (forall h, configured_host "imap" merged = Return h -> imap_host (imap a) = py_str h).
Proof.
  unfold parse_account, configured_host. intros H Hm. rewrite Hm in H.
  cbn [rbind] in H. cbv zeta in H.
  destruct (py_get merged "smtp" PNone) as [xs | | ] eqn:Exs;
    cbn [rbind] in H |- *; try discriminate.
  destruct (py_get merged "imap" PNone) as [xi | | ] eqn:Exi;
    cbn [rbind] in H |- *; try discriminate.
  invert_rbind H.
  injection H as <-. cbn [smtp imap smtp_host imap_host].
  split; intros h Hh; congruence.
Qed.

(** Every selected entry of the document becomes one of the accounts. *)
Lemma parse_accounts_each defaults sel raws :
  forall acc accounts raw,
    parse_accounts defaults sel raws acc = Return accounts ->
    In raw raws -> skipped sel raw = Return false ->
    exists a, parse_account defaults raw = Return a.
Proof.
  induction raws as [ | r rest IH]; intros acc accounts raw H Hin Hsel; [easy | ].
  cbn [parse_accounts] in H.
  destruct (skipped sel r) as [[ | ] | | ] eqn:Es; cbn [rbind] in H; try discriminate.
  - destruct Hin as [<- | Hin]; [congruence | eauto].
  - destruct (parse_account defaults r) as [a | | ] eqn:Ea; cbn [rbind] in H;
      try discriminate.
    destruct Hin as [<- | Hin]; eauto.
Qed.

Lemma parse_document_each loaded sel accounts defaults listed raws raw :
  parse_document loaded sel = Return accounts ->
  py_get (py_or loaded (PDict [])) "defaults" (PDict []) = Return defaults ->
  py_get (py_or loaded (PDict [])) "accounts" (PList []) = Return listed ->
  py_iter listed = Return raws ->
  In raw raws -> skipped sel raw = Return false ->
  exists a, parse_account defaults raw = Return a /\ has_hosts a.
Proof.
  unfold parse_document. intros H Hd Ha Hi Hin Hsel.
  rewrite Hd, Ha in H. cbn [rbind] in H.
  destruct (negb (truthy listed)); [discriminate | ].
  rewrite Hi in H. cbn [rbind] in H.
  destruct (parse_accounts defaults sel raws []) as [result | | ] eqn:Ep;
    cbn [rbind] in H; try discriminate.
  destruct (parse_accounts_each _ _ _ _ _ _ Ep Hin Hsel) as [a Ea].
  exists a. split; [exact Ea | ]. eapply parse_account_hosts; eauto.
Qed.

(** C6 (amended): when the smtp host or the imap host of a selected
    account is the empty string, [parse_config] raises and [main] returns 2
    having caused nothing but logging and the reading of the file: no
    account's send or poll has run.  A missing or empty sender or recipient
    address is found when the pipeline of that account starts:
    [run_for_account] raises [ValueError] before that account sends or
    polls, leaving the world as it was. *)
Theorem empty_host_aborts_run env fuel config account verbose w loaded :
  env_load env (history w ++ [ELogSetup verbose])%list config = inr loaded ->
  has_empty_host loaded account ->
  (exists w' evs,
      main env fuel config account verbose w = (Return 2, w')
      /\ history w' = (history w ++ evs)%list
      /\ forallb (fun ev => negb (is_pipeline_event ev)) evs = true)
  /\ (forall acct w',
        truthy (from_addr (smtp acct)) = false
        \/ truthy (to_addr (smtp acct)) = false ->
        exists field,
          run_for_account env fuel acct w' = (Raise (missing_field acct field), w')).
Proof.
  intros Hload [defaults [listed [raws [raw [merged
    [Hd [Ha [Hi [Hin [Hsel [Hm Hhost]]]]]]]]]]].
  split.
  - destruct (parse_config_validates_hosts env fuel config account verbose w)
      as [[e [w1 [evs [_ [Hmain [Hh Hp]]]]]] | [accounts [w1 [Hparse _]]]].
    + eexists. exists evs. eauto.
    + exfalso. unfold parse_config in Hparse.
      apply bind_inv in Hparse as [loaded' [wa [Hl Hparse]]].
      unfold load_yaml in Hl. rewrite history_record in Hl. rewrite Hload in Hl.
      injection Hl as <- _.
      apply bind_inv in Hparse as [result [wb [Hdoc _]]].
      unfold lift in Hdoc. injection Hdoc as Hdoc _.
      destruct (parse_document_each _ _ _ _ _ _ _ Hdoc Hd Ha Hi Hin Hsel)
        as [a [Ea [Hs Himap]]].
      destruct (parse_account_configured _ _ _ _ Ea Hm) as [Hsmtp Himap'].
      destruct Hhost as [Hhost | Hhost].
      * apply Hs. now rewrite (Hsmtp _ Hhost).
      * apply Himap. now rewrite (Himap' _ Hhost).
  - intros acct w' H. destruct (check_fields_missing acct w' H) as [field Hf].
    exists field. unfold run_for_account. now rewrite (bind_raise _ _ _ _ _ Hf).
Qed.

Lemma empty_host_aborts_run_witness :
  (exists w' evs,
      main (with_config host_empty_config working_env) 3 "config.yml" None false start
      = (Return 2, w')
      /\ history w' = (history start ++ evs)%list
      /\ forallb (fun ev => negb (is_pipeline_event ev)) evs = true)
  /\ (forall acct w',
        truthy (from_addr (smtp acct)) = false
        \/ truthy (to_addr (smtp acct)) = false ->
        exists field,
          run_for_account (with_config host_empty_config working_env) 3 acct w'
          = (Raise (missing_field acct field), w')).
Proof.
  apply (empty_host_aborts_run (with_config host_empty_config working_env) 3
           "config.yml" None false start host_empty_config).
  - reflexivity.
  - do 5 eexists.
    split; [reflexivity | ]. split; [reflexivity | ]. split; [reflexivity | ].
    split; [left; reflexivity | ]. split; [reflexivity | ].
    split; [reflexivity | left; reflexivity].
Defined.

(** An smtp host that is the empty string: the run ends with 2 after
    reading the file, and nothing else has happened. *)
Example empty_host_rejected :
  main (with_config host_empty_config working_env) 3 "config.yml" None false start
  = (Return 2,
     {| now := 0;
        history :=
          [ ELogSetup false;
            ELoad "config.yml" (inr host_empty_config);
            ELog ERROR "Config error: %s"
              [LExn (Exn ValueError
                       "Missing required config value: smtp.host for account A")] ] |}).
Proof. reflexivity. Qed.

(** An account without recipient address: [run_for_account] raises at
    once. *)
Example missing_recipient_raises :
  let acct :=
    {| name := "B";
       smtp := {| smtp_host := "mx.example.org"; smtp_port := 465;
                  smtp_security := "ssl"; smtp_username := PNone;
                  smtp_password := PNone; from_addr := PStr "probe@example.org";
                  to_addr := PNone; smtp_timeout := 30 |};
       imap := sample_imap;
       poll := {| timeout_seconds := 10; interval_seconds := 5 |};
       delete_on_success := true; kuma := {| push_url := PNone |} |} in
  run_for_account working_env 3 acct start
  = (Raise (Exn ValueError "Account B: missing required field smtp.to"), start).
Proof. reflexivity. Qed.

(** ** Independence of the accounts *)

(** C7, at the failing input: account B, which has no sender address,
    comes before the complete account A.  [run_for_account] raises
    [ValueError] for B, nothing in [main] catches it, and A is never
    probed: its run is not announced and no mail is sent. *)
Theorem missing_sender_aborts_run :
  let out := main (with_config sender_missing_first_config working_env) 3
               "config.yml" None false start in
  fst out = Raise (Exn ValueError "Account B: missing required field smtp.from")
  /\ existsb (starts_account "B") (history (snd out)) = true
  /\ existsb (starts_account "A") (history (snd out)) = false
  /\ existsb is_sendmail (history (snd out)) = false.
Proof. repeat split; reflexivity. Qed.

(** With the accounts in the other order A is probed, successfully,
    before B ends the run. *)
Example complete_account_first :
  let out := main (with_config sender_missing_config working_env) 3
               "config.yml" None false start in
  fst out = Raise (Exn ValueError "Account B: missing required field smtp.from")
  /\ existsb (starts_account "A") (history (snd out)) = true
  /\ existsb is_sendmail (history (snd out)) = true.
Proof. repeat split; reflexivity. Qed.

(** ** What reaches the log of the configuration *)

(** When [parse_config] returns, it has appended exactly two events: the
    reading of the file and the debug line, whose argument is the
    redaction of the loaded document. *)
Lemma parse_config_logs_redaction env path sel w accounts w1 :
  parse_config env path sel w = (Return accounts, w1) ->
  exists loaded redacted,
    redact_config (py_or loaded (PDict [])) = Return redacted
    /\ history w1
       = (history w ++ [ELoad path (inr loaded);
                        ELog DEBUG "Loaded config: %s" [LVal redacted]])%list.
Proof.
  unfold parse_config. intros H.
  apply bind_inv in H as [loaded [wa [Hl H]]].
  apply bind_inv in H as [result [wb [Hdoc H]]].
  apply bind_inv in H as [redacted [wc [Hr H]]].
  apply bind_inv in H as [[] [wd [Hlog H]]].
  injection H as _ <-. unfold lift in Hdoc, Hr.
  injection Hdoc as _ <-. injection Hr as Hr <-.
  unfold logging in Hlog. injection Hlog as <-.
  unfold load_yaml in Hl.
  destruct (env_load env (history w) path) as [e | v] eqn:El; [discriminate | ].
  injection Hl as <- <-.
  exists v, redacted. split; [exact Hr | ].
  rewrite !history_record, <- app_assoc. reflexivity.
Qed.

(** A mapping key that is not a string makes [redact_config] raise inside
    [parse_config], after the accounts were parsed: the run ends with 2. *)
Example int_key_config_run :
  parse_document int_key_config None
  = Return [ {| name := "A";
                smtp := {| smtp_host := "mx.example.org"; smtp_port := 465;
                           smtp_security := "ssl"; smtp_username := PNone;
                           smtp_password := PNone;
                           from_addr := PStr "probe@example.org";
                           to_addr := PStr "probe@example.org";
                           smtp_timeout := 30 |};
                imap := {| imap_host := "mx.example.org"; imap_port := 993;
                           imap_security := "ssl"; imap_username := PNone;
                           imap_password := PNone; mailbox := "INBOX";
                           imap_timeout := 30 |};
                poll := {| timeout_seconds := 120; interval_seconds := 5 |};
                delete_on_success := true;
                kuma := {| push_url := PNone |} |} ]
  /\ main (with_config int_key_config working_env) 3 "config.yml" None false start
     = (Return 2,
        {| now := 0;
           history :=
             [ ELogSetup false;
               ELoad "config.yml" (inr int_key_config);
               ELog ERROR "Config error: %s"
                 [LExn (Exn AttributeError
                          "'int' object has no attribute 'lower'")] ] |}).
Proof. split; reflexivity. Qed.

(** ** The errors that [run_for_account] does catch *)

Lemma raises_only_weaken {A} (P Q : exn -> Prop) (m : M A) :
  (forall e, P e -> Q e) -> raises_only P m -> raises_only Q m.
Proof. intros H Hm w e E. eauto. Qed.
















(** * Further properties *)

(** ** [deep_merge] *)

Lemma key_eqb_refl k : key_eqb k k = true.
Proof.
  destruct k as [ | b | z | s]; simpl; auto using Z.eqb_refl, String.eqb_refl.
Qed.

Lemma key_eqb_trans a b c :
  key_eqb a b = true -> key_eqb b c = true -> key_eqb a c = true.
Proof.
  destruct a as [ | x | x | x], b as [ | y | y | y], c as [ | z | z | z]; simpl;
    try discriminate; auto;
    rewrite ?Z.eqb_eq, ?String.eqb_eq; intros; subst; auto;
    try (destruct x, y; simpl in *; congruence);
    try (destruct x; simpl in *; congruence);
    try (destruct y; simpl in *; congruence).
Qed.

Lemma key_eqb_false_l a b c :
  key_eqb a b = true -> key_eqb a c = false -> key_eqb b c = false.
Proof.
  intros Hab Hac. destruct (key_eqb b c) eqn:E; [ | reflexivity].
  rewrite (key_eqb_trans _ _ _ Hab E) in Hac. discriminate.
Qed.

(** Equal keys find the same item. *)
Lemma dict_find_eqb d k q : key_eqb k q = true -> dict_find d k = dict_find d q.
Proof.
  intros H. induction d as [ | [k' v] d IH]; simpl; [reflexivity | ].
  destruct (key_eqb k' k) eqn:E1, (key_eqb k' q) eqn:E2; auto.
  - rewrite (key_eqb_trans _ _ _ E1 H) in E2. discriminate.
  - rewrite key_eqb_sym in H. rewrite (key_eqb_trans _ _ _ E2 H) in E1. discriminate.
Qed.

(** Reading after writing. *)
Lemma dict_find_set d k v q :
  dict_find (dict_set d k v) q = if key_eqb k q then Some v else dict_find d q.
Proof.
  induction d as [ | [k' v'] d IH]; simpl.
  - reflexivity.
  - destruct (key_eqb k' k) eqn:E1; simpl.
    + destruct (key_eqb k' q) eqn:E2.
      * rewrite key_eqb_sym in E1. now rewrite (key_eqb_trans _ _ _ E1 E2).
      * destruct (key_eqb k q) eqn:E3; [ | reflexivity].
        rewrite (key_eqb_trans _ _ _ E1 E3) in E2. discriminate.
    + destruct (key_eqb k' q) eqn:E2; [ | exact IH].
      destruct (key_eqb k q) eqn:E3; [ | reflexivity].
      rewrite key_eqb_sym in E3. rewrite (key_eqb_trans _ _ _ E2 E3) in E1.
      discriminate.
Qed.

Lemma fresh_key_find k d : fresh_key k d = true -> dict_find d k = None.
Proof.
  induction d as [ | [k' v] d IH]; simpl; [reflexivity | ].
  intros H. apply andb_prop in H as [H1 H2]. apply negb_true_iff in H1.
  now rewrite H1, IH.
Qed.

Lemma fresh_key_eqb k q d :
  key_eqb k q = true -> fresh_key k d = true -> fresh_key q d = true.
Proof.
  intros H. induction d as [ | [k' v] d IH]; simpl; [reflexivity | ].
  intros Hf. apply andb_prop in Hf as [H1 H2]. rewrite (IH H2), andb_true_r.
  apply negb_true_iff in H1. apply negb_true_iff.
  destruct (key_eqb k' q) eqn:E; [ | reflexivity].
  rewrite key_eqb_sym in H. rewrite (key_eqb_trans _ _ _ E H) in H1. discriminate.
Qed.

Lemma deep_merge_dicts a b :
  deep_merge (PDict a) (PDict b)
  = (let? out := merge_items b a in Return (PDict out)).
Proof. reflexivity. Qed.

Lemma merge_items_cons k v rest out :
  merge_items ((k, v) :: rest) out =
  match v, dict_find out k with
  | PDict _, Some (PDict od) =>
      let? m := deep_merge (PDict od) v in merge_items rest (dict_set out k m)
  | _, _ => merge_items rest (dict_set out k v)
  end.
Proof. reflexivity. Qed.

(** Merging two dictionaries never raises. *)
Lemma deep_merge_returns b :
  forall vd a, b = PDict vd -> exists m, deep_merge (PDict a) b = Return (PDict m).
Proof.
  induction b as [ | x | x | x | l _ | items IH] using pyval_nested_ind;
    intros vd a E; try discriminate.
  injection E as <-. rewrite deep_merge_dicts.
  assert (H : exists m, merge_items items a = Return m);
    [ | destruct H as [m ->]; now exists m].
  revert a. induction IH as [ | [k v] rest Hv _ IHrest]; intros a;
    [now exists a | ].
  rewrite merge_items_cons. cbn [snd] in Hv.
  destruct v as [ | ? | ? | ? | ? | vd]; try apply IHrest.
  destruct (dict_find a k) as [[ | ? | ? | ? | ? | od] | ]; try apply IHrest.
  destruct (Hv vd od eq_refl) as [m ->]. cbn [rbind]. apply IHrest.
Qed.

(** The value the merge stores under a key of [b]. *)
Lemma merge_items_find b :
  forall out m,
    distinct_keys b = true ->
    merge_items b out = Return m ->
    forall q,
      match dict_find b q with
      | None => dict_find m q = dict_find out q
      | Some (PDict vd) =>
          match dict_find out q with
          | Some (PDict od) =>
              exists x, deep_merge (PDict od) (PDict vd) = Return x
                        /\ dict_find m q = Some x
          | _ => dict_find m q = Some (PDict vd)
          end
      | Some v => dict_find m q = Some v
      end.
Proof.
  induction b as [ | [k v] rest IH]; intros out m Hd Hm q.
  - injection Hm as <-. reflexivity.
  - cbn [distinct_keys] in Hd. apply andb_prop in Hd as [Hfresh Hd].
    rewrite merge_items_cons in Hm. cbn [dict_find].
    destruct (key_eqb k q) eqn:Ekq.
    + (* the item of [q]: nothing later in [rest] touches it *)
      assert (Hrest : dict_find rest q = None)
        by (apply fresh_key_find; eapply fresh_key_eqb; eauto).
      assert (Hkeep : forall out' x,
                 merge_items rest (dict_set out k x) = Return out' ->
                 dict_find out' q = Some x).
      { intros out' x E. specialize (IH _ _ Hd E q). rewrite Hrest in IH.
        rewrite IH, dict_find_set, Ekq. reflexivity. }
      rewrite <- (dict_find_eqb out k q Ekq).
      destruct v as [ | ? | ? | ? | ? | vd]; try (eapply Hkeep; eassumption).
      destruct (dict_find out k) as [[ | ? | ? | ? | ? | od] | ];
        try (eapply Hkeep; eassumption).
      destruct (deep_merge (PDict od) (PDict vd)) as [x | | ] eqn:Ex;
        cbn [rbind] in Hm; try discriminate.
      exists x. split; [reflexivity | eapply Hkeep; eassumption].
    + (* another key: the step leaves the item of [q] alone *)
      assert (Hstep : forall out' x,
                 merge_items rest (dict_set out k x) = Return out' ->
                 match dict_find rest q with
                 | None => dict_find out' q = dict_find out q
                 | Some (PDict vd) =>
                     match dict_find out q with
                     | Some (PDict od) =>
                         exists y, deep_merge (PDict od) (PDict vd) = Return y
                                   /\ dict_find out' q = Some y
                     | _ => dict_find out' q = Some (PDict vd)
                     end
                 | Some v0 => dict_find out' q = Some v0
                 end).
      { intros out' x E. specialize (IH _ _ Hd E q).
        rewrite dict_find_set, Ekq in IH. exact IH. }
      destruct v as [ | ? | ? | ? | ? | vd]; try (eapply Hstep; eassumption).
      destruct (dict_find out k) as [[ | ? | ? | ? | ? | od] | ];
        try (eapply Hstep; eassumption).
      destruct (deep_merge (PDict od) (PDict vd)) as [x | | ] eqn:Ex;
        cbn [rbind] in Hm; try discriminate.
      eapply Hstep; eassumption.
Qed.

(** X1: merging an account entry [b] (a dictionary with distinct keys)
    into a dictionary [a] never raises, and the result holds, under every
    key: the value of [a] when [b] has no such key; the recursive merge of
    the two values when both are dictionaries; and otherwise the value of
    [b], which replaces that of [a]. *)
Theorem deep_merge_overrides a b :
  distinct_keys b = true ->
  exists m,
    deep_merge (PDict a) (PDict b) = Return (PDict m)
    /\ forall q,
         match dict_find b q with
         | None => dict_find m q = dict_find a q
         | Some (PDict vd) =>
             match dict_find a q with
             | Some (PDict od) =>
                 exists x, deep_merge (PDict od) (PDict vd) = Return x
                           /\ dict_find m q = Some x
             | _ => dict_find m q = Some (PDict vd)
             end
         | Some v => dict_find m q = Some v
         end.
Proof.
  intros Hd. destruct (deep_merge_returns (PDict b) b a eq_refl) as [m E].
  exists m. split; [exact E | ].
  rewrite deep_merge_dicts in E.
  destruct (merge_items b a) as [out | | ] eqn:Em; try discriminate.
  injection E as <-. now apply merge_items_find.
Qed.

Lemma deep_merge_overrides_witness :
  exists m,
    deep_merge (PDict sample_defaults) (PDict sample_override) = Return (PDict m)
    /\ forall q,
         match dict_find sample_override q with
         | None => dict_find m q = dict_find sample_defaults q
         | Some (PDict vd) =>
             match dict_find sample_defaults q with
             | Some (PDict od) =>
                 exists x, deep_merge (PDict od) (PDict vd) = Return x
                           /\ dict_find m q = Some x
             | _ => dict_find m q = Some (PDict vd)
             end
         | Some v => dict_find m q = Some v
         end.
Proof. apply (deep_merge_overrides sample_defaults sample_override). reflexivity. Defined.

(** The sample merged: the port of the entry wins, the host of the
    defaults stays, the new keys go last. *)
Example deep_merge_sample :
  deep_merge (PDict sample_defaults) (PDict sample_override)
  = Return
      (PDict [(KStr "smtp", PDict [(KStr "host", PStr "mx.example.org");
                                   (KStr "port", PInt 587);
                                   (KStr "from", PStr "probe@example.org")]);
              (KStr "delete_on_success", PBool false);
              (KStr "name", PStr "A")]).
Proof. reflexivity. Qed.

Lemma merge_items_fresh b :
  forall acc,
    distinct_keys b = true ->
    Forall (fun kv => fresh_key (fst kv) acc = true) b ->
    merge_items b acc = Return (acc ++ b)%list.
Proof.
  induction b as [ | [k v] rest IH]; intros acc Hd Hf.
  - now rewrite app_nil_r.
  - cbn [distinct_keys] in Hd. apply andb_prop in Hd as [Hk Hd].
    inversion Hf as [ | ? ? Hfk Hf']; subst. cbn [fst] in Hfk.
    rewrite merge_items_cons, (fresh_key_find _ _ Hfk), (dict_set_fresh _ _ _ Hfk).
    assert (E : merge_items rest (acc ++ [(k, v)])%list
                = Return ((acc ++ [(k, v)]) ++ rest)%list).
    { apply IH; [exact Hd | ].
      clear - Hf' Hk. induction rest as [ | [k' y] rest IHr]; constructor.
      - inversion Hf' as [ | ? ? Hh Ht]; subst. cbn [fst] in *.
        rewrite fresh_key_app, Hh. cbn [fresh_key] in Hk |- *.
        apply andb_prop in Hk as [Hk1 _]. rewrite key_eqb_sym, Hk1. reflexivity.
      - inversion Hf' as [ | ? ? Hh Ht]; subst. cbn [fresh_key] in Hk.
        apply andb_prop in Hk as [_ Hk2]. now apply IHr. }
    rewrite <- app_assoc in E. destruct v; exact E.
Qed.

(** X2: without defaults the entry is taken as it is, and an empty entry
    leaves the defaults as they are: for dictionaries, the empty dictionary
    is neutral on both sides of [deep_merge]. *)
Theorem deep_merge_neutral d :
  distinct_keys d = true ->
  deep_merge (PDict []) (PDict d) = Return (PDict d)
  /\ deep_merge (PDict d) (PDict []) = Return (PDict d).
Proof.
  intros Hd. split; [ | reflexivity].
  rewrite deep_merge_dicts, (merge_items_fresh d [] Hd (all_fresh_nil d)).
  reflexivity.
Qed.

Lemma deep_merge_neutral_witness :
  deep_merge (PDict []) (PDict sample_override) = Return (PDict sample_override)
  /\ deep_merge (PDict sample_override) (PDict []) = Return (PDict sample_override).
Proof. apply (deep_merge_neutral sample_override). reflexivity. Defined.

(** ** [redact_config], again *)

Lemma fresh_key_keys k d d' :
  map fst d' = map fst d -> fresh_key k d' = fresh_key k d.
Proof.
  revert d'. induction d as [ | [k1 v1] d IH]; intros [ | [k2 v2] d'] H;
    try discriminate; [reflexivity | ].
  injection H as -> H. simpl. now rewrite (IH _ H).
Qed.

Lemma distinct_keys_keys d d' :
  map fst d' = map fst d -> distinct_keys d' = distinct_keys d.
Proof.
  revert d'. induction d as [ | [k1 v1] d IH]; intros [ | [k2 v2] d'] H;
    try discriminate; [reflexivity | ].
  injection H as -> H. simpl. now rewrite (IH _ H), (fresh_key_keys _ _ _ H).
Qed.

Lemma redacted_entry_functional d :
  forall x y,
    Forall2 redacted_entry d x -> Forall2 redacted_entry d y -> x = y.
Proof.
  induction d as [ | [k v] d IH]; intros x y Hx Hy;
    inversion Hx as [ | ? [k1 v1] ? x' [Hk1 Hv1] Hx']; subst;
    inversion Hy as [ | ? [k2 v2] ? y' [Hk2 Hv2] Hy']; subst; [reflexivity | ].
  cbn [fst snd] in *. subst. f_equal; [ | now apply IH].
  f_equal. destruct (sensitive k); congruence.
Qed.

(** Redacting a second time changes nothing, and the redacted value is
    again a well-formed value with string keys. *)
Lemma redact_config_stable obj :
  string_keys obj = true -> well_formed obj = true ->
  forall r,
    redact_config obj = Return r ->
    redact_config r = Return r /\ string_keys r = true /\ well_formed r = true.
Proof.
  induction obj as [ | x | x | x | l IH | d IH] using pyval_nested_ind;
    intros Hs Hw r E;
    try (simpl in E; injection E as <-; repeat split; reflexivity).
  - destruct (redact_config_list_inv _ _ E) as [l' [-> F]].
    simpl in Hs, Hw. rewrite forallb_forall in Hs, Hw.
    assert (H : redact_each l' = Return l'
                /\ forallb string_keys l' = true /\ forallb well_formed l' = true).
    { clear E. induction F as [ | x x' l l' Hx _ IHF]; [repeat split | ].
      inversion IH as [ | ? ? Hxx IH']; subst.
      destruct (Hxx (Hs _ (or_introl eq_refl)) (Hw _ (or_introl eq_refl)) _ Hx)
        as [E1 [E2 E3]].
      destruct IHF as [E4 [E5 E6]]; auto.
      - intros y Hy. apply Hs. now right.
      - intros y Hy. apply Hw. now right.
      - rewrite redact_each_cons, E1, E4. simpl. rewrite E2, E3, E5, E6.
        repeat split. }
    destruct H as [E1 [E2 E3]]. rewrite redact_config_list, E1.
    repeat split; assumption.
  - destruct (redact_config_dict_inv _ _ Hs Hw E) as [d' [-> F]].
    pose proof (Forall2_redacted_keys _ _ F) as Hkeys.
    assert (H : Forall2 redacted_entry d' d'
                /\ forallb (fun kv => is_str_key (fst kv) && string_keys (snd kv)) d'
                   = true
                /\ forallb (fun kv => well_formed (snd kv)) d' = true).
    { simpl in Hs, Hw. apply andb_prop in Hw as [_ Hw].
      rewrite forallb_forall in Hs, Hw. clear E Hkeys.
      induction F as [ | [k v] [k' v'] d d' [Hk Hv] _ IHF]; [repeat split; constructor | ].
      cbn [fst snd] in Hk, Hv. subst k'.
      inversion IH as [ | ? ? Hvv IH']; subst. cbn [snd] in Hvv.
      pose proof (Hs _ (or_introl eq_refl)) as Hsk. cbn [fst snd] in Hsk.
      apply andb_prop in Hsk as [Hsk Hsv].
      pose proof (Hw _ (or_introl eq_refl)) as Hwv. cbn [snd] in Hwv.
      destruct IHF as [E4 [E5 E6]]; auto.
      - intros y Hy. apply Hs. now right.
      - intros y Hy. apply Hw. now right.
      - cbn [forallb fst snd]. rewrite E5, E6, Hsk.
        destruct (sensitive k) eqn:Esens.
        + subst v'. repeat split; [ | reflexivity..].
          constructor; [ | exact E4]. split; [reflexivity | ].
          cbn [fst snd]. now rewrite Esens.
        + destruct (Hvv Hsv Hwv _ Hv) as [E1 [E2 E3]]. rewrite E2, E3.
          repeat split. constructor; [ | exact E4]. split; [reflexivity | ].
          cbn [fst snd]. now rewrite Esens. }
    destruct H as [Hself [Hs' Hw']].
    assert (Hd' : distinct_keys d' = true).
    { rewrite (distinct_keys_keys _ _ Hkeys). simpl in Hw.
      now apply andb_prop in Hw as [? _]. }
    assert (Hs2 : string_keys (PDict d') = true) by exact Hs'.
    assert (Hw2 : well_formed (PDict d') = true)
      by (simpl; now rewrite Hd', Hw').
    destruct (redact_config_total _ Hs2 Hw2) as [r2 E2].
    destruct (redact_config_dict_inv _ _ Hs2 Hw2 E2) as [d2 [-> F2]].
    rewrite (redacted_entry_functional _ _ _ F2 Hself) in E2.
    repeat split; assumption.
Qed.

(** X3: redaction is idempotent.  For a configuration with string keys,
    redacting the redacted copy gives the redacted copy again. *)
Theorem redact_config_idempotent obj r :
  string_keys obj = true -> well_formed obj = true ->
  redact_config obj = Return r ->
  redact_config r = Return r.
Proof.
  intros Hs Hw E. now destruct (redact_config_stable obj Hs Hw r E) as [H _].
Qed.

Lemma redact_config_idempotent_witness :
  redact_config
    (PDict [(KStr "accounts",
             PList [PDict [(KStr "name", PStr "A");
                           (KStr "imap",
                            PDict [(KStr "host", PStr "mx.example");
                                   (KStr "Password", PStr REDACTED)])]])])
  = Return
      (PDict [(KStr "accounts",
               PList [PDict [(KStr "name", PStr "A");
                             (KStr "imap",
                              PDict [(KStr "host", PStr "mx.example");
                                     (KStr "Password", PStr REDACTED)])]])]).
Proof.
  apply (redact_config_idempotent sample_config); reflexivity.
Defined.

(** ** Termination *)

Lemma completes_ret {A} (a : A) : completes (ret a).
Proof. intros w. reflexivity. Qed.

Lemma completes_bind {A B} (m : M A) (k : A -> M B) :
  completes m -> (forall a, completes (k a)) -> completes (bind m k).
Proof.
  intros Hm Hk w. unfold bind. specialize (Hm w).
  destruct (m w) as [[a | e | ] w1]; [apply Hk | reflexivity | exact Hm].
Qed.

Lemma completes_try_except {A} (m : M A) c h :
  completes m -> (forall e, completes (h e)) -> completes (try_except m c h).
Proof.
  intros Hm Hh w. unfold try_except. specialize (Hm w).
  destruct (m w) as [[a | e | ] w1]; [reflexivity | | exact Hm].
  destruct (c e); [apply Hh | reflexivity].
Qed.

Lemma completes_try_finally {A} (m : M A) f :
  completes m -> completes f -> completes (try_finally m f).
Proof.
  intros Hm Hf w. unfold try_finally. specialize (Hm w).
  destruct (m w) as [[a | e | ] w1]; [ | | exact Hm];
    specialize (Hf w1); destruct (f w1) as [[[] | e' | ] w2];
    solve [reflexivity | exact Hf].
Qed.

Lemma completes_call env c : completes (call env c).
Proof.
  intros w. unfold call. now destruct (env_call env (history w) c) as [[e | ] d].
Qed.

Lemma completes_query env q : completes (query env q).
Proof.
  intros w. unfold query. now destruct (env_query env (history w) q) as [[e | r] d].
Qed.

Lemma completes_time_sleep env secs : completes (time_sleep env secs).
Proof. intros w. unfold time_sleep. now destruct (secs <? 0). Qed.

Ltac completes_step :=
  lazymatch goal with
  | |- completes (bind _ _) => apply completes_bind; [ | intros ? ]
  | |- completes (try_except _ _ _) => apply completes_try_except; [ | intros ? ]
  | |- completes (try_finally _ _) => apply completes_try_finally
  | |- completes (ret _) => apply completes_ret
  | |- completes (call _ _) => apply completes_call
  | |- completes (query _ _) => apply completes_query
  | |- completes (time_sleep _ _) => apply completes_time_sleep
  | |- completes (if ?b then _ else _) => destruct b
  | |- completes (match ?x with _ => _ end) => destruct x
  | |- completes _ => intros ?; reflexivity
  end.

Lemma completes_search_criteria env crits : completes (search_criteria env crits).
Proof.
  induction crits as [ | crit rest IH]; cbn [search_criteria];
    [apply completes_ret | ].
  repeat first [exact IH | completes_step].
Qed.

Lemma completes_imap_search env mbox token msg_id :
  completes (imap_search_for_token env mbox token msg_id).
Proof.
  unfold imap_search_for_token.
  repeat first [apply completes_search_criteria | completes_step].
Qed.

Lemma completes_open_session env acct : completes (open_session env acct).
Proof.
  unfold open_session, check_fields, build_message, smtp_send, smtp_session,
    imap_connect.
  repeat completes_step.
Qed.

(** One turn of the poll loop returns, and the clock does not go back. *)
Lemma attempt_returns env acct token msg_id found_id w :
  exists r w1,
    try_except
      (f <- imap_search_for_token env (mailbox (imap acct)) token msg_id ;;
       ret (f, bytes_truthy f))
      any_exception
      (fun e =>
         logging DEBUG "%s: search transient error: %s" [LStr (name acct); LExn e] ;;
         ret (found_id, false)) w
    = (Return r, w1)
    /\ now w <= now w1.
Proof.
  unfold try_except, bind.
  pose proof (completes_imap_search env (mailbox (imap acct)) token msg_id w) as Hc.
  destruct (emits_imap_search_for_token env (mailbox (imap acct)) token msg_id w)
    as [evs [_ [_ Hn]]].
  destruct (imap_search_for_token env (mailbox (imap acct)) token msg_id w)
    as [[f | e | ] w1]; cbn [fst snd] in *; [ | | discriminate].
  - eexists. eexists. split; [reflexivity | exact Hn].
  - cbn [any_exception logging ret]. eexists. eexists.
    split; [reflexivity | ]. cbn [record now]. lia.
Qed.

(** The poll loop ends when the fuel covers the time left: each turn that
    goes on sleeps for the interval, and a negative interval ends the loop
    by the [ValueError] of [time.sleep]. *)
Lemma poll_loop_ends env acct token msg_id deadline :
  interval_seconds (poll acct) <> 0 ->
  forall fuel found_id w,
    deadline - now w
    <= 1000 * (Z.of_nat fuel * Z.abs (interval_seconds (poll acct))) ->
    ran_out (fst (poll_loop env fuel acct token msg_id deadline found_id w)) = false.
Proof.
  intros Hint. induction fuel as [ | fuel IH]; intros found_id w Hleft.
  - rewrite poll_loop_done; [reflexivity | ]. simpl in Hleft. lia.
  - destruct (Z.lt_ge_cases (now w) deadline) as [Hnow | Hnow];
      [ | now rewrite poll_loop_done].
    rewrite (poll_loop_unfold _ _ _ _ _ _ _ _ Hnow).
    destruct (attempt_returns env acct token msg_id found_id w)
      as [[f stop] [w1 [E Hn]]].
    rewrite (bind_return _ _ _ _ _ E). cbn [fst snd].
    destruct stop; [reflexivity | ].
    unfold bind at 1. unfold time_sleep.
    destruct (interval_seconds (poll acct) <? 0) eqn:Eneg; [reflexivity | ].
    apply Z.ltb_ge in Eneg. apply IH. cbn [record now].
    rewrite Z.abs_eq in * by assumption.
    pose proof (N2Z.is_nonneg (env_oversleep env (history w1))). nia.
Qed.

Lemma completes_logout env : completes (logout env).
Proof. unfold logout. repeat completes_step. Qed.

(** With an interval other than zero and fuel for the whole timeout, a
    run of [run_for_account] ends. *)
Lemma run_for_account_ends env fuel acct w :
  interval_seconds (poll acct) <> 0 ->
  timeout_seconds (poll acct)
  <= Z.of_nat fuel * Z.abs (interval_seconds (poll acct)) ->
  ran_out (fst (run_for_account env fuel acct w)) = false.
Proof.
  intros Hint Hfuel. rewrite run_for_account_eq. unfold bind.
  pose proof (completes_open_session env acct w) as Hopen.
  destruct (open_session env acct w)
    as [[[failed | [[[token msg_id] deadline] smtp_ms]] | e | ] w1] eqn:E;
    cbn [fst] in Hopen; [reflexivity | | reflexivity | discriminate].
  pose proof (open_session_deadline _ _ _ _ _ _ _ _ E) as Hd.
  unfold try_finally.
  assert (Hpoll : ran_out (fst (poll_and_clean env fuel acct token msg_id deadline
                                  smtp_ms w1)) = false).
  { unfold poll_and_clean, bind.
    pose proof (poll_loop_ends env acct token msg_id deadline Hint fuel None w1)
      as Hp.
    destruct (poll_loop env fuel acct token msg_id deadline None w1)
      as [[found | e | ] w2]; cbn [fst] in Hp;
      [ | reflexivity | apply Hp; nia].
    clear Hp.
    assert (Hc : completes
                   (match found with
                    | Some id =>
                        if String.eqb id "" then
                          logging ERROR "%s: Message not found within timeout (token=%s)"
                            [LStr (name acct); LStr token] ;;
                          ret (false, "IMAP timeout: message not found", Some smtp_ms)
                        else
                          (if delete_on_success acct then
                             try_except
                               (imap_delete env (mailbox (imap acct)) id)
                               any_exception
                               (fun e =>
                                  logging WARNING "%s: Could not delete message id %s: %s"
                                    [LStr (name acct); LBytes found; LExn e])
                           else ret tt) ;;
                          logging INFO "%s: End-to-end success (token=%s)"
                            [LStr (name acct); LStr token] ;;
                          ret (true, "OK", Some smtp_ms)
                    | None =>
                        logging ERROR "%s: Message not found within timeout (token=%s)"
                          [LStr (name acct); LStr token] ;;
                        ret (false, "IMAP timeout: message not found", Some smtp_ms)
                    end))
      by (unfold imap_delete; repeat completes_step).
    exact (Hc w2). }
  destruct (poll_and_clean env fuel acct token msg_id deadline smtp_ms w1)
    as [[o | e | ] w2]; cbn [fst] in Hpoll; [ | | discriminate];
    pose proof (completes_logout env w2) as Hl;
    destruct (logout env w2) as [[[] | e' | ] w3]; cbn [fst] in Hl |- *;
    solve [reflexivity | discriminate].
Qed.

(** ** The mailbox session of [run_for_account] *)

Lemma emits_search_criteria_of env (P : event -> Prop) crits :
  (forall q r, P (EQuery q r)) -> emits P (search_criteria env crits).
Proof.
  intros Hq. induction crits as [ | crit rest IH]; cbn [search_criteria];
    [apply emits_ret | ].
  emits_all; auto.
Qed.

Lemma emits_imap_search_of env (P : event -> Prop) mbox token msg_id :
  (forall q r, P (EQuery q r)) ->
  emits P (imap_search_for_token env mbox token msg_id).
Proof.
  intros Hq. unfold imap_search_for_token. emits_all; auto.
  now apply emits_search_criteria_of.
Qed.

Lemma emits_poll_loop_of env (P : event -> Prop) fuel acct token msg_id deadline :
  (forall q r, P (EQuery q r)) ->
  (forall lvl fmt args, P (ELog lvl fmt args)) ->
  (forall secs, P (ESleep secs)) ->
  forall found_id,
    emits P (poll_loop env fuel acct token msg_id deadline found_id).
Proof.
  intros Hq Hl Hs.
  induction fuel as [ | fuel IH]; intros found_id; cbn [poll_loop].
  - emits_all.
  - emits_all; auto; try (now apply emits_imap_search_of); apply IH.
Qed.

Lemma emits_poll_and_clean_of env (P : event -> Prop)
    fuel acct token msg_id deadline smtp_ms :
  (forall q r, P (EQuery q r)) ->
  (forall lvl fmt args, P (ELog lvl fmt args)) ->
  (forall secs, P (ESleep secs)) ->
  (delete_on_success acct = true ->
   forall c r, is_delete_event (ECall c r) = true -> P (ECall c r)) ->
  emits P (poll_and_clean env fuel acct token msg_id deadline smtp_ms).
Proof.
  intros Hq Hl Hs Hd. unfold poll_and_clean.
  apply emits_bind; [now apply emits_poll_loop_of | intros [id | ]].
  - destruct (String.eqb id ""); [emits_all; auto | ].
    apply emits_bind; [ | intros _; emits_all; auto].
    destruct (delete_on_success acct); [ | apply emits_ret].
    unfold imap_delete. emits_all; auto.
  - emits_all; auto.
Qed.

Lemma emits_open_session_of env (P : event -> Prop) acct :
  (forall c r,
     is_push_call c || is_delete_event (ECall c r) || is_logout (ECall c r) = false ->
     P (ECall c r)) ->
  (forall lvl fmt args, P (ELog lvl fmt args)) ->
  (forall r, P (EUuid r)) -> (forall s, P (EDate s)) ->
  emits P (open_session env acct).
Proof.
  intros Hc Hl Hu Hd. unfold open_session, check_fields, build_message,
    smtp_send, smtp_session, imap_connect.
  emits_all; auto.
Qed.

Lemma emits_run_for_account_of env (P : event -> Prop) fuel acct :
  (forall c r, is_push_call c = false -> P (ECall c r)) ->
  (forall q r, P (EQuery q r)) ->
  (forall lvl fmt args, P (ELog lvl fmt args)) ->
  (forall secs, P (ESleep secs)) ->
  (forall r, P (EUuid r)) -> (forall s, P (EDate s)) ->
  emits P (run_for_account env fuel acct).
Proof.
  intros Hc Hq Hl Hs Hu Hd w0. rewrite run_for_account_eq. revert w0.
  apply emits_bind.
  - apply emits_open_session_of; auto.
    intros c r H. apply Hc. now destruct (is_push_call c).
  - intros [failed | [[[token msg_id] deadline] smtp_ms]]; [apply emits_ret | ].
    apply emits_try_finally; [ | unfold logout; emits_all; now apply Hc].
    apply emits_poll_and_clean_of; auto.
    intros _ [] r H; try discriminate; now apply Hc.
Qed.

Lemma forallb_Forall {A} (f : A -> bool) (P : A -> Prop) l :
  (forall x, P x -> f x = true) -> Forall P l -> forallb f l = true.
Proof.
  intros H F. induction F as [ | x l Hx _ IH]; [reflexivity | ].
  simpl. now rewrite (H x Hx), IH.
Qed.

(** X4: when the mail was sent and the connection to the mailbox server
    or the login fails, [run_for_account] ends with [success = False], the
    message ["IMAP connect failed: "] followed by the class name and the
    detail of the error, and the latency of the send.  The log entry of the
    error is the last event of the run, and the run has no SELECT, no
    SEARCH and no LOGOUT. *)
Theorem connect_failure_is_final env fuel acct w token raw msg_id w1 smtp_ms w2 e w3 :
  check_fields acct w = (Return tt, w) ->
  build_message env (from_addr (smtp acct)) (to_addr (smtp acct))
    "Stalwart E2E Monitor" w = (Return (token, raw, msg_id), w1) ->
  smtp_send env (smtp acct) raw w1 = (Return smtp_ms, w2) ->
  imap_connect env (imap acct)
    (record (ELog INFO "%s: SMTP sent ok (%.0f ms) token=%s"
               [LStr (name acct); LNum smtp_ms; LStr token]) 0 w2)
  = (Raise e, w3) ->
  exists w' evs,
    run_for_account env fuel acct w
    = (Return (false,
               "IMAP connect failed: " ++ class_name (exn_cls e) ++ ": " ++ exn_msg e,
               Some smtp_ms),
       w')
    /\ history w'
       = (history w ++ evs
          ++ [ELog ERROR "%s: IMAP connect/login failed: %s"
                [LStr (name acct); LExn e]])%list
    /\ forallb (fun ev => negb (is_attempt ev || is_search ev || is_logout ev)) evs
       = true.
Proof.
  intros Hcheck Hbuild Hsend Hconn.
  set (sent := ELog INFO "%s: SMTP sent ok (%.0f ms) token=%s"
                 [LStr (name acct); LNum smtp_ms; LStr token]) in *.
  set (failed := ELog ERROR "%s: IMAP connect/login failed: %s"
                   [LStr (name acct); LExn e]).
  assert (Hopen : open_session env acct w
                  = (Return (inl (false,
                                  "IMAP connect failed: " ++ class_name (exn_cls e)
                                    ++ ": " ++ exn_msg e,
                                  Some smtp_ms)),
                     record failed 0 w3)).
  { unfold open_session.
    rewrite (bind_return _ _ _ _ _ Hcheck), (bind_return _ _ _ _ _ Hbuild).
    unfold bind at 1. unfold try_except at 1. unfold bind at 1. rewrite Hsend.
    unfold bind at 1. unfold logging at 1. unfold ret at 1.
    unfold bind at 1. unfold time_time at 1.
    unfold bind at 1. unfold try_except at 1. unfold bind at 1.
    fold sent. rewrite Hconn. reflexivity. }
  assert (H1 : emits no_session (build_message env (from_addr (smtp acct))
                                   (to_addr (smtp acct)) "Stalwart E2E Monitor"))
    by (unfold build_message; emits_all).
  assert (H2 : emits no_session (smtp_send env (smtp acct) raw))
    by (unfold smtp_send, smtp_session; emits_all).
  assert (H3 : emits no_session (imap_connect env (imap acct)))
    by (unfold imap_connect; emits_all).
  destruct (H1 w) as [evs1 [Hh1 [Hp1 _]]]. rewrite Hbuild in Hh1.
  destruct (H2 w1) as [evs2 [Hh2 [Hp2 _]]]. rewrite Hsend in Hh2.
  destruct (H3 (record sent 0 w2)) as [evs3 [Hh3 [Hp3 _]]]. rewrite Hconn in Hh3.
  cbn [snd] in Hh1, Hh2, Hh3. rewrite history_record in Hh3.
  exists (record failed 0 w3), (evs1 ++ evs2 ++ [sent] ++ evs3)%list.
  repeat match goal with |- _ /\ _ => split end.
  - rewrite run_for_account_eq, (bind_return _ _ _ _ _ Hopen). reflexivity.
  - rewrite history_record, Hh3, Hh2, Hh1, <- !app_assoc. reflexivity.
  - apply (forallb_Forall _ no_session).
    + intros x Hx. unfold no_session in Hx. now rewrite Hx.
    + repeat (apply Forall_app; split); auto.
      constructor; [reflexivity | constructor].
Qed.

Lemma connect_failure_is_final_witness :
  exists w' evs,
    run_for_account imap_down_env 3 (sample_account "A") start
    = (Return (false,
               "IMAP connect failed: " ++ class_name (exn_cls connect_error) ++ ": "
                 ++ exn_msg connect_error,
               Some 0),
       w')
    /\ history w'
       = (history start ++ evs
          ++ [ELog ERROR "%s: IMAP connect/login failed: %s"
                [LStr (name (sample_account "A")); LExn connect_error]])%list
    /\ forallb (fun ev => negb (is_attempt ev || is_search ev || is_logout ev)) evs
       = true.
Proof.
  eapply (connect_failure_is_final imap_down_env 3 (sample_account "A") start
            _ _ _ _ 0 _ connect_error);
    [reflexivity | lazy; reflexivity | lazy; reflexivity | lazy; reflexivity].
Defined.

(** X5: with [delete_on_success] off, [run_for_account] never sends STORE
    or EXPUNGE, whatever the servers answer and however the run ends. *)
Theorem no_delete_without_flag env fuel acct w :
  delete_on_success acct = false ->
  exists evs,
    history (snd (run_for_account env fuel acct w)) = (history w ++ evs)%list
    /\ forallb (fun ev => negb (is_delete_event ev)) evs = true.
Proof.
  intros Hflag.
  assert (Hm : emits keeps_mail (run_for_account env fuel acct)).
  { intros w0. rewrite run_for_account_eq. revert w0.
    apply emits_bind.
    - apply emits_open_session_of; try reflexivity.
      intros c r H. apply orb_false_iff in H as [H _].
      apply orb_false_iff in H as [_ H]. exact H.
    - intros [failed | [[[token msg_id] deadline] smtp_ms]]; [apply emits_ret | ].
      apply emits_try_finally; [ | unfold logout; emits_all].
      apply emits_poll_and_clean_of; try reflexivity.
      rewrite Hflag. discriminate. }
  destruct (Hm w) as [evs [Hh [Hp _]]]. exists evs. split; [exact Hh | ].
  apply (forallb_Forall _ keeps_mail); [ | exact Hp].
  intros x Hx. unfold keeps_mail in Hx. now rewrite Hx.
Qed.

Lemma no_delete_without_flag_witness :
  exists evs,
    history (snd (run_for_account working_env 3 keeping_account start))
    = (history start ++ evs)%list
    /\ forallb (fun ev => negb (is_delete_event ev)) evs = true.
Proof.
  apply (no_delete_without_flag working_env 3 keeping_account start). reflexivity.
Defined.

(** X6: once the mailbox session is open, [run_for_account] closes it
    exactly once, as its last action.  For a poll interval other than zero
    the run ends (the fuel need only cover the timeout), and whether the
    poll finds the probe, times out or raises, the events after the opening
    end with the one LOGOUT of the run. *)
Theorem session_always_closed env fuel acct w token msg_id deadline smtp_ms w1 :
  open_session env acct w = (Return (inr (token, msg_id, deadline, smtp_ms)), w1) ->
  interval_seconds (poll acct) <> 0 ->
  timeout_seconds (poll acct)
  <= Z.of_nat fuel * Z.abs (interval_seconds (poll acct)) ->
  ran_out (fst (run_for_account env fuel acct w)) = false
  /\ exists evs r,
       history (snd (run_for_account env fuel acct w))
       = (history w1 ++ evs ++ [ECall ImapLogout r])%list
       /\ forallb (fun ev => negb (is_logout ev)) evs = true.
Proof.
  intros Hopen Hint Hfuel.
  pose proof (run_for_account_ends env fuel acct w Hint Hfuel) as Hends.
  split; [exact Hends | ]. revert Hends.
  rewrite run_for_account_eq, (bind_return _ _ _ _ _ Hopen).
  assert (Hm : emits not_logout
                 (poll_and_clean env fuel acct token msg_id deadline smtp_ms)).
  { apply emits_poll_and_clean_of; try reflexivity.
    intros _ [] r H; try reflexivity; discriminate. }
  destruct (Hm w1) as [evs [Hh [Hp _]]].
  assert (Hq : forallb (fun ev => negb (is_logout ev)) evs = true).
  { apply (forallb_Forall _ not_logout); [ | exact Hp].
    intros x Hx. unfold not_logout in Hx. now rewrite Hx. }
  unfold try_finally, logout, try_except, call.
  destruct (poll_and_clean env fuel acct token msg_id deadline smtp_ms w1)
    as [[o | e | ] w2]; cbn [snd] in Hh; [ | | discriminate]; intros _;
    destruct (env_call env (history w2) ImapLogout) as [[e' | ] d];
    cbn [snd ret any_exception]; rewrite history_record, Hh, <- app_assoc; eauto.
Qed.

Lemma session_always_closed_witness :
  ran_out (fst (run_for_account working_env 3 (sample_account "A") start)) = false
  /\ exists evs r,
       history (snd (run_for_account working_env 3 (sample_account "A") start))
       = (history (snd (open_session working_env (sample_account "A") start))
          ++ evs ++ [ECall ImapLogout r])%list
       /\ forallb (fun ev => negb (is_logout ev)) evs = true.
Proof.
  eapply (session_always_closed working_env 3 (sample_account "A") start);
    [lazy; reflexivity | discriminate | simpl; lia].
Defined.

(** X7: with a poll timeout of zero or less the mailbox is never searched:
    once the session is open the account fails with ["IMAP timeout:
    message not found"], and all that follows the opening is the log entry
    and the LOGOUT. *)
Theorem no_attempt_without_time env fuel acct w token msg_id deadline smtp_ms w1 :
  open_session env acct w = (Return (inr (token, msg_id, deadline, smtp_ms)), w1) ->
  timeout_seconds (poll acct) <= 0 ->
  exists w' r,
    run_for_account env fuel acct w
    = (Return (false, "IMAP timeout: message not found", Some smtp_ms), w')
    /\ history w'
       = (history w1
          ++ [ELog ERROR "%s: Message not found within timeout (token=%s)"
                [LStr (name acct); LStr token];
              ECall ImapLogout r])%list.
Proof.
  intros Hopen Ht.
  pose proof (open_session_deadline _ _ _ _ _ _ _ _ Hopen) as Hd.
  set (failed := ELog ERROR "%s: Message not found within timeout (token=%s)"
                   [LStr (name acct); LStr token]).
  assert (Hpoll : poll_loop env fuel acct token msg_id deadline None w1
                  = (Return None, w1)).
  { assert (E : (now w1 <? deadline) = false) by (apply Z.ltb_ge; lia).
    destruct fuel; cbn [poll_loop]; unfold bind, time_time; now rewrite E. }
  assert (Hclean : poll_and_clean env fuel acct token msg_id deadline smtp_ms w1
                   = (Return (false, "IMAP timeout: message not found", Some smtp_ms),
                      record failed 0 w1)).
  { unfold poll_and_clean. rewrite (bind_return _ _ _ _ _ Hpoll). reflexivity. }
  rewrite run_for_account_eq, (bind_return _ _ _ _ _ Hopen).
  rewrite (try_finally_logout _ _ _ _ _ Hclean).
  unfold logout, try_except, call.
  destruct (env_call env (history (record failed 0 w1)) ImapLogout) as [[e' | ] d];
    cbn [snd ret any_exception]; eexists; eexists; (split; [reflexivity | ]);
    rewrite !history_record, <- app_assoc; reflexivity.
Qed.

Lemma no_attempt_without_time_witness :
  exists w' r,
    run_for_account working_env 3 impatient_account start
    = (Return (false, "IMAP timeout: message not found", Some 0), w')
    /\ history w'
       = (history (snd (open_session working_env impatient_account start))
          ++ [ELog ERROR "%s: Message not found within timeout (token=%s)"
                [LStr (name impatient_account);
                 LStr (hex_fixed 32 (uuid4_int 0))];
              ECall ImapLogout r])%list.
Proof.
  eapply (no_attempt_without_time working_env 3 impatient_account start
            _ ("<" ++ hex_fixed 32 (uuid4_int 0) ++ "@e2e-monitor>") 0 0);
    [lazy; reflexivity | cbn; lia].
Defined.

(** ** What a search returns *)







(** ** Reporting to Uptime Kuma *)

Lemma substring_length n s : (String.length (substring 0 n s) <= n)%nat.
Proof.
  revert s. induction n as [ | n IH]; intros [ | c s]; simpl; try lia.
  specialize (IH s). lia.
Qed.

Lemma substring_prefix n s : prefix (substring 0 n s) s = true.
Proof.
  revert s. induction n as [ | n IH]; intros [ | c s]; simpl; try reflexivity.
  destruct (ascii_dec c c) as [_ | N]; [apply IH | now elim N].
Qed.

(** [push_kuma] returns after one GET and one log entry. *)
Lemma push_kuma_returns env url status msg ping_ms w :
  exists params r fmt args,
    fst (push_kuma env url status msg ping_ms w) = Return tt
    /\ history (snd (push_kuma env url status msg ping_ms w))
       = (history w
          ++ [ECall (HttpGet url params 10) r;
              ELog (match r with None => INFO | Some _ => ERROR end) fmt args])%list
    /\ param "status" params = Some status.
Proof.
  unfold push_kuma, try_except, bind, call, logging.
  match goal with |- context [env_call env (history w) ?c] =>
    destruct (env_call env (history w) c) as [[e | ] d]
  end; cbn [any_exception fst snd];
    [eexists; exists (Some e) | eexists; exists None];
    do 2 eexists; rewrite !history_record, <- app_assoc;
    repeat match goal with |- _ /\ _ => split end; reflexivity.
Qed.

(** X9: [push_kuma] never raises.  It makes exactly one HTTP GET, to the
    URL and with the timeout 10, then writes one log entry: at level INFO
    when the request went through, at level ERROR when it failed.  The
    request carries the status, and its [msg], when there is one, is the
    message cut to at most 200 characters. *)
Theorem push_kuma_reports_once env url status msg ping_ms w :
  exists params r fmt args,
    fst (push_kuma env url status msg ping_ms w) = Return tt
    /\ history (snd (push_kuma env url status msg ping_ms w))
       = (history w
          ++ [ECall (HttpGet url params 10) r;
              ELog (match r with None => INFO | Some _ => ERROR end) fmt args])%list
    /\ param "status" params = Some status
    /\ forall m,
         param "msg" params = Some m ->
         (String.length m <= 200)%nat
         /\ exists full, msg = Some full /\ prefix m full = true.
Proof.
  unfold push_kuma.
  set (msg_param := match msg with
                    | Some m => if String.eqb m "" then [] else [("msg", substring 0 200 m)]
                    | None => []
                    end).
  set (ping_param := match ping_ms with
                     | Some p => [("ping", dec_of_Z p)]
                     | None => []
                     end).
  set (params := (("status", status) :: msg_param ++ ping_param)%list).
  assert (Hmsg : forall m,
             param "msg" params = Some m ->
             (String.length m <= 200)%nat
             /\ exists full, msg = Some full /\ prefix m full = true).
  { intros m. unfold params, msg_param, ping_param. cbn [param].
    change (String.eqb "status" "msg") with false. cbv iota.
    destruct msg as [full | ].
    - destruct (String.eqb full ""); cbn [app param].
      + destruct ping_ms; cbn [param]; [ | discriminate].
        change (String.eqb "ping" "msg") with false. discriminate.
      + change (String.eqb "msg" "msg") with true. cbv iota.
        intros [= <-]. split; [apply substring_length | ].
        exists full. split; [reflexivity | apply substring_prefix].
    - cbn [app]. destruct ping_ms; cbn [param]; [ | discriminate].
      change (String.eqb "ping" "msg") with false. discriminate. }
  exists params.
  unfold try_except, bind, call, logging.
  destruct (env_call env (history w) (HttpGet url params 10)) as [[e | ] d];
    cbn [any_exception fst snd].
  - exists (Some e). do 2 eexists. rewrite !history_record, <- app_assoc.
    repeat match goal with |- _ /\ _ => split end; try reflexivity. exact Hmsg.
  - exists None. do 2 eexists. rewrite !history_record, <- app_assoc.
    repeat match goal with |- _ /\ _ => split end; try reflexivity. exact Hmsg.
Qed.

Lemma pushes_app a b : pushes (a ++ b) = (pushes a ++ pushes b)%list.
Proof. apply flat_map_app. Qed.

Lemma pushes_none evs : Forall no_push evs -> pushes evs = [].
Proof.
  induction 1 as [ | ev evs Hev _ IH]; [reflexivity | ].
  change (ev :: evs) with ([ev] ++ evs)%list. now rewrite pushes_app, Hev, IH.
Qed.

Lemma run_for_account_no_push env fuel acct :
  emits no_push (run_for_account env fuel acct).
Proof.
  apply emits_run_for_account_of; try reflexivity.
  intros [] r H; try reflexivity; discriminate.
Qed.

(** What [main] does with an outcome: it returns, and pushes once when the
    account has a push URL. *)
Lemma report_pushes env acct o w :
  exists evs,
    fst (report env acct o w) = Return tt
    /\ history (snd (report env acct o w)) = (history w ++ evs)%list
    /\ pushes evs
       = if truthy (push_url (kuma acct)) then
           [(push_url (kuma acct), Some (if success o then "up" else "down"))]
         else [].
Proof.
  destruct o as [[ok msg] ping_ms]. unfold report, success. cbn [fst].
  destruct (truthy (push_url (kuma acct))).
  - destruct (push_kuma_returns env (push_url (kuma acct))
                (if ok then "up" else "down") (Some msg) ping_ms w)
      as [params [r [fmt [args [Hr [Hh Hs]]]]]].
    assert (E : try_except
                  (push_kuma env (push_url (kuma acct)) (if ok then "up" else "down")
                     (Some msg) ping_ms)
                  any_exception (fun _ => ret tt) w
                = (Return tt,
                   snd (push_kuma env (push_url (kuma acct))
                          (if ok then "up" else "down") (Some msg) ping_ms w))).
    { unfold try_except.
      destruct (push_kuma env (push_url (kuma acct)) (if ok then "up" else "down")
                  (Some msg) ping_ms w) as [res w1].
      cbn [fst] in Hr. now subst res. }
    rewrite (bind_return _ _ _ _ _ E).
    destruct ok; cbn [negb ret logging fst snd].
    + eexists. split; [reflexivity | ]. split; [exact Hh | ].
      cbn [pushes flat_map app]. now rewrite Hs.
    + eexists. split; [reflexivity | ]. rewrite history_record, Hh, <- app_assoc.
      split; [reflexivity | ]. cbn [pushes flat_map app]. now rewrite Hs.
  - unfold bind, ret.
    destruct ok; cbn [negb logging fst snd].
    + exists []. now rewrite app_nil_r.
    + eexists. rewrite history_record. repeat split.
Qed.

Lemma probe_all_pushes env fuel accounts :
  forall w outs w',
    probe_all env fuel accounts w = (Return outs, w') ->
    exists evs,
      history w' = (history w ++ evs)%list
      /\ pushes evs = expected_pushes accounts outs.
Proof.
  induction accounts as [ | acct rest IH]; intros w outs w' H.
  - injection H as <- <-. exists []. now rewrite app_nil_r.
  - cbn [probe_all] in H.
    apply bind_inv in H as [[] [w1 [Hlog H]]].
    apply bind_inv in H as [o [w2 [Hrun H]]].
    apply bind_inv in H as [[] [w3 [Hrep H]]].
    apply bind_inv in H as [os [w4 [Hos H]]].
    injection H as <- <-.
    unfold logging in Hlog. injection Hlog as <-.
    destruct (run_for_account_no_push env fuel acct
                (record (ELog INFO "Running monitor for account: %s"
                           [LStr (name acct)]) 0 w))
      as [evs2 [Hh2 [Hp2 _]]].
    rewrite Hrun in Hh2. cbn [snd] in Hh2. rewrite history_record in Hh2.
    destruct (report_pushes env acct o w2) as [evs3 [_ [Hh3 Hp3]]].
    rewrite Hrep in Hh3. cbn [snd] in Hh3.
    destruct (IH _ _ _ Hos) as [evs4 [Hh4 Hp4]].
    exists ([ELog INFO "Running monitor for account: %s" [LStr (name acct)]]
            ++ evs2 ++ evs3 ++ evs4)%list.
    split.
    + rewrite Hh4, Hh3, Hh2, <- !app_assoc. reflexivity.
    + rewrite !pushes_app, (pushes_none _ Hp2), Hp3, Hp4.
      unfold expected_pushes. cbn [combine flat_map fst snd pushes app].
      reflexivity.
Qed.

(** X10: when every probe of a run returns, Uptime Kuma receives exactly
    one push for each account that has a push URL, in the order of the
    accounts, to the URL of the account, with the status ["up"] when its
    probe succeeded and ["down"] when it failed; accounts without a push
    URL cause no request. *)
Theorem each_account_reported env fuel accounts overall_ok w outs :
  fst (probe_all env fuel accounts w) = Return outs ->
  exists evs,
    history (snd (run_accounts env fuel accounts overall_ok w))
    = (history w ++ evs)%list
    /\ pushes evs = expected_pushes accounts outs.
Proof.
  intros H. rewrite run_accounts_probe_all. cbn [snd].
  destruct (probe_all env fuel accounts w) as [res w'] eqn:E.
  cbn [fst snd] in *. subst res. exact (probe_all_pushes _ _ _ _ _ _ E).
Qed.

Lemma each_account_reported_witness :
  exists evs,
    history (snd (run_accounts working_env 3
                    [reporting_account "A"; sample_account "B"; reporting_account "C"]
                    true start))
    = (history start ++ evs)%list
    /\ pushes evs
       = [(PStr "https://kuma.example.org/api/push/k3y", Some "up");
          (PStr "https://kuma.example.org/api/push/k3y", Some "up")].
Proof.
  apply (each_account_reported working_env 3
           [reporting_account "A"; sample_account "B"; reporting_account "C"]
           true start
           [(true, "OK", Some 0); (true, "OK", Some 0); (true, "OK", Some 0)]).
  vm_compute. reflexivity.
Defined.

(** ** The connections *)

(** Runs the next library call of the goal both ways. *)
Ltac next_call env :=
  match goal with
  | |- context [env_call env ?h ?c] =>
      destruct (env_call env h c) as [[? | ] ?];
      cbn [fst snd bind ret try_finally call logging time_time record history now andb]
  end.

Ltac trace_cases env :=
  unfold bind, try_finally, call, logging, time_time, ret;
  repeat next_call env;
  eexists; (split; [rewrite ?history_record, <- ?app_assoc; reflexivity | ]);
  reflexivity.

(** X11: in [starttls] mode [smtp_send] sends the credentials and the
    mail only after STARTTLS succeeded: when STARTTLS fails, or an earlier
    step does, neither a login nor a mail goes over the connection. *)
Theorem smtp_starttls_first env cfg raw w :
  smtp_security cfg = "starttls" ->
  exists evs,
    history (snd (smtp_send env cfg raw w)) = (history w ++ evs)%list
    /\ guarded_by smtp_tls_up smtp_payload false evs = true.
Proof.
  intros Hsec. unfold smtp_send, smtp_session. rewrite Hsec.
  change (String.eqb "starttls" "ssl") with false.
  change (String.eqb "starttls" "starttls") with true. cbv iota.
  destruct (truthy (smtp_username cfg) && truthy (smtp_password cfg));
    trace_cases env.
Qed.

Lemma smtp_starttls_first_witness :
  exists evs,
    history (snd (smtp_send working_env starttls_smtp "probe" start))
    = (history start ++ evs)%list
    /\ guarded_by smtp_tls_up smtp_payload false evs = true.
Proof.
  apply (smtp_starttls_first working_env starttls_smtp "probe" start). reflexivity.
Defined.

(** In [starttls] mode, with credentials and a working server, the whole
    exchange. *)
Example smtp_starttls_run :
  history (snd (smtp_send working_env starttls_smtp "probe" start))
  = [ ECall SslCreateDefaultContext None;
      ELog DEBUG "Preparing SMTP connection to %s:%s security=%s"
        [LStr "mx.example.org"; LNum 587; LStr "starttls"];
      ECall (SmtpPlain "mx.example.org" 587 30) None;
      ECall SmtpEhlo None;
      ECall SmtpStartTLS None;
      ECall SmtpEhlo None;
      ECall (SmtpLogin (PStr "probe") (PStr "hunter2")) None;
      ECall (SmtpSendmail (PStr "probe@example.org") [PStr "probe@example.org"]
               "probe") None;
      ECall SmtpQuit None ].
Proof. reflexivity. Qed.

(** X12: in [starttls] mode [imap_connect] sends the login only after
    STARTTLS succeeded on the mailbox connection. *)
Theorem imap_starttls_first env cfg w :
  imap_security cfg = "starttls" ->
  exists evs,
    history (snd (imap_connect env cfg w)) = (history w ++ evs)%list
    /\ guarded_by imap_tls_up imap_login false evs = true.
Proof.
  intros Hsec. unfold imap_connect. rewrite Hsec.
  change (String.eqb "starttls" "ssl") with false.
  change (String.eqb "starttls" "starttls") with true. cbv iota.
  destruct (truthy (imap_username cfg) && truthy (imap_password cfg));
    trace_cases env.
Qed.

Lemma imap_starttls_first_witness :
  exists evs,
    history (snd (imap_connect working_env starttls_imap start))
    = (history start ++ evs)%list
    /\ guarded_by imap_tls_up imap_login false evs = true.
Proof.
  apply (imap_starttls_first working_env starttls_imap start). reflexivity.
Defined.

(** X13: [smtp_send] leaves no connection open: once the submission
    server accepted the connection, the last thing [smtp_send] does on it is
    QUIT, whether the mail went out or a step of the session raised. *)
Theorem smtp_send_quits env cfg raw w :
  exists evs,
    history (snd (smtp_send env cfg raw w)) = (history w ++ evs)%list
    /\ (if existsb smtp_connected evs then ends_with_quit evs
        else negb (existsb is_sendmail evs)) = true.
Proof.
  unfold smtp_send, smtp_session.
  destruct (String.eqb (smtp_security cfg) "ssl");
    [ | destruct (String.eqb (smtp_security cfg) "starttls")];
    destruct (truthy (smtp_username cfg) && truthy (smtp_password cfg));
    trace_cases env.
Qed.

(** ** The accounts that [parse_config] returns *)

Lemma deep_merge_dict_inv a items merged :
  deep_merge a (PDict items) = Return merged ->
  exists out m,
    py_dict a = Return out /\ merge_items items out = Return m /\ merged = PDict m.
Proof.
  intros H.
  change (deep_merge a (PDict items))
    with (let? out := py_dict a in
          let? out' := merge_items items out in Return (PDict out')) in H.
  destruct (py_dict a) as [out | | ]; cbn [rbind] in H; try discriminate.
  destruct (merge_items items out) as [m | | ] eqn:Em; cbn [rbind] in H;
    try discriminate.
  injection H as <-. exists out, m. auto.
Qed.

(** The name of a parsed account is the name of its entry. *)
Lemma parse_account_name defaults items a s :
  distinct_keys items = true ->
  dict_find items (KStr "name") = Some (PStr s) ->
  parse_account defaults (PDict items) = Return a ->
  name a = s /\ s <> "".
Proof.
  intros Hd Hfind H. unfold parse_account in H.
  destruct (deep_merge defaults (PDict items)) as [merged | | ] eqn:Em;
    cbn [rbind] in H; try discriminate.
  destruct (deep_merge_dict_inv _ _ _ Em) as [out [m [_ [Hm ->]]]].
  pose proof (merge_items_find _ _ _ Hd Hm (KStr "name")) as Hname.
  rewrite Hfind in Hname. cbv zeta in H.
  assert (En : (let? x := py_get (PDict m) "name" PNone in
                if truthy x then Return (py_str x)
                else let? y := py_get (PDict items) "name" PNone in Return (py_str y))
               = Return s).
  { unfold py_get. rewrite Hname, Hfind. cbn [rbind py_str].
    now destruct (truthy (PStr s)). }
  invert_rbind H.
  injection En as ->. injection H as <-.
  cbn [name]. split; [reflexivity | ]. now apply String.eqb_neq.
Qed.

Lemma parse_account_named defaults raw a :
  parse_account defaults raw = Return a -> String.eqb (name a) "" = false.
Proof.
  unfold parse_account. intros H. cbv zeta in H. invert_rbind H.
  injection H as <-. assumption.
Qed.

(** An entry that [--account] lets through is a mapping whose name is one
    of the given names. *)
Lemma skipped_selected x l raw :
  skipped (Some (x :: l)) raw = Return false ->
  exists items s,
    raw = PDict items
    /\ dict_find items (KStr "name") = Some (PStr s)
    /\ str_in s (x :: l) = true.
Proof.
  unfold skipped, py_get. intros H.
  destruct raw as [ | ? | ? | ? | ? | items]; try discriminate.
  cbn [rbind] in H. injection H as H. apply negb_false_iff in H.
  exists items.
  destruct (dict_find items (KStr "name")) as [[ | ? | ? | s | ? | ?] | ];
    try discriminate.
  exists s. auto.
Qed.

Lemma dict_find_well_formed d k v :
  well_formed (PDict d) = true -> dict_find d k = Some v -> well_formed v = true.
Proof.
  cbn [well_formed]. intros H. apply andb_prop in H as [_ H].
  induction d as [ | [k' v'] d IH]; cbn [dict_find]; [discriminate | ].
  cbn [forallb snd] in H. apply andb_prop in H as [Hv Hd].
  destruct (key_eqb k' k); [intros [= <-]; exact Hv | now apply IH].
Qed.

Lemma py_get_well_formed o k d v :
  well_formed o = true -> well_formed d = true ->
  py_get o k d = Return v -> well_formed v = true.
Proof.
  unfold py_get. intros Ho Hd H. destruct o as [ | ? | ? | ? | ? | items];
    try discriminate.
  injection H as <-. destruct (dict_find items (KStr k)) as [x | ] eqn:E;
    [eapply dict_find_well_formed; eauto | exact Hd].
Qed.

Lemma py_iter_well_formed v l :
  well_formed v = true -> py_iter v = Return l -> forallb well_formed l = true.
Proof.
  destruct v as [ | ? | ? | s | items | d]; try discriminate; intros Hv [= <-].
  - clear Hv. induction s as [ | c s IH]; [reflexivity | exact IH].
  - exact Hv.
  - clear Hv. induction d as [ | [k x] d IH]; [reflexivity | ].
    cbn [map forallb fst]. rewrite IH, andb_true_r. now destruct k.
Qed.

Lemma py_iter_truthy v l : truthy v = true -> py_iter v = Return l -> l <> [].
Proof.
  destruct v as [ | ? | ? | s | items | d]; try discriminate; intros Hv [= <-].
  - destruct s; [discriminate Hv | discriminate].
  - destruct items; [discriminate Hv | discriminate].
  - destruct d; [discriminate Hv | discriminate].
Qed.

Lemma parse_accounts_selected defaults sel raws :
  forall acc accounts,
    forallb well_formed raws = true ->
    forallb (fun a => negb (String.eqb (name a) "") && selected sel a) acc = true ->
    parse_accounts defaults sel raws acc = Return accounts ->
    forallb (fun a => negb (String.eqb (name a) "") && selected sel a) accounts = true.
Proof.
  induction raws as [ | raw rest IH]; intros acc accounts Hw Hacc H.
  - injection H as <-. exact Hacc.
  - cbn [forallb] in Hw. apply andb_prop in Hw as [Hraw Hrest].
    cbn [parse_accounts] in H.
    destruct (skipped sel raw) as [[ | ] | | ] eqn:Es; cbn [rbind] in H;
      try discriminate; [eapply IH; eauto | ].
    destruct (parse_account defaults raw) as [a | | ] eqn:Ea; cbn [rbind] in H;
      try discriminate.
    eapply IH; [exact Hrest | | exact H].
    rewrite forallb_app, Hacc. cbn [forallb andb]. rewrite andb_true_r.
    rewrite (parse_account_named _ _ _ Ea). cbn [negb andb].
    destruct sel as [[ | x l] | ]; try reflexivity.
    destruct (skipped_selected _ _ _ Es) as [items [s [-> [Hname Hin]]]].
    cbn [well_formed] in Hraw. apply andb_prop in Hraw as [Hd _].
    destruct (parse_account_name _ _ _ _ Hd Hname Ea) as [Hn _].
    unfold selected. rewrite Hn. exact Hin.
Qed.

Lemma parse_accounts_all defaults sel raws :
  sel = None \/ sel = Some [] ->
  forall acc accounts,
    parse_accounts defaults sel raws acc = Return accounts ->
    List.length accounts = (List.length acc + List.length raws)%nat.
Proof.
  intros Hsel. induction raws as [ | raw rest IH]; intros acc accounts H.
  - injection H as <-. simpl. lia.
  - cbn [parse_accounts] in H.
    assert (Es : skipped sel raw = Return false)
      by (destruct Hsel as [-> | ->]; reflexivity).
    rewrite Es in H. cbn [rbind] in H.
    destruct (parse_account defaults raw) as [a | | ]; cbn [rbind] in H;
      try discriminate.
    apply IH in H. rewrite H, length_app. simpl. lia.
Qed.

(** X15: the list that [parse_config] returns is never empty; every
    account in it has a non-empty name; and when [--account] names
    accounts, every account in it bears one of the given names. *)
Theorem parse_config_selects loaded sel accounts :
  well_formed loaded = true ->
  parse_document loaded sel = Return accounts ->
  accounts <> []
  /\ forallb (fun a => negb (String.eqb (name a) "") && selected sel a) accounts
     = true.
Proof.
  unfold parse_document. intros Hw H.
  assert (Hdata : well_formed (py_or loaded (PDict [])) = true)
    by (unfold py_or; now destruct (truthy loaded)).
  destruct (py_get (py_or loaded (PDict [])) "defaults" (PDict [])) as [defaults | | ];
    cbn [rbind] in H; try discriminate.
  destruct (py_get (py_or loaded (PDict [])) "accounts" (PList []))
    as [listed | | ] eqn:El; cbn [rbind] in H; try discriminate.
  assert (Hlisted : well_formed listed = true)
    by (eapply py_get_well_formed; [exact Hdata | | exact El]; reflexivity).
  destruct (truthy listed) eqn:Et; cbn [negb] in H; [ | discriminate].
  destruct (py_iter listed) as [raws | | ] eqn:Ei; cbn [rbind] in H; try discriminate.
  destruct (parse_accounts defaults sel raws []) as [result | | ] eqn:Ep;
    cbn [rbind] in H; try discriminate.
  pose proof (parse_accounts_selected defaults sel raws [] result
                (py_iter_well_formed _ _ Hlisted Ei) eq_refl Ep) as Hall.
  pose proof (py_iter_truthy _ _ Et Ei) as Hne.
  assert (Hfull : sel = None \/ sel = Some [] -> result <> []).
  { intros Hsel Hnil. apply (parse_accounts_all _ _ _ Hsel) in Ep.
    rewrite Hnil in Ep. destruct raws; [now apply Hne | discriminate]. }
  destruct sel as [[ | x l] | ].
  - injection H as <-. split; [apply Hfull; now right | exact Hall].
  - destruct result as [ | a result]; [discriminate | ].
    injection H as <-. split; [discriminate | exact Hall].
  - injection H as <-. split; [apply Hfull; now left | exact Hall].
Qed.

Lemma parse_config_selects_witness :
  exists accounts,
    parse_document sender_missing_config (Some ["B"; "C"]) = Return accounts
    /\ accounts <> []
    /\ forallb (fun a => negb (String.eqb (name a) "")
                         && selected (Some ["B"; "C"]) a) accounts
       = true.
Proof.
  eexists. split; [vm_compute; reflexivity | ].
  apply (parse_config_selects sender_missing_config (Some ["B"; "C"]));
    vm_compute; reflexivity.
Defined.

(** ** The token of a probe *)

Lemma lor_below a b n : (a < 2 ^ n -> b < 2 ^ n -> N.lor a b < 2 ^ n)%N.
Proof.
  intros Ha Hb.
  destruct (N.eq_dec (N.lor a b) 0) as [E | E].
  - rewrite E. apply N.neq_0_lt_0, N.pow_nonzero. discriminate.
  - apply N.log2_lt_pow2; [now apply N.neq_0_lt_0 | ].
    rewrite N.log2_lor.
    assert (Hn : (0 < n)%N).
    { apply N.neq_0_lt_0. intros ->. simpl in Ha, Hb.
      assert (a = 0%N) by lia. assert (b = 0%N) by lia. subst. now apply E. }
    assert (H : forall x, (x < 2 ^ n -> N.log2 x < n)%N).
    { intros x Hx. destruct (N.eq_dec x 0) as [-> | Nx]; [exact Hn | ].
      apply N.log2_lt_pow2; [now apply N.neq_0_lt_0 | exact Hx]. }
    apply N.max_lub_lt; auto.
Qed.

Lemma uuid4_int_below r : (uuid4_int r < 2 ^ 128)%N.
Proof.
  unfold uuid4_int. apply lor_below; [ | now vm_compute].
  eapply N.le_lt_trans; [apply N.ldiff_le_l | ].
  apply lor_below; [ | now vm_compute].
  eapply N.le_lt_trans; [apply N.ldiff_le_l | ].
  apply N.mod_lt. discriminate.
Qed.

Lemma hex_digit_code n :
  (n < 16)%N -> code (hex_digit n) = (if n <? 10 then 48 + n else 87 + n)%N.
Proof.
  intros H. unfold hex_digit, code.
  destruct (n <? 10)%N; apply N_ascii_embedding; lia.
Qed.

Lemma hex_digit_inj n m : (n < 16)%N -> (m < 16)%N -> hex_digit n = hex_digit m -> n = m.
Proof.
  intros Hn Hm E. apply (f_equal code) in E.
  rewrite !hex_digit_code in E by assumption.
  destruct (n <? 10)%N eqn:En, (m <? 10)%N eqn:Em;
    rewrite ?N.ltb_lt, ?N.ltb_ge in *; lia.
Qed.

Lemma append_inj a :
  forall b c d,
    String.length a = String.length b -> a ++ c = b ++ d -> a = b /\ c = d.
Proof.
  induction a as [ | x a IH]; intros [ | y b] c d Hlen H; try discriminate.
  - now split.
  - simpl in Hlen, H. injection H as -> H. injection Hlen as Hlen.
    destruct (IH _ _ _ Hlen H) as [-> ->]. now split.
Qed.

(** The digits written by [hex_fixed] determine the number, up to the
    width. *)
Lemma hex_fixed_inj w :
  forall n m, hex_fixed w n = hex_fixed w m -> (n mod 16 ^ N.of_nat w = m mod 16 ^ N.of_nat w)%N.
Proof.
  induction w as [ | w IH]; intros n m H.
  - simpl. now rewrite !N.mod_1_r.
  - cbn [hex_fixed] in H.
    apply append_inj in H as [Hhigh Hlow]; [ | now rewrite !hex_fixed_length].
    injection Hlow as Hlow.
    apply hex_digit_inj in Hlow; try (apply N.mod_lt; discriminate).
    apply IH in Hhigh.
    rewrite Nnat.Nat2N.inj_succ, N.pow_succ_r', !N.Div0.mod_mul_r.
    now rewrite Hhigh, Hlow.
Qed.

(** X16: the token identifies the UUID: two probes carry the same token
    only when [uuid4] drew the same UUID for both. *)
Theorem token_identifies_uuid r1 r2 :
  hex_fixed 32 (uuid4_int r1) = hex_fixed 32 (uuid4_int r2) ->
  uuid4_int r1 = uuid4_int r2.
Proof.
  intros H. apply hex_fixed_inj in H.
  change (16 ^ N.of_nat 32)%N with (2 ^ 128)%N in H.
  now rewrite !N.mod_small in H by apply uuid4_int_below.
Qed.

Lemma token_identifies_uuid_witness : uuid4_int 5 = uuid4_int (5 + 2 ^ 128).
Proof. apply token_identifies_uuid. vm_compute. reflexivity. Defined.

(** ** Errors end in outcomes *)



(** ** The outcome of an account *)

Lemma try_except_inv {A} (m : M A) c h w a w' :
  try_except m c h w = (Return a, w') ->
  m w = (Return a, w')
  \/ exists e w1, m w = (Raise e, w1) /\ c e = true /\ h e w1 = (Return a, w').
Proof.
  unfold try_except. destruct (m w) as [[x | e | ] w1]; try discriminate; auto.
  destruct (c e) eqn:E; try discriminate. intros H. right. eauto.
Qed.

Lemma try_finally_inv {A} (m : M A) f w a w' :
  try_finally m f w = (Return a, w') -> exists w1, m w = (Return a, w1).
Proof.
  unfold try_finally. destruct (m w) as [[x | e | ] w1]; try discriminate;
    destruct (f w1) as [[[] | e' | ] w2]; try discriminate.
  intros [= <- _]. eauto.
Qed.

Lemma prefix_append a b : prefix a (a ++ b) = true.
Proof.
  induction a as [ | c a IH]; simpl; [now destruct b | ].
  destruct (ascii_dec c c) as [_ | N]; [exact IH | now elim N].
Qed.

Lemma open_session_outcomes env acct w r w1 :
  open_session env acct w = (Return r, w1) ->
  match r with
  | inl o => well_shaped o = true /\ success o = false
  | inr _ => True
  end.
Proof.
  unfold open_session. intros H.
  apply bind_inv in H as [[] [wa [_ H]]].
  apply bind_inv in H as [[[token raw] msg_id] [wb [_ H]]].
  apply bind_inv in H as [sent [wc [Hsent H]]].
  apply try_except_inv in Hsent as [Hsent | [e [w2 [_ [_ Hsent]]]]].
  - apply bind_inv in Hsent as [ms [w2 [_ Hsent]]].
    apply bind_inv in Hsent as [[] [w3 [_ Hsent]]]. injection Hsent as <- _.
    apply bind_inv in H as [t [wd [_ H]]].
    apply bind_inv in H as [connected [we [Hconn H]]].
    apply try_except_inv in Hconn as [Hconn | [e [w4 [_ [_ Hconn]]]]].
    + apply bind_inv in Hconn as [[] [w4 [_ Hconn]]]. injection Hconn as <- _.
      injection H as <- _. exact I.
    + apply bind_inv in Hconn as [[] [w5 [_ Hconn]]]. injection Hconn as <- _.
      injection H as <- _. split; [ | reflexivity].
      unfold well_shaped. apply orb_true_intro. left.
      apply (prefix_append "IMAP connect failed: ").
  - apply bind_inv in Hsent as [[] [w3 [_ Hsent]]]. injection Hsent as <- _.
    injection H as <- _. split; [ | reflexivity].
    unfold well_shaped. cbn [negb andb]. apply (prefix_append "SMTP failed: ").
Qed.

Lemma poll_and_clean_outcomes env fuel acct token msg_id deadline smtp_ms w o w' :
  poll_and_clean env fuel acct token msg_id deadline smtp_ms w = (Return o, w') ->
  o = (true, "OK", Some smtp_ms)
  \/ o = (false, "IMAP timeout: message not found", Some smtp_ms).
Proof.
  unfold poll_and_clean. intros H.
  apply bind_inv in H as [[id | ] [w1 [_ H]]].
  - destruct (String.eqb id "").
    + apply bind_inv in H as [[] [w2 [_ H]]]. injection H as <- _. now right.
    + apply bind_inv in H as [[] [w2 [_ H]]].
      apply bind_inv in H as [[] [w3 [_ H]]]. injection H as <- _. now left.
  - apply bind_inv in H as [[] [w2 [_ H]]]. injection H as <- _. now right.
Qed.

(** X17: an outcome of [run_for_account] has one of four shapes.  It is a
    success exactly with the message ["OK"]; its latency is missing
    exactly when the send failed (message ["SMTP failed: ..."]); otherwise
    it carries the latency of the send, and a failure says either ["IMAP
    connect failed: ..."] or ["IMAP timeout: message not found"]. *)
Theorem outcomes_are_well_shaped env fuel acct w o w' :
  run_for_account env fuel acct w = (Return o, w') ->
  well_shaped o = true.
Proof.
  rewrite run_for_account_eq. intros H.
  apply bind_inv in H as [r [w1 [Hopen H]]].
  apply open_session_outcomes in Hopen.
  destruct r as [failed | [[[token msg_id] deadline] smtp_ms]].
  - injection H as <- _. apply Hopen.
  - apply try_finally_inv in H as [w2 H].
    apply poll_and_clean_outcomes in H as [-> | ->]; reflexivity.
Qed.

Lemma outcomes_are_well_shaped_witness :
  well_shaped (false,
               "IMAP connect failed: ConnectionRefusedError: [Errno 111] Connection refused",
               Some 0)
  = true.
Proof.
  eapply (outcomes_are_well_shaped imap_down_env 3 (sample_account "A") start).
  vm_compute. reflexivity.
Defined.

(** ** One mail for each probe *)

Lemma mails_sent_app a b : mails_sent (a ++ b) = (mails_sent a + mails_sent b)%nat.
Proof. unfold mails_sent. now rewrite filter_app, length_app. Qed.

Lemma sends_none {A} (m : M A) : emits no_mail m -> sends_at_most 0 m.
Proof.
  intros H w. destruct (H w) as [evs [Hh [Hp _]]]. exists evs. split; [exact Hh | ].
  clear Hh. unfold mails_sent. induction Hp as [ | ev evs Hev _ IH]; [reflexivity | ].
  cbn [filter]. unfold no_mail in Hev. now rewrite Hev.
Qed.

Lemma sends_at_most_bind {A B} a b (m : M A) (k : A -> M B) :
  sends_at_most a m -> (forall x, sends_at_most b (k x)) ->
  sends_at_most (a + b) (bind m k).
Proof.
  intros Hm Hk w. unfold bind. destruct (Hm w) as [evs [Hh Hn]].
  destruct (m w) as [[x | e | ] w1]; cbn [snd] in *;
    try (exists evs; split; [exact Hh | lia]).
  destruct (Hk x w1) as [evs' [Hh' Hn']].
  exists (evs ++ evs')%list. rewrite Hh', Hh, app_assoc, mails_sent_app.
  split; [reflexivity | lia].
Qed.

Lemma sends_at_most_try_except {A} a b (m : M A) c h :
  sends_at_most a m -> (forall e, sends_at_most b (h e)) ->
  sends_at_most (a + b) (try_except m c h).
Proof.
  intros Hm Hh w. unfold try_except. destruct (Hm w) as [evs [Hh1 Hn]].
  destruct (m w) as [[x | e | ] w1]; cbn [snd] in *;
    try (exists evs; split; [exact Hh1 | lia]).
  destruct (c e); [ | exists evs; split; [exact Hh1 | lia]].
  destruct (Hh e w1) as [evs' [Hh' Hn']].
  exists (evs ++ evs')%list. rewrite Hh', Hh1, app_assoc, mails_sent_app.
  split; [reflexivity | lia].
Qed.

(** [smtp_send] hands over the mail once, or not at all. *)
Lemma smtp_send_once env cfg raw : sends_at_most 1 (smtp_send env cfg raw).
Proof.
  intros w. unfold smtp_send, smtp_session.
  destruct (String.eqb (smtp_security cfg) "ssl");
    [ | destruct (String.eqb (smtp_security cfg) "starttls")];
    destruct (truthy (smtp_username cfg) && truthy (smtp_password cfg));
    unfold bind, try_finally, call, logging, time_time, ret;
    repeat next_call env;
    eexists; (split; [rewrite ?history_record, <- ?app_assoc; reflexivity | ]);
    cbv; lia.
Qed.

(** X18: a run of [run_for_account] hands at most one mail to the
    submission server, however the send, the poll and the cleanup go:
    nothing is sent again after a failure, and nothing is sent while
    polling. *)
Theorem at_most_one_mail env fuel acct w :
  exists evs,
    history (snd (run_for_account env fuel acct w)) = (history w ++ evs)%list
    /\ (mails_sent evs <= 1)%nat.
Proof.
  revert w. change (sends_at_most 1 (run_for_account env fuel acct)).
  unfold run_for_account.
  change 1%nat with (0 + (0 + ((1 + 0) + 0)))%nat.
  apply sends_at_most_bind; [apply sends_none, emits_check_fields | intros _].
  apply sends_at_most_bind;
    [apply sends_none; unfold build_message; emits_all
    | intros [[token raw] msg_id]].
  apply sends_at_most_bind.
  - apply sends_at_most_try_except.
    + change 1%nat with (1 + 0)%nat.
      apply sends_at_most_bind; [apply smtp_send_once | intros ms].
      apply sends_none. emits_all.
    + intros e. apply sends_none. emits_all.
  - intros [failed | smtp_ms]; apply sends_none; [apply emits_ret | ].
    apply emits_bind; [apply emits_time_time | intros t].
    apply emits_bind.
    + unfold imap_connect. emits_all.
    + intros [failed | ]; [apply emits_ret | ].
      apply emits_try_finally.
      * apply emits_poll_and_clean_of; try reflexivity.
        intros _ [] r H; try reflexivity; discriminate.
      * emits_all.
Qed.
